(** * FTIR stacked plot: a shallow embedding of [ftir_stack_plot.py]

    The script reads a folder of CSV spectra, stacks them with a constant
    vertical offset, detects absorption minima and annotates either the
    minima nearest to configured guesses or the deepest ones.

    Conventions of the embedding.
    - A NumPy [float64] value is an exact rational ([Q]); rounding and the
      non-finite values are outside the model.  Comparisons on floats are
      the boolean comparisons on [Q].
    - A NumPy array or a pandas column is a [list]; indexing is stdpp's
      partial lookup [l !! i], and an index out of range raises.
    - A Python [str] is a [string] of 8-bit characters; white space is the
      ASCII white space of [str.isspace].
    - The script's effects (directory creation, CSV reads, plot calls, file
      writes) are recorded in an event log threaded through a small
      state-and-exception monad [M].
    - The process environment is a [gmap string string]; the file system is
      seen through [glob] and [read_csv] of the record [World]. *)

From Stdlib Require Import QArith Qabs Lqa ZArith Lia String Ascii List Sorted Permutation.
From stdpp Require Import base option list strings gmap sorting.
Import ListNotations.

Open Scope Q_scope.

(** ** Floats as rationals *)

Definition Qltb (x y : Q) : bool := negb (Qle_bool y x).

(** Python's [max(a, b)]: the second argument wins only when strictly larger. *)
Definition py_max (a b : Q) : Q := if Qltb a b then b else a.

(** ** Strings: [str.strip], [str.lower], [re.split], [os.path.basename] *)

Definition is_space (c : ascii) : bool :=
  let n := nat_of_ascii c in
  ((9 <=? n)%nat && (n <=? 13)%nat) || ((28 <=? n)%nat && (n <=? 32)%nat).

Fixpoint lstrip (s : string) : string :=
  match s with
  | EmptyString => EmptyString
  | String c s' => if is_space c then lstrip s' else s
  end.

Fixpoint rstrip (s : string) : string :=
  match s with
  | EmptyString => EmptyString
  | String c s' =>
      match rstrip s' with
      | EmptyString => if is_space c then EmptyString else String c EmptyString
      | r => String c r
      end
  end.

Definition strip (s : string) : string := rstrip (lstrip s).

Definition lower_ascii (c : ascii) : ascii :=
  let n := nat_of_ascii c in
  if (65 <=? n)%nat && (n <=? 90)%nat then ascii_of_nat (n + 32) else c.

Fixpoint lower (s : string) : string :=
  match s with
  | EmptyString => EmptyString
  | String c s' => String (lower_ascii c) (lower s')
  end.

(** [os.path.basename]: what follows the last slash. *)
Fixpoint basename (p : string) : string :=
  match p with
  | EmptyString => EmptyString
  | String c p' => if Ascii.eqb c "/" then basename p'
                   else if existsb (Ascii.eqb "/") (list_ascii_of_string p') then basename p'
                   else p
  end.

(** The character class [[,\s;]] of the guess separator. *)
Definition is_delim (c : ascii) : bool :=
  Ascii.eqb c "," || is_space c || Ascii.eqb c ";".

(** [re.split(r"[,\s;]+", s)]: the pieces between maximal runs of
    separators; a leading or trailing run leaves an empty piece. *)
Fixpoint re_split_go (prev_delim : bool) (cur : string) (s : string) : list string :=
  match s with
  | EmptyString => [cur]
  | String c s' =>
      if is_delim c
      then (if prev_delim then re_split_go true EmptyString s'
            else cur :: re_split_go true EmptyString s')
      else re_split_go false (cur +:+ String c EmptyString) s'
  end.

Definition re_split (s : string) : list string := re_split_go false EmptyString s.

(** [str.replace(",", ".", regex=False)] on one cell. *)
Fixpoint replace_comma (s : string) : string :=
  match s with
  | EmptyString => EmptyString
  | String c s' => String (if Ascii.eqb c "," then "."%char else c) (replace_comma s')
  end.

(** ** Number parsing: [int()] and a decimal instance of [float()] *)

Definition is_digit (c : ascii) : bool :=
  let n := nat_of_ascii c in (48 <=? n)%nat && (n <=? 57)%nat.

Definition digit_val (c : ascii) : Z := Z.of_nat (nat_of_ascii c) - 48.

(** Digits with single underscores between them, as [int()] accepts. *)
Fixpoint digits_val (acc : Z) (s : string) : option Z :=
  match s with
  | EmptyString => Some acc
  | String c s' =>
      if is_digit c then digits_val (10 * acc + digit_val c)%Z s'
      else if Ascii.eqb c "_" then
        match s' with
        | String c' _ => if is_digit c' then digits_val acc s' else None
        | EmptyString => None
        end
      else None
  end.

Definition py_unsigned (s : string) : option Z :=
  match s with
  | String c _ => if is_digit c then digits_val 0 s else None
  | EmptyString => None
  end.

(** [int(s)] for a base-10 literal; [None] is [ValueError]. *)
Definition py_int (s : string) : option Z :=
  match strip s with
  | String "+" d => py_unsigned d
  | String "-" d => Z.opp <$> py_unsigned d
  | d => py_unsigned d
  end.

Fixpoint span_digits (s : string) : string * string :=
  match s with
  | String c s' =>
      if is_digit c then let '(d, r) := span_digits s' in (String c d, r)
      else (EmptyString, s)
  | EmptyString => (EmptyString, EmptyString)
  end.

Definition pow10 (e : Z) : Q :=
  if (0 <=? e)%Z then inject_Z (10 ^ e) else / inject_Z (10 ^ (- e)).

Definition dec_exponent (s : string) : option Z :=
  match s with
  | EmptyString => Some 0%Z
  | String c e =>
      if Ascii.eqb c "e" || Ascii.eqb c "E" then
        match e with
        | String "+" d => py_unsigned d
        | String "-" d => Z.opp <$> py_unsigned d
        | d => py_unsigned d
        end
      else None
  end.

Definition dec_unsigned (s : string) : option Q :=
  let '(ip, r) := span_digits s in
  let '(fp, r') :=
    match r with
    | String "." r1 => span_digits r1
    | _ => (EmptyString, r)
    end in
  if (String.length ip + String.length fp =? 0)%nat then None
  else
    m ← digits_val 0 (ip +:+ fp);
    e ← dec_exponent r';
    Some (inject_Z m * pow10 (e - Z.of_nat (String.length fp))).

(** The finite decimal literals of [float()]; used to run the model. *)
Definition dec_float (s : string) : option Q :=
  match strip s with
  | String "+" d => dec_unsigned d
  | String "-" d => Qopp <$> dec_unsigned d
  | d => dec_unsigned d
  end.

(** ** Sorting

    Python's [sorted] is stable.  NumPy's [argsort] and pandas'
    [sort_values] sort with an unstable algorithm by default: the order
    they give to equal keys is not fixed by their contract.  The model
    runs one stable insertion sort for the three of them (every element is
    placed behind the elements that are not larger), which is one of the
    orders they may give; what is stated about equal depths in the auto
    branch is stated for every ascending argsort, see [auto_order_with]. *)

Fixpoint insert_by {A} (le : A → A → bool) (x : A) (l : list A) : list A :=
  match l with
  | [] => [x]
  | y :: l' => if le y x then y :: insert_by le x l' else x :: l
  end.

Definition stable_sort {A} (le : A → A → bool) (l : list A) : list A :=
  fold_left (λ acc x, insert_by le x acc) l [].

(** [sorted(paths, key=lambda p: os.path.basename(p).lower())] *)
Definition sort_key (p : string) : string := lower (basename p).

Definition sorted_by_key (paths : list string) : list string :=
  stable_sort (λ a b, String.leb (sort_key a) (sort_key b)) paths.

(** [np.argsort(a)]: the indices that sort [a] in ascending order; the
    instance the model runs, with equal values in index order. *)
Definition argsort (a : list Q) : list nat :=
  fst <$> stable_sort (λ u v, Qle_bool u.2 v.2) (imap pair a).

(** [np.argmin(a)]: index of the first smallest element; raises on an
    empty array. *)
Fixpoint argmin_from (best_i : nat) (best : Q) (i : nat) (a : list Q) : nat :=
  match a with
  | [] => best_i
  | y :: a' => if Qltb y best then argmin_from i y (S i) a'
               else argmin_from best_i best (S i) a'
  end.

Definition argmin (a : list Q) : option nat :=
  match a with
  | [] => None
  | y :: a' => Some (argmin_from 0 y 1 a')
  end.

(** Fancy indexing [a[idx]] with an integer index array. *)
Definition take_idx {A} (a : list A) (idx : list nat) : option (list A) :=
  mapM (λ i, a !! i) idx.

(** ** Data model *)

(** A loaded curve: rows of (wavenumber, transmittance). *)
Definition Curve : Type := list (Q * Q).

Definition wavenumber (df : Curve) : list Q := fst <$> df.
Definition transmittance (df : Curve) : list Q := snd <$> df.

Inductive Mode := guess_mode | auto_mode.

(** One row of the peak summary. *)
Record Annotation := {
  a_file : string;
  a_mode : Mode;
  a_guess : option Q;
  a_peak : Q;
  a_transmittance : Q
}.

Record Config := {
  INPUT_DIR : string;
  OFFSET_STEP : Q;
  PEAK_PROMINENCE : Q;
  PEAKS_PER_CURVE : Z;
  TARGET_GUESSES : option (list Q)
}.

(** A parsed data frame, column by column; each cell is held as the text
    [astype(str)] gives for it. *)
Definition Frame : Type := list (list string).

Inductive Exn :=
| RuntimeError
| ValueError
| FileNotFoundError
| ParserError
| IndexError.

Inductive Sep := Comma | Semicolon.

Inductive Event :=
| EvMakedirs
| EvReadCsv (path : string) (sep : Sep)
| EvPlotCurve (name : string) (offset : Q) (points : list (Q * Q))
| EvMarker (x y : Q)
| EvText (x y : Q)
| EvSavefig
| EvToCsv (rows : list Annotation).

(** What the script sees of the outside: the environment after
    [load_dotenv], the recursive glob for [*.csv] under a directory, and
    what [pd.read_csv] makes of a file under a separator. *)
Record World := {
  environ : gmap string string;
  glob : string → list string;
  read_csv : string → Sep → Exn + Frame
}.

(** ** The monad of the script: an event log and exceptions *)

Definition M (A : Type) : Type := list Event → list Event * (Exn + A).

Definition ret {A} (a : A) : M A := λ log, (log, inr a).
Definition raise {A} (e : Exn) : M A := λ log, (log, inl e).
Definition bind {A B} (m : M A) (k : A → M B) : M B :=
  λ log, match m log with
         | (log', inr a) => k a log'
         | (log', inl e) => (log', inl e)
         end.
Definition emit (ev : Event) : M unit := λ log, (log ++ [ev], inr tt).

(** [try: body except Exception: handler] *)
Definition try_except {A} (body handler : M A) : M A :=
  λ log, match body log with
         | (log', inr a) => (log', inr a)
         | (log', inl _) => handler log'
         end.

Definition lift_sum {A} (r : Exn + A) : M A :=
  match r with inl e => raise e | inr a => ret a end.

Definition lift_option {A} (e : Exn) (o : option A) : M A :=
  match o with None => raise e | Some a => ret a end.

#[export] Instance M_ret : MRet M := @ret.
#[export] Instance M_bind : MBind M := λ A B k m, bind m k.

Fixpoint for_each {A B} (f : A → M B) (l : list A) : M (list B) :=
  match l with
  | [] => mret []
  | x :: l' => y ← f x; ys ← for_each f l'; mret (y :: ys)
  end.

(** ** CSV loader *)

Section Loader.

(** [pd.to_numeric] on one cell: [None] is a missing value. *)
Variable to_numeric : string → option Q.

Definition coerce (col : list string) : list (option Q) :=
  (λ s, to_numeric (replace_comma s)) <$> col.

(** [DataFrame.dropna] on the two coerced columns. *)
Definition dropna (w t : list (option Q)) : Curve :=
  omap (λ r, match r with (Some a, Some b) => Some (a, b) | _ => None end) (zip w t).

(** The two-name assignment to [df.columns] raises when the frame has
    fewer than two columns. *)
Definition _clean (df : Frame) : Exn + Curve :=
  match take 2 df with
  | [c0; c1] => inr (dropna (coerce c0) (coerce c1))
  | _ => inl ValueError
  end.

Definition do_read_csv (w : World) (path : string) (sep : Sep) : M Frame :=
  _ ← emit (EvReadCsv path sep); lift_sum (read_csv w path sep).

Definition _read_csv_any (w : World) (path : string) : M Curve :=
  try_except
    (df ← do_read_csv w path Comma;
     if (length df <? 2)%nat then raise ValueError else lift_sum (_clean df))
    (df ← do_read_csv w path Semicolon;
     lift_sum (_clean df)).

End Loader.

(** [df.sort_values("wavenumber", ascending=False)]; rows of equal
    wavenumber are kept in file order, one of the orders pandas may give
    them. *)
Definition sort_values_desc (df : Curve) : Curve :=
  stable_sort (λ r s, Qle_bool s.1 r.1) df.

(** ** Minima detector: [scipy.signal.find_peaks(x, prominence=p)]

    The two passes of [find_peaks] that run for this call, after SciPy's
    [_local_maxima_1d] and [_peak_prominences] (no window); samples are
    read with [x[i]]. *)

Definition sample (x : list Q) (i : nat) : Q := nth i x 0.

(** [while i_ahead < i_max and x[i_ahead] == x[i]: i_ahead += 1];
    [fuel] is the distance from [i_ahead] to [i_max]. *)
Fixpoint plateau_end (x : list Q) (xi : Q) (i_max fuel i_ahead : nat) : nat :=
  match fuel with
  | O => i_ahead
  | S fuel' =>
      if (i_ahead <? i_max)%nat && Qeq_bool (sample x i_ahead) xi
      then plateau_end x xi i_max fuel' (S i_ahead)
      else i_ahead
  end.

(** The main loop of [_local_maxima_1d], from index [i]; a maximum is
    recorded as (midpoint, left edge, right edge) of its plateau. *)
Fixpoint local_maxima_loop (x : list Q) (i_max fuel i : nat) : list (nat * nat * nat) :=
  match fuel with
  | O => []
  | S fuel' =>
      if (i <? i_max)%nat then
        if Qltb (sample x (i - 1)) (sample x i) then
          let i_ahead := plateau_end x (sample x i) i_max (i_max - (i + 1)) (i + 1) in
          if Qltb (sample x i_ahead) (sample x i) then
            let left_edge := i in
            let right_edge := (i_ahead - 1)%nat in
            ((left_edge + right_edge) / 2, left_edge, right_edge)%nat
              :: local_maxima_loop x i_max fuel' (i_ahead + 1)
          else local_maxima_loop x i_max fuel' (i + 1)
        else local_maxima_loop x i_max fuel' (i + 1)
      else []
  end.

Definition _local_maxima_1d (x : list Q) : list (nat * nat * nat) :=
  local_maxima_loop x (length x - 1) (length x) 1.

(** Left pass of [_peak_prominences]: walk down from the peak while the
    samples do not exceed it, keeping the lowest one. *)
Fixpoint left_min_loop (x : list Q) (xp : Q) (i : nat) (left_min : Q) {struct i} : Q :=
  if Qle_bool (sample x i) xp then
    let left_min' := if Qltb (sample x i) left_min then sample x i else left_min in
    match i with
    | O => left_min'
    | S i' => left_min_loop x xp i' left_min'
    end
  else left_min.

(** Right pass; [fuel] is the distance from [i] to one past [i_max]. *)
Fixpoint right_min_loop (x : list Q) (xp : Q) (i_max fuel i : nat) (right_min : Q) : Q :=
  match fuel with
  | O => right_min
  | S fuel' =>
      if (i <=? i_max)%nat && Qle_bool (sample x i) xp then
        let right_min' := if Qltb (sample x i) right_min then sample x i else right_min in
        right_min_loop x xp i_max fuel' (S i) right_min'
      else right_min
  end.

Definition peak_prominence (x : list Q) (peak : nat) : Q :=
  let xp := sample x peak in
  let i_max := (length x - 1)%nat in
  let left_min := left_min_loop x xp peak xp in
  let right_min := right_min_loop x xp i_max (i_max + 1 - peak) peak xp in
  xp - py_max left_min right_min.

(** Peaks whose prominence reaches the lower bound. *)
Definition find_peaks (x : list Q) (prominence : Q) : list nat :=
  filter (λ p, Is_true (Qle_bool prominence (peak_prominence x p)))
         ((λ m, m.1.1) <$> _local_maxima_1d x).

Definition _find_minima (wn tr : list Q) (prominence : Q) : list nat :=
  let inverted := (λ t, 1 - t) <$> tr in
  find_peaks inverted prominence.

Definition _nearest_index (x : list Q) (value : Q) : option nat :=
  argmin ((λ xi, Qabs (xi - value)) <$> x).

(** ** Peak annotator *)

(** One turn of the loop over the guesses: no minimum, no annotation. *)
Definition annotate_guess (name : string) (wn tr : list Q) (peak_idx : list nat)
    (guess : Q) : option (list Annotation) :=
  if (length peak_idx =? 0)%nat then Some []
  else
    near ← take_idx wn peak_idx;
    k ← _nearest_index near guess;
    nearest ← peak_idx !! k;
    p_wn ← wn !! nearest;
    p_tr ← tr !! nearest;
    Some [ {| a_file := name; a_mode := guess_mode; a_guess := Some guess;
              a_peak := p_wn; a_transmittance := p_tr |} ].

(** [np.argsort(depths)[::-1][:PEAKS_PER_CURVE]], for a given [np.argsort]. *)
Definition auto_order_with (np_argsort : list Q → list nat) (depths : list Q)
    (peaks_per_curve : Z) : list nat :=
  take (Z.to_nat peaks_per_curve) (reverse (np_argsort depths)).

(** The array [peak_idx[order]] the loop of the auto branch runs over. *)
Definition auto_selected_with (np_argsort : list Q → list nat) (tr : list Q)
    (peak_idx : list nat) (peaks_per_curve : Z) : option (list nat) :=
  tr_peaks ← take_idx tr peak_idx;
  let depths := (λ t, 1 - t) <$> tr_peaks in
  let order := auto_order_with np_argsort depths peaks_per_curve in
  take_idx peak_idx order.

(** The two with the argsort the model runs. *)
Definition auto_order (depths : list Q) (peaks_per_curve : Z) : list nat :=
  auto_order_with argsort depths peaks_per_curve.

Definition auto_selected (tr : list Q) (peak_idx : list nat) (peaks_per_curve : Z)
    : option (list nat) :=
  auto_selected_with argsort tr peak_idx peaks_per_curve.

(** One turn of the loop of the auto branch. *)
Definition auto_row (name : string) (wn tr : list Q) (idx : nat) : option Annotation :=
  p_wn ← wn !! idx;
  p_tr ← tr !! idx;
  Some {| a_file := name; a_mode := auto_mode; a_guess := None;
          a_peak := p_wn; a_transmittance := p_tr |}.

Definition annotate_auto (name : string) (wn tr : list Q) (peak_idx : list nat)
    (peaks_per_curve : Z) : option (list Annotation) :=
  if (0 <? length peak_idx)%nat && (0 <? peaks_per_curve)%Z then
    selected ← auto_selected tr peak_idx peaks_per_curve;
    mapM (auto_row name wn tr) selected
  else Some [].

(** The annotations of one curve, in the order they are appended to
    [peak_rows]. *)
Definition annotate_curve (cfg : Config) (name : string) (df : Curve)
    : option (list Annotation) :=
  let wn := wavenumber df in
  let tr := transmittance df in
  let peak_idx := _find_minima wn tr (PEAK_PROMINENCE cfg) in
  match TARGET_GUESSES cfg with
  | Some (g :: gs) =>
      @concat _ <$> mapM (annotate_guess name wn tr peak_idx) (g :: gs)
  | _ => annotate_auto name wn tr peak_idx (PEAKS_PER_CURVE cfg)
  end.

(** Vertical offset of curve [i] (counted from 1) out of [n]. *)
Definition offset_of (cfg : Config) (n i : nat) : Q :=
  inject_Z (Z.of_nat n - Z.of_nat i) * OFFSET_STEP cfg.

Definition text_lift (cfg : Config) : Q :=
  0.01 * py_max 1 (OFFSET_STEP cfg / 0.175).

(** Body of the plotting loop for curve [i]: the curve, then a marker and
    a label per annotation; returns the rows to append. *)
Definition plot_curve (cfg : Config) (n i : nat) (c : string * Curve) : M (list Annotation) :=
  let '(name, df) := c in
  let offset := offset_of cfg n i in
  _ ← emit (EvPlotCurve name offset ((λ r, (r.1, r.2 + offset)) <$> df));
  rows ← lift_option IndexError (annotate_curve cfg name df);
  _ ← for_each (λ a,
         _ ← emit (EvMarker (a_peak a) (a_transmittance a + offset));
         emit (EvText (a_peak a) (a_transmittance a + offset + text_lift cfg)))
       rows;
  mret rows.

Fixpoint plot_curves (cfg : Config) (n i : nat) (curves : list (string * Curve))
    : M (list Annotation) :=
  match curves with
  | [] => mret []
  | c :: rest =>
      rows ← plot_curve cfg n i c;
      more ← plot_curves cfg n (S i) rest;
      mret (rows ++ more)
  end.

(** ** Configuration and the script *)

Section Script.

(** [float()] on a configuration string; [None] is [ValueError]. *)
Variable py_float : string → option Q.
(** [pd.to_numeric(..., errors="coerce")] on one cell. *)
Variable to_numeric : string → option Q.

(** [os.getenv(key, default)] *)
Definition getenv (w : World) (key dflt : string) : string :=
  default dflt (environ w !! key).

(** The loop over the tokens of [TARGET_GUESSES]. *)
Definition collect_guesses (toks : list string) : list Q :=
  fold_left
    (λ acc tok,
       if String.eqb tok "" then acc
       else match py_float tok with
            | Some v => acc ++ [v]
            | None => acc
            end)
    toks [].

Definition parse_guesses (_guess_env : string) : option (list Q) :=
  if String.eqb _guess_env "" then None
  else
    match collect_guesses (re_split _guess_env) with
    | [] => None
    | gs => Some gs
    end.

Definition load_config (w : World) : M Config :=
  let input_dir := strip (getenv w "INPUT_DIR" "") in
  if String.eqb input_dir "" then raise RuntimeError
  else
    offset_step ← lift_option ValueError (py_float (getenv w "OFFSET_STEP" "0.175"));
    peak_prominence ← lift_option ValueError (py_float (getenv w "PEAK_PROMINENCE" "0.001"));
    peaks_per_curve ← lift_option ValueError (py_int (getenv w "PEAKS_PER_CURVE" "5"));
    mret {| INPUT_DIR := input_dir;
            OFFSET_STEP := offset_step;
            PEAK_PROMINENCE := peak_prominence;
            PEAKS_PER_CURVE := peaks_per_curve;
            TARGET_GUESSES := parse_guesses (strip (getenv w "TARGET_GUESSES" "")) |}.

Definition load_curve (w : World) (path : string) : M (string * Curve) :=
  df ← _read_csv_any to_numeric w path;
  mret (basename path, sort_values_desc df).

Definition main (w : World) : M unit :=
  cfg ← load_config w;
  _ ← emit EvMakedirs;
  let csv_files := sorted_by_key (glob w (INPUT_DIR cfg)) in
  match csv_files with
  | [] => raise FileNotFoundError
  | _ =>
      curves ← for_each (load_curve w) csv_files;
      let n := length curves in
      peak_rows ← plot_curves cfg n 1 curves;
      _ ← emit EvSavefig;
      match peak_rows with
      | [] => mret tt
      | _ => emit (EvToCsv peak_rows)
      end
  end.

(** A run of the script from an empty log. *)
Definition run (w : World) : list Event * (Exn + unit) := main w [].

End Script.

(** ** Notions the properties are stated with *)

(** While sorting, an element [y] met before [x] ends up on the side of
    [x] that the test [le y x] decides; [R] is the order of the result. *)
Definition placed {A} (le : A → A → bool) (R : relation A) (y x : A) : Prop :=
  if le y x then R y x else R x y.

(** Order on (index, key): by key, then by index. *)
Definition lex_lt (u v : nat * Q) : Prop :=
  u.2 < v.2 ∨ (u.2 == v.2 ∧ (u.1 < v.1)%nat).

(** In the result of [argsort], [i] stands before [j]. *)
Definition sorts_before (a : list Q) (i j : nat) : Prop :=
  ∃ x y, a !! i = Some x ∧ a !! j = Some y ∧ (x < y ∨ (x == y ∧ (i < j)%nat)).

(** [i] is selected before [j]: deeper first, and on equal depth the
    minimum with the larger position among the detected ones first. *)
Definition ranked_before (d : list Q) (i j : nat) : Prop :=
  ∃ x y, d !! i = Some x ∧ d !! j = Some y ∧ (y < x ∨ (y == x ∧ (j < i)%nat)).

(** A recorded maximum (midpoint, left edge, right edge): a flat stretch
    strictly inside the signal with a lower sample on either side. *)
Definition plateau_max (x : list Q) (i_max : nat) (m : nat * nat * nat) : Prop :=
  let '(mid, l, r) := m in
  (1 ≤ l)%nat ∧ (l ≤ r)%nat ∧ (r < i_max)%nat ∧ mid = ((l + r) / 2)%nat ∧
  sample x (l - 1) < sample x l ∧
  (∀ k, (l ≤ k ≤ r)%nat → sample x k == sample x l) ∧
  sample x (r + 1) < sample x l.

(** Sample [p] is a local maximum of [x]: the middle of a plateau with a
    strictly lower neighbour on both sides. *)
Definition local_maximum (x : list Q) (p : nat) : Prop :=
  ∃ l r, (1 ≤ l ≤ p)%nat ∧ (p ≤ r)%nat ∧ (r + 1 < length x)%nat ∧
         p = ((l + r) / 2)%nat ∧
         (∀ k, (l ≤ k ≤ r)%nat → sample x k == sample x p) ∧
         sample x (l - 1) < sample x p ∧ sample x (r + 1) < sample x p.

(** A transmittance sequence that never rises or never falls (a flat one
    does both). *)
Definition monotonic (tr : list Q) : Prop :=
  StronglySorted Qle tr ∨ StronglySorted (flip Qle) tr.

(** [m] is the lowest sample of [x] between positions [a] and [b]. *)
Definition lowest_between (x : list Q) (a b : nat) (m : Q) : Prop :=
  (∀ k, (a ≤ k ≤ b)%nat → m <= sample x k) ∧
  (∃ k, (a ≤ k ≤ b)%nat ∧ sample x k == m).

(** Topographic prominence of the sample at [p]: extend a level line from
    the peak to both sides until the signal rises above it or ends; the
    higher of the lowest samples met on the two sides is the reference,
    and the prominence is the height of the peak above it. *)
Definition topographic_prominence (x : list Q) (p : nat) (v : Q) : Prop :=
  ∃ a b lm rm,
    (a ≤ p ≤ b)%nat ∧ (b < length x)%nat ∧
    (∀ k, (a ≤ k ≤ b)%nat → sample x k <= sample x p) ∧
    (a = 0%nat ∨ sample x p < sample x (a - 1)) ∧
    ((b + 1)%nat = length x ∨ sample x p < sample x (b + 1)) ∧
    lowest_between x a p lm ∧ lowest_between x p b rm ∧
    ((lm <= rm ∧ v == sample x p - rm) ∨ (rm <= lm ∧ v == sample x p - lm)).

(** Sample [p] is selected before sample [q] in the auto branch: it is
    deeper, or as deep and detected later. *)
Definition deeper_or_later (tr : list Q) (p q : nat) : Prop :=
  1 - sample tr q < 1 - sample tr p ∨
  (1 - sample tr q == 1 - sample tr p ∧ (q < p)%nat).

(** Depths of the detected minima, and the samples the auto branch selects
    from them, in selection order. *)
Definition depths_at (tr : list Q) (peak_idx : list nat) : list Q :=
  (λ p, 1 - sample tr p) <$> peak_idx.

Definition selected_at (tr : list Q) (peak_idx : list nat) (n : Z) : list nat :=
  (λ j, nth j peak_idx 0%nat) <$> auto_order (depths_at tr peak_idx) n.

(** The row the auto branch writes for the minimum at sample [idx]. *)
Definition auto_row_at (name : string) (wn tr : list Q) (idx : nat) : Annotation :=
  {| a_file := name; a_mode := auto_mode; a_guess := None;
     a_peak := sample wn idx; a_transmittance := sample tr idx |}.

(** The row the guess branch writes for guess [g] when it picks the
    minimum at sample [p]. *)
Definition guess_row_at (name : string) (wn tr : list Q) (g : Q) (p : nat) : Annotation :=
  {| a_file := name; a_mode := guess_mode; a_guess := Some g;
     a_peak := sample wn p; a_transmittance := sample tr p |}.

(** Among the detected minima [peak_idx], the one at sample [p] is nearest
    to [g]: none is strictly closer. *)
Definition nearest_minimum (wn : list Q) (peak_idx : list nat) (g : Q) (p : nat) : Prop :=
  p ∈ peak_idx ∧
  ∀ q, q ∈ peak_idx → Qabs (sample wn p - g) <= Qabs (sample wn q - g).

(** The truth value of [TARGET_GUESSES] at the branch of the plotting loop. *)
Definition in_guess_mode (cfg : Config) : bool :=
  match TARGET_GUESSES cfg with
  | Some (_ :: _) => true
  | _ => false
  end.

(** Minimum [q] was detected before minimum [p]. *)
Definition detected_before (peak_idx : list nat) (q p : nat) : Prop :=
  ∃ i j, (i < j)%nat ∧ peak_idx !! i = Some q ∧ peak_idx !! j = Some p.

Definition same_depth (tr : list Q) (p q : nat) : Prop :=
  1 - sample tr p == 1 - sample tr q.

(** What NumPy promises of [np.argsort(a)] under every kind of sort: the
    positions of [a], each once, with the values ascending along them.
    Nothing is said of the order of equal values. *)
Definition ascending_argsort (np_argsort : list Q → list nat) : Prop :=
  ∀ a, np_argsort a ≡ₚ seq 0 (length a) ∧
       StronglySorted (λ i j, sample a i <= sample a j) (np_argsort a).

(** An ascending argsort that leaves equal values in the reverse of index
    order: every element is placed in front of the elements that are not
    smaller. *)
Definition argsort_ties_reversed (a : list Q) : list nat :=
  fst <$> stable_sort (λ u v, Qltb u.2 v.2) (imap pair a).

(** Order on (index, key): by key, then by index, the larger first. *)
Definition lex_lt_reversed (u v : nat * Q) : Prop :=
  u.2 < v.2 ∨ (u.2 == v.2 ∧ (v.1 < u.1)%nat).

(** [i] stands before [j] in [order]. *)
Definition stands_before (order : list nat) (i j : nat) : Prop :=
  ∃ k l, (k < l)%nat ∧ order !! k = Some i ∧ order !! l = Some j.

(** The argsort returned the position of minimum [q] among the detected
    minima before the position of minimum [p]. *)
Definition sorted_before (peak_idx order : list nat) (q p : nat) : Prop :=
  ∃ i j, peak_idx !! i = Some q ∧ peak_idx !! j = Some p ∧ stands_before order i j.

(** Sample [p] is deeper than sample [q], or as deep and detected earlier. *)
Definition deeper_or_earlier (tr : list Q) (p q : nat) : Prop :=
  1 - sample tr q < 1 - sample tr p ∨
  (1 - sample tr q == 1 - sample tr p ∧ (p < q)%nat).

(** A spectrum with two equally deep minima, at 3500 and at 2500. *)
Definition twin_curve : Curve :=
  [(4000, 0.9); (3500, 0.4); (3000, 0.9); (2500, 0.4); (2000, 0.9)].

Definition twin_config (peaks_per_curve : Z) : Config :=
  {| INPUT_DIR := "data"; OFFSET_STEP := 0.175; PEAK_PROMINENCE := 0.01;
     PEAKS_PER_CURVE := peaks_per_curve; TARGET_GUESSES := None |}.

Definition guess_config (guesses : list Q) : Config :=
  {| INPUT_DIR := "data"; OFFSET_STEP := 0.175; PEAK_PROMINENCE := 0.01;
     PEAKS_PER_CURVE := 5; TARGET_GUESSES := Some guesses |}.

(** *** The loader, in the words of its contract *)

(** The first two columns of a frame, read row by row; a frame with fewer
    than two columns has none. *)
Definition first_two_columns (df : Frame) : option (list (string * string)) :=
  match df with
  | c0 :: c1 :: _ => Some (zip c0 c1)
  | _ => None
  end.

(** A cell: decimal comma to decimal point, then numeric parsing; a cell
    that does not parse is missing. *)
Definition parse_cell (to_numeric : string → option Q) (s : string) : option Q :=
  to_numeric (replace_comma s).

(** The rows without a missing value, in order. *)
Definition valid_rows (to_numeric : string → option Q) (rows : list (string * string))
    : Curve :=
  omap (λ r, x ← parse_cell to_numeric r.1; y ← parse_cell to_numeric r.2; Some (x, y)) rows.

(** [t] is the text [s] with every comma turned into a point and nothing
    else changed. *)
Inductive decimal_points : string → string → Prop :=
| decimal_points_end : decimal_points "" ""
| decimal_points_comma s t :
    decimal_points s t → decimal_points (String "," s) (String "." t)
| decimal_points_other c s t :
    c ≠ ","%char → decimal_points s t → decimal_points (String c s) (String c t).

(** What is read from a cell: the number its text parses to once the
    decimal commas are points, or a missing value ([None]). *)
Definition cell_value (to_numeric : string → option Q) (s : string) (v : option Q)
    : Prop :=
  ∃ t, decimal_points s t ∧ to_numeric t = v.

(** [curve] is what is left of [rows]: a row whose two cells have a value
    is kept with these values, a row with a missing value is dropped. *)
Inductive cleaned (to_numeric : string → option Q)
    : list (string * string) → Curve → Prop :=
| cleaned_end : cleaned to_numeric [] []
| cleaned_keep a b x y rows curve :
    cell_value to_numeric a (Some x) → cell_value to_numeric b (Some y) →
    cleaned to_numeric rows curve →
    cleaned to_numeric ((a, b) :: rows) ((x, y) :: curve)
| cleaned_drop a b rows curve :
    cell_value to_numeric a None ∨ cell_value to_numeric b None →
    cleaned to_numeric rows curve →
    cleaned to_numeric ((a, b) :: rows) curve.

(** An attempt succeeds when the file parses into at least two columns. *)
Definition attempt_ok (w : World) (path : string) (sep : Sep) : bool :=
  match read_csv w path sep with
  | inr df => (2 <=? length df)%nat
  | inl _ => false
  end.

Definition fails_both (w : World) (path : string) : Prop :=
  attempt_ok w path Comma = false ∧ attempt_ok w path Semicolon = false.

(** Outcome of the loader on one file. *)
Definition load_result (to_numeric : string → option Q) (w : World) (path : string)
    : Exn + Curve :=
  match (if attempt_ok w path Comma then read_csv w path Comma
         else read_csv w path Semicolon) with
  | inl e => inl e
  | inr df =>
      match first_two_columns df with
      | Some rows => inr (valid_rows to_numeric rows)
      | None => inl ValueError
      end
  end.

Definition load_events (w : World) (path : string) : list Event :=
  EvReadCsv path Comma ::
  (if attempt_ok w path Comma then [] else [EvReadCsv path Semicolon]).

(** Loading the files in order, up to the first that fails. *)
Fixpoint load_all_result (to_numeric : string → option Q) (w : World)
    (files : list string) : Exn + list (string * Curve) :=
  match files with
  | [] => inr []
  | p :: rest =>
      match load_result to_numeric w p with
      | inl e => inl e
      | inr df =>
          match load_all_result to_numeric w rest with
          | inl e => inl e
          | inr curves => inr ((basename p, sort_values_desc df) :: curves)
          end
      end
  end.

Fixpoint load_all_events (to_numeric : string → option Q) (w : World)
    (files : list string) : list Event :=
  match files with
  | [] => []
  | p :: rest =>
      load_events w p ++
      match load_result to_numeric w p with
      | inl _ => []
      | inr _ => load_all_events to_numeric w rest
      end
  end.

(** *** The plotting loop, as the events it leaves *)

Definition curve_rows (cfg : Config) (c : string * Curve) : list Annotation :=
  default [] (annotate_curve cfg c.1 c.2).

Definition mark_events (cfg : Config) (offset : Q) (rows : list Annotation) : list Event :=
  rows ≫= λ a, [EvMarker (a_peak a) (a_transmittance a + offset);
                EvText (a_peak a) (a_transmittance a + offset + text_lift cfg)].

Definition curve_events (cfg : Config) (n i : nat) (c : string * Curve) : list Event :=
  EvPlotCurve c.1 (offset_of cfg n i) ((λ r, (r.1, r.2 + offset_of cfg n i)) <$> c.2)
  :: mark_events cfg (offset_of cfg n i) (curve_rows cfg c).

Fixpoint plot_events (cfg : Config) (n i : nat) (curves : list (string * Curve))
    : list Event :=
  match curves with
  | [] => []
  | c :: rest => curve_events cfg n i c ++ plot_events cfg n (S i) rest
  end.

(** Name and offset of the curves plotted, in plotting order. *)
Definition plotted (log : list Event) : list (string * Q) :=
  omap (λ ev, match ev with EvPlotCurve name offset _ => Some (name, offset) | _ => None end)
       log.

(** The rows written to the peak summary, if it was written. *)
Definition summary_rows (log : list Event) : list Annotation :=
  log ≫= λ ev, match ev with EvToCsv rows => rows | _ => [] end.

(** The two outputs of a run: the figure and the summary. *)
Definition is_output (ev : Event) : bool :=
  match ev with
  | EvSavefig | EvToCsv _ => true
  | _ => false
  end.

(** The configuration the script ends up with, or the exception raised
    while reading it. *)
Definition config_result (py_float : string → option Q) (w : World) : Exn + Config :=
  (load_config py_float w []).2.

(** *** Guess tokens *)

(** What one token of [TARGET_GUESSES] contributes. *)
Definition float_token (py_float : string → option Q) (tok : string) : option Q :=
  if String.eqb tok "" then None else py_float tok.

(** The string is made of separators only (commas, semicolons, blanks). *)
Fixpoint all_delims (s : string) : bool :=
  match s with
  | EmptyString => true
  | String c s' => is_delim c && all_delims s'
  end.

(** The same world with another environment. *)
Definition with_environ (w : World) (env : gmap string string) : World :=
  {| environ := env; glob := glob w; read_csv := read_csv w |}.

Definition with_guesses (cfg : Config) (guesses : option (list Q)) : Config :=
  {| INPUT_DIR := INPUT_DIR cfg; OFFSET_STEP := OFFSET_STEP cfg;
     PEAK_PROMINENCE := PEAK_PROMINENCE cfg; PEAKS_PER_CURVE := PEAKS_PER_CURVE cfg;
     TARGET_GUESSES := guesses |}.

(** *** A small input folder to run the script on *)

(** Three files: [a.csv] parses with the comma; [B.csv] holds the twin
    curve with decimal commas and parses with the semicolon only;
    [empty.csv] parses with the comma but none of its rows is numeric. *)
Definition sample_files (path : string) (sep : Sep) : Exn + Frame :=
  if String.eqb path "data/a.csv" then
    match sep with
    | Comma => inr [["4000"; "3500"; "3000"]; ["0.95"; "0.40"; "0.92"]]
    | Semicolon => inr [["4000,0.95"; "3500,0.40"; "3000,0.92"]]
    end
  else if String.eqb path "data/sub/B.csv" then
    match sep with
    | Comma => inr [["4000;0"; "3500;0"; "3000;0"; "2500;0"; "2000;0"]]
    | Semicolon => inr [["4000"; "3500"; "3000"; "2500"; "2000"];
                        ["0,9"; "0,4"; "0,9"; "0,4"; "0,9"]]
    end
  else if String.eqb path "data/empty.csv" then
    match sep with
    | Comma => inr [["n/a"; "-"]; ["n/a"; "-"]]
    | Semicolon => inr [["n/a,n/a"; "-,-"]]
    end
  else inl FileNotFoundError.

Definition sample_world (env : gmap string string) : World :=
  {| environ := env;
     glob := λ dir, if String.eqb dir "data"
                    then ["data/sub/B.csv"; "data/empty.csv"; "data/a.csv"] else [];
     read_csv := sample_files |}.

(** The curve has at least one sample. *)
Definition has_rows (c : string * Curve) : bool :=
  match c.2 with
  | [] => false
  | _ => true
  end.

(** The configuration of a run with only [INPUT_DIR=data] set. *)
Definition default_config : Config :=
  {| INPUT_DIR := "data"; OFFSET_STEP := 0.175; PEAK_PROMINENCE := 0.001;
     PEAKS_PER_CURVE := 5; TARGET_GUESSES := None |}.

(** *** More inputs to run the script on *)

(** A folder whose second file (in file-name order) cannot be read. *)
Definition broken_world : World :=
  {| environ := {[ "INPUT_DIR" := "data" ]};
     glob := λ dir, if String.eqb dir "data"
                    then ["data/z.csv"; "data/a.csv"; "data/bad.csv"] else [];
     read_csv := sample_files |}.

(** The exception a file that fails under both separators leaves: the one
    of the semicolon attempt. *)
Definition semicolon_failure (w : World) (path : string) : Exn :=
  match read_csv w path Semicolon with
  | inl e => e
  | inr _ => ValueError
  end.

(** Two files with the same numbers: [p.csv] with commas between the
    fields and decimal points, [q.csv] with semicolons and decimal commas
    (the comma attempt on it gives one column). *)
Definition decimal_files (path : string) (sep : Sep) : Exn + Frame :=
  if String.eqb path "data/p.csv" then
    match sep with
    | Comma => inr [["4000"; "3500"; "3000"]; ["0.95"; "0.40"; "0.92"]]
    | Semicolon => inr [["4000,0.95"; "3500,0.40"; "3000,0.92"]]
    end
  else if String.eqb path "data/q.csv" then
    match sep with
    | Comma => inr [["4000;0"; "3500;0"; "3000;0"]]
    | Semicolon => inr [["4000"; "3500"; "3000"]; ["0,95"; "0,40"; "0,92"]]
    end
  else inl FileNotFoundError.

Definition decimal_world : World :=
  {| environ := {[ "INPUT_DIR" := "data" ]};
     glob := λ dir, if String.eqb dir "data" then ["data/p.csv"; "data/q.csv"] else [];
     read_csv := decimal_files |}.

(** The first two columns of a frame with the decimal commas of every cell
    turned into points. *)
Definition normalized_columns (df : Frame) : list (list string) :=
  (λ col : list string, replace_comma <$> col) <$> take 2 df.

(** *** Kinds of events *)

Definition is_read (ev : Event) : bool :=
  match ev with
  | EvReadCsv _ _ => true
  | _ => false
  end.

Definition is_drawing (ev : Event) : bool :=
  match ev with
  | EvPlotCurve _ _ _ | EvMarker _ _ | EvText _ _ => true
  | _ => false
  end.



(** * Properties *)

(** ** Comparisons on [Q] *)

Lemma Qltb_lt (x y : Q) : Qltb x y = true ↔ x < y.
Proof.
  unfold Qltb. rewrite negb_true_iff, <- not_true_iff_false, Qle_bool_iff.
  split; [apply Qnot_le_lt | apply Qlt_not_le].
Qed.

Lemma Qltb_ge (x y : Q) : Qltb x y = false ↔ y <= x.
Proof.
  unfold Qltb. rewrite negb_false_iff. apply Qle_bool_iff.
Qed.

Lemma Qle_bool_false (x y : Q) : Qle_bool x y = false ↔ y < x.
Proof.
  rewrite <- not_true_iff_false, Qle_bool_iff.
  split; [apply Qnot_le_lt | apply Qlt_not_le].
Qed.

(** ** The stable insertion sort *)

Section StableSort.
Context {A : Type} (le : A → A → bool).

Lemma insert_by_Permutation (x : A) (l : list A) : insert_by le x l ≡ₚ x :: l.
Proof.
  induction l as [|y l IH]; simpl; [done|].
  destruct (le y x); [|done].
  rewrite IH. apply Permutation_swap.
Qed.

Lemma fold_insert_Permutation (l acc : list A) :
  fold_left (λ acc x, insert_by le x acc) l acc ≡ₚ acc ++ l.
Proof.
  revert acc. induction l as [|x l IH]; intros acc; simpl.
  - by rewrite app_nil_r.
  - rewrite IH, insert_by_Permutation.
    by rewrite (Permutation_middle acc l x).
Qed.

Lemma stable_sort_Permutation (l : list A) : stable_sort le l ≡ₚ l.
Proof. apply (fold_insert_Permutation l []). Qed.

Lemma stable_sort_length (l : list A) : length (stable_sort le l) = length l.
Proof. by rewrite stable_sort_Permutation. Qed.

(** [R] is the order the result is to have; an element [y] met before [x]
    must be related to it the way the test [le y x] decides. *)
Context (R : relation A) `{!Transitive R}.

Lemma insert_by_StronglySorted (x : A) (l : list A) :
  Forall (λ y, placed le R y x) l →
  StronglySorted R l → StronglySorted R (insert_by le x l).
Proof.
  intros Hpl Hs. induction Hs as [|y l Hs IH Hy]; simpl.
  - repeat constructor.
  - apply Forall_cons in Hpl as [Hyx Hpl]. unfold placed in Hyx.
    destruct (le y x) eqn:E.
    + constructor; [by apply IH|].
      rewrite insert_by_Permutation. by constructor.
    + constructor; [by constructor|].
      constructor; [done|].
      eapply Forall_impl; [exact Hy|]. intros z Hz. by etrans.
Qed.

Lemma fold_insert_StronglySorted (l acc : list A) :
  StronglySorted R acc →
  Forall (λ y, Forall (placed le R y) l) acc →
  StronglySorted (placed le R) l →
  StronglySorted R (fold_left (λ acc x, insert_by le x acc) l acc).
Proof.
  revert acc. induction l as [|x l IH]; intros acc Hacc Hal Hl; simpl; [done|].
  apply StronglySorted_inv in Hl as [Hl Hx].
  apply IH; [| |done].
  - apply insert_by_StronglySorted; [|done].
    eapply Forall_impl; [exact Hal|]. intros y Hy. by apply Forall_cons in Hy as [? _].
  - rewrite insert_by_Permutation. constructor; [done|].
    eapply Forall_impl; [exact Hal|]. intros y Hy. by apply Forall_cons in Hy as [_ ?].
Qed.

Lemma stable_sort_StronglySorted (l : list A) :
  StronglySorted (placed le R) l → StronglySorted R (stable_sort le l).
Proof.
  intros Hl. apply fold_insert_StronglySorted; [constructor|constructor|done].
Qed.

End StableSort.

Lemma StronglySorted_all {A} (R : relation A) (l : list A) :
  (∀ x y, R x y) → StronglySorted R l.
Proof.
  intros HR. induction l; constructor; [done|]. by apply Forall_forall.
Qed.

Lemma StronglySorted_impl {A} (R1 R2 : relation A) (l : list A) :
  (∀ x y, R1 x y → R2 x y) → StronglySorted R1 l → StronglySorted R2 l.
Proof.
  intros HR Hs. induction Hs; constructor; [done|].
  eapply Forall_impl; eauto.
Qed.

Lemma StronglySorted_reverse {A} (R : relation A) (l : list A) :
  StronglySorted R l → StronglySorted (flip R) (reverse l).
Proof.
  induction 1 as [|x l Hs IH Hx]; [constructor|].
  rewrite reverse_cons. apply StronglySorted_app_2; [|done|repeat constructor].
  intros x1 x2 H1 H2. apply list_elem_of_singleton in H2 as ->.
  rewrite elem_of_reverse in H1. rewrite Forall_forall in Hx. by apply Hx.
Qed.

Lemma StronglySorted_take {A} (R : relation A) (n : nat) (l : list A) :
  StronglySorted R l → StronglySorted R (take n l).
Proof.
  intros Hs. rewrite <- (take_drop n l) in Hs.
  by apply StronglySorted_app_1_l in Hs.
Qed.

(** A total test sorts: the result is ordered by the test itself. *)
Lemma stable_sort_sorted {A} (le : A → A → bool) (l : list A) :
  (∀ x y, le x y = false → le y x = true) →
  (∀ x y z, le x y = true → le y z = true → le x z = true) →
  StronglySorted (λ x y, le x y = true) (stable_sort le l).
Proof.
  intros Htot Htrans.
  assert (Transitive (λ x y : A, le x y = true)) by (intros x y z; apply Htrans).
  apply (stable_sort_StronglySorted le (λ x y, le x y = true)).
  apply StronglySorted_all. intros x y. unfold placed.
    destruct (le x y) eqn:E; [done|]. by apply Htot.
Qed.

Lemma StronglySorted_lookup {A} (R : relation A) (l : list A) :
  (∀ i j x y, (i < j)%nat → l !! i = Some x → l !! j = Some y → R x y) →
  StronglySorted R l.
Proof.
  induction l as [|a l IH]; intros H; constructor.
  - apply IH. intros i j x y Hij Hi Hj. by apply (H (S i) (S j)); [lia|..].
  - apply Forall_lookup. intros j y Hj. by apply (H 0%nat (S j)); [lia|..].
Qed.

Lemma StronglySorted_lookup_inv {A} (R : relation A) (l : list A) i j x y :
  StronglySorted R l → (i < j)%nat → l !! i = Some x → l !! j = Some y → R x y.
Proof.
  intros Hs. revert i j. induction Hs as [|a l Hs IH Ha]; intros i j Hij Hi Hj; [done|].
  destruct j as [|j]; [lia|]. simpl in Hj. destruct i as [|i]; simpl in Hi.
  - injection Hi as <-. rewrite Forall_lookup in Ha. by eapply Ha.
  - eapply IH; [|done..]. lia.
Qed.

Lemma StronglySorted_with {A} (R : relation A) (P : A → Prop) (l : list A) :
  StronglySorted R l → Forall P l →
  StronglySorted (λ x y, P x ∧ P y ∧ R x y) l.
Proof.
  induction 1 as [|a l Hs IH Ha]; intros HP; [constructor|].
  apply Forall_cons in HP as [Hpa HP]. constructor; [by apply IH|].
  rewrite Forall_forall in *. auto.
Qed.

(** ** [argsort]: ascending keys, ties in index order *)

#[local] Instance lex_lt_trans : Transitive lex_lt.
Proof.
  intros [i x] [j y] [k z]; unfold lex_lt; simpl.
  intros [H1|[H1 H1']] [H2|[H2 H2']].
  - left. lra.
  - left. lra.
  - left. lra.
  - right. split; [lra|lia].
Qed.

Lemma fst_imap_pair {A} (a : list A) : (imap pair a).*1 = seq 0 (length a).
Proof.
  apply list_eq. intros i. rewrite list_lookup_fmap, list_lookup_imap.
  destruct (decide (i < length a)%nat) as [Hi|Hi].
  - rewrite lookup_seq_lt by done. destruct (lookup_lt_is_Some_2 a i Hi) as [x ->]. done.
  - rewrite lookup_seq_ge by lia. rewrite lookup_ge_None_2 by lia. done.
Qed.

Lemma argsort_Permutation (a : list Q) : argsort a ≡ₚ seq 0 (length a).
Proof.
  unfold argsort. rewrite stable_sort_Permutation. by rewrite fst_imap_pair.
Qed.

Lemma argsort_length (a : list Q) : length (argsort a) = length a.
Proof. by rewrite argsort_Permutation, length_seq. Qed.

Lemma argsort_sorted (a : list Q) : StronglySorted (sorts_before a) (argsort a).
Proof.
  unfold argsort.
  set (le := λ u v : nat * Q, Qle_bool u.2 v.2).
  assert (Hs : StronglySorted lex_lt (stable_sort le (imap pair a))).
  { apply stable_sort_StronglySorted; [apply _|].
    apply StronglySorted_lookup. intros i j [i' x] [j' y] Hij Hi Hj.
    rewrite list_lookup_imap in Hi, Hj.
    destruct (a !! i) eqn:Ei; [|done]. destruct (a !! j) eqn:Ej; [|done].
    simpl in Hi, Hj. injection Hi as <- <-. injection Hj as <- <-.
    unfold placed, le, lex_lt; simpl.
    destruct (Qle_bool q q0) eqn:E.
    - apply Qle_bool_iff in E. destruct (Qlt_le_dec q q0); [by left|].
      right. split; [lra|done].
    - apply Qle_bool_false in E. by left. }
  assert (Hp : Forall (λ u, a !! u.1 = Some u.2) (stable_sort le (imap pair a))).
  { rewrite stable_sort_Permutation. apply Forall_lookup. intros i [i' x] Hi.
    rewrite list_lookup_imap in Hi. destruct (a !! i) eqn:Ei; [|done].
    simpl in Hi. by injection Hi as <- <-. }
  eapply StronglySorted_fmap; [|exact (StronglySorted_with _ _ _ Hs Hp)].
  intros [i x] [j y] (Hi & Hj & Hlt); simpl in *. by exists x, y.
Qed.

(** ** Selection order in auto mode *)

Lemma auto_order_sorted (d : list Q) (n : Z) :
  StronglySorted (ranked_before d) (auto_order d n).
Proof.
  unfold auto_order, auto_order_with. apply StronglySorted_take.
  eapply StronglySorted_impl; [|apply StronglySorted_reverse, argsort_sorted].
  intros i j (y & x & Hj & Hi & H). by exists x, y.
Qed.

Lemma auto_order_length (d : list Q) (n : Z) :
  length (auto_order d n) = (Z.to_nat n `min` length d)%nat.
Proof.
  unfold auto_order, auto_order_with. by rewrite length_take, length_reverse, argsort_length.
Qed.

Lemma auto_order_bound (d : list Q) (n : Z) :
  Forall (λ i, (i < length d)%nat) (auto_order d n).
Proof.
  unfold auto_order, auto_order_with. apply Forall_take. rewrite reverse_Permutation, argsort_Permutation.
  apply Forall_seq. intros; lia.
Qed.

(** ** The minima detector *)

Lemma plateau_end_spec (x : list Q) (xi : Q) (i_max fuel s : nat) :
  fuel = (i_max - s)%nat → (s ≤ i_max)%nat →
  let e := plateau_end x xi i_max fuel s in
  (s ≤ e ≤ i_max)%nat ∧
  (∀ k, (s ≤ k < e)%nat → sample x k == xi) ∧
  ((e < i_max)%nat → ¬ sample x e == xi).
Proof.
  revert s. induction fuel as [|fuel IH]; intros s Hf Hs; simpl.
  - repeat split; intros; lia.
  - destruct (s <? i_max)%nat eqn:E1; simpl.
    + destruct (Qeq_bool (sample x s) xi) eqn:E2.
      * destruct (IH (S s)) as (H1 & H2 & H3); [lia|lia|].
        split; [lia|]. split; [|done].
        intros k Hk. destruct (decide (k = s)) as [->|Hne].
        -- by apply Qeq_bool_iff.
        -- apply H2. lia.
      * split; [lia|]. split; [intros; lia|].
        intros _ Heq. apply Qeq_bool_iff in Heq. congruence.
    + apply Nat.ltb_ge in E1. repeat split; intros; lia.
Qed.

Lemma local_maxima_loop_sound (x : list Q) (i_max fuel i : nat) :
  (1 ≤ i)%nat →
  Forall (λ m, plateau_max x i_max m ∧ (i ≤ m.1.2)%nat) (local_maxima_loop x i_max fuel i) ∧
  StronglySorted (λ a b, (a.2 < b.1.2)%nat) (local_maxima_loop x i_max fuel i).
Proof.
  revert i. induction fuel as [|fuel IH]; intros i Hi; simpl; [by split; constructor|].
  destruct (i <? i_max)%nat eqn:E1; [|by split; constructor].
  apply Nat.ltb_lt in E1.
  assert (Hstep : Forall (λ m, plateau_max x i_max m ∧ (i ≤ m.1.2)%nat)
                    (local_maxima_loop x i_max fuel (i + 1)) ∧
                  StronglySorted (λ a b, (a.2 < b.1.2)%nat)
                    (local_maxima_loop x i_max fuel (i + 1))).
  { destruct (IH (i + 1)%nat) as [H1 H2]; [lia|]. split; [|done].
    eapply Forall_impl; [exact H1|]. intros [[m l] r] [? ?]; simpl in *. split; [done|lia]. }
  destruct (Qltb (sample x (i - 1)) (sample x i)) eqn:E2; [|done].
  apply Qltb_lt in E2.
  destruct (plateau_end_spec x (sample x i) i_max (i_max - (i + 1)) (i + 1))
    as (He & Hflat & _); [done|lia|].
  set (e := plateau_end x (sample x i) i_max (i_max - (i + 1)) (i + 1)) in *.
  destruct (Qltb (sample x e) (sample x i)) eqn:E3; [|done].
  apply Qltb_lt in E3.
  destruct (IH (e + 1)%nat) as [H1 H2]; [lia|].
  split.
  - constructor.
    + simpl. split; [|lia]. repeat split; try lia; try done.
      * intros k Hk. destruct (decide (k = i)) as [->|Hne]; [reflexivity|].
        apply Hflat. lia.
      * by replace (e - 1 + 1)%nat with e by lia.
    + eapply Forall_impl; [exact H1|]. intros [[m l] r] [? ?]; simpl in *. split; [done|lia].
  - constructor; [done|].
    eapply Forall_impl; [exact H1|]. intros [[m l] r] [? ?]; simpl in *. lia.
Qed.

(** The fuel of the main loop is never what ends it. *)
Lemma local_maxima_loop_fuel (x : list Q) (i_max f1 f2 i : nat) :
  (i_max - i ≤ f1)%nat → (i_max - i ≤ f2)%nat →
  local_maxima_loop x i_max f1 i = local_maxima_loop x i_max f2 i.
Proof.
  revert f2 i. induction f1 as [|f1 IH]; intros f2 i H1 H2.
  - destruct f2; simpl; [done|].
    destruct (i <? i_max)%nat eqn:E; [|done]. apply Nat.ltb_lt in E. lia.
  - destruct f2 as [|f2]; simpl.
    + destruct (i <? i_max)%nat eqn:E; [|done]. apply Nat.ltb_lt in E. lia.
    + destruct (i <? i_max)%nat eqn:E; [|done]. apply Nat.ltb_lt in E.
      destruct (plateau_end_spec x (sample x i) i_max (i_max - (i + 1)) (i + 1))
        as (He & _ & _); [done|lia|].
      rewrite (IH f2 (i + 1)%nat) by lia.
      destruct (Qltb (sample x (i - 1)) (sample x i)); [|done].
      destruct (Qltb _ (sample x i)); [|done].
      f_equal. apply IH; lia.
Qed.

Lemma local_maxima_1d_fuel (x : list Q) (fuel : nat) :
  (length x ≤ fuel)%nat →
  local_maxima_loop x (length x - 1) fuel 1 = _local_maxima_1d x.
Proof.
  intros Hf. unfold _local_maxima_1d. apply local_maxima_loop_fuel; lia.
Qed.

Lemma local_maxima_1d_sound (x : list Q) :
  Forall (plateau_max x (length x - 1)) (_local_maxima_1d x) ∧
  StronglySorted (λ a b, (a.2 < b.1.2)%nat) (_local_maxima_1d x).
Proof.
  destruct (local_maxima_loop_sound x (length x - 1) (length x) 1) as [H1 H2]; [lia|].
  split; [|done]. eapply Forall_impl; [exact H1|]. by intros ? [? _].
Qed.

Lemma div2_between (l r : nat) : (l ≤ r → l ≤ (l + r) / 2 ≤ r)%nat.
Proof.
  intros H. split.
  - apply Nat.div_le_lower_bound; lia.
  - apply Nat.Div0.div_le_upper_bound; lia.
Qed.

Lemma plateau_max_local_maximum (x : list Q) (m : nat * nat * nat) :
  plateau_max x (length x - 1) m → local_maximum x m.1.1.
Proof.
  destruct m as [[mid l] r]. cbn [fst plateau_max].
  intros (Hl & Hlr & Hr & -> & Hlt & Hflat & Hrt).
  pose proof (div2_between l r Hlr) as Hm.
  assert (Hmid : sample x ((l + r) / 2) == sample x l) by (apply Hflat; lia).
  exists l, r. split; [lia|]. split; [lia|]. split; [lia|]. split; [done|].
  split; [|split].
  - intros k Hk. rewrite Hmid. by apply Hflat.
  - by rewrite Hmid.
  - by rewrite Hmid.
Qed.

Lemma midpoints_sorted (x : list Q) :
  StronglySorted lt ((λ m, m.1.1) <$> _local_maxima_1d x).
Proof.
  destruct (local_maxima_1d_sound x) as [H1 H2].
  eapply StronglySorted_fmap;
    [|exact (StronglySorted_with _ _ _ H2 H1)].
  intros [[m l] r] [[m' l'] r'] (Ha & Hb & Hlt); cbn [fst snd plateau_max] in *.
  destruct Ha as (? & Ha & _ & -> & _). destruct Hb as (? & Hb & _ & -> & _).
  pose proof (div2_between l r Ha). pose proof (div2_between l' r' Hb). lia.
Qed.

Lemma StronglySorted_filter {A} (R : relation A) (P : A → Prop) `{!∀ a, Decision (P a)}
    (l : list A) :
  StronglySorted R l → StronglySorted R (filter P l).
Proof.
  induction 1 as [|a l Hs IH Ha]; [constructor|].
  rewrite filter_cons. destruct (decide (P a)); [|done].
  constructor; [done|]. apply Forall_forall. intros b Hb.
  apply list_elem_of_filter in Hb as [_ Hb]. rewrite Forall_forall in Ha. by apply Ha.
Qed.

Lemma find_peaks_sorted (x : list Q) (prominence : Q) :
  StronglySorted lt (find_peaks x prominence).
Proof. apply StronglySorted_filter, midpoints_sorted. Qed.

Lemma find_peaks_sound (x : list Q) (prominence : Q) :
  Forall (λ p, local_maximum x p ∧ prominence <= peak_prominence x p)
         (find_peaks x prominence).
Proof.
  apply Forall_forall. intros p Hp. unfold find_peaks in Hp.
  apply list_elem_of_filter in Hp as [Hpr Hp].
  apply Is_true_true, Qle_bool_iff in Hpr. split; [|done].
  apply list_elem_of_fmap in Hp as (m & -> & Hm).
  apply plateau_max_local_maximum.
  destruct (local_maxima_1d_sound x) as [H1 _].
  rewrite Forall_forall in H1. by apply H1.
Qed.

Lemma local_maximum_bound (x : list Q) (p : nat) :
  local_maximum x p → (p < length x)%nat.
Proof. intros (l & r & ? & ? & ? & _). lia. Qed.

Lemma find_peaks_bound (x : list Q) (prominence : Q) :
  Forall (λ p, (p < length x)%nat) (find_peaks x prominence).
Proof.
  eapply Forall_impl; [apply find_peaks_sound|].
  intros p [Hp _]. by apply local_maximum_bound.
Qed.


(** *** Every local maximum is found *)

Lemma plateau_end_exact (x : list Q) (xi : Q) (i_max s e : nat) :
  (s ≤ e ≤ i_max)%nat →
  (∀ k, (s ≤ k < e)%nat → sample x k == xi) →
  ((e < i_max)%nat → ¬ sample x e == xi) →
  plateau_end x xi i_max (i_max - s) s = e.
Proof.
  intros He Hflat Hstop.
  destruct (plateau_end_spec x xi i_max (i_max - s) s) as (He' & Hflat' & Hstop'); [done|lia|].
  set (e' := plateau_end x xi i_max (i_max - s) s) in *.
  destruct (Nat.lt_trichotomy e' e) as [Hlt|[->|Hgt]]; [|done|].
  - destruct Hstop'; [lia|]. apply Hflat. lia.
  - destruct Hstop; [lia|]. apply Hflat'. lia.
Qed.

Lemma local_maxima_loop_complete (x : list Q) (i_max fuel i : nat) (m : nat * nat * nat) :
  plateau_max x i_max m → (1 ≤ i ≤ m.1.2)%nat → (i_max - i ≤ fuel)%nat →
  m ∈ local_maxima_loop x i_max fuel i.
Proof.
  destruct m as [[mid l] r]. cbn [fst snd plateau_max].
  intros (Hl & Hlr & Hr & -> & Hlt & Hflat & Hrt).
  revert i. induction fuel as [|fuel IH]; intros i Hi Hfuel; [lia|].
  cbn [local_maxima_loop].
  replace (i <? i_max)%nat with true by (symmetry; apply Nat.ltb_lt; lia).
  destruct (plateau_end_spec x (sample x i) i_max (i_max - (i + 1)) (i + 1))
    as (He & Hrun & _); [done|lia|].
  destruct (decide (i = l)) as [->|Hne].
  - replace (Qltb (sample x (l - 1)) (sample x l)) with true
      by (symmetry; by apply Qltb_lt).
    rewrite (plateau_end_exact x (sample x l) i_max (l + 1) (r + 1)).
    + replace (Qltb (sample x (r + 1)) (sample x l)) with true
        by (symmetry; by apply Qltb_lt).
      cbv zeta. replace (r + 1 - 1)%nat with r by lia. by left.
    + lia.
    + intros k Hk. apply Hflat. lia.
    + intros _ Heq. rewrite Heq in Hrt. by apply Qlt_irrefl in Hrt.
  - assert (Hnext : (((l + r) / 2)%nat, l, r) ∈ local_maxima_loop x i_max fuel (i + 1))
      by (apply IH; lia).
    destruct (Qltb (sample x (i - 1)) (sample x i)); [|done].
    set (e := plateau_end x (sample x i) i_max (i_max - (i + 1)) (i + 1)) in *.
    destruct (Qltb (sample x e) (sample x i)) eqn:E; [|done].
    apply Qltb_lt in E. cbv zeta. right. apply IH; [|lia].
    assert (Hflat' : ∀ k, (i ≤ k < e)%nat → sample x k == sample x i).
    { intros k Hk. destruct (decide (k = i)) as [->|]; [reflexivity|]. apply Hrun. lia. }
    destruct (decide (e + 1 ≤ l)%nat) as [|Hover]; [lia|]. exfalso.
    assert (Hprev : sample x (l - 1) == sample x i) by (apply Hflat'; lia).
    destruct (decide (l = e)) as [->|].
    + lra.
    + assert (Hl' : sample x l == sample x i) by (apply Hflat'; lia). lra.
Qed.

Lemma find_peaks_complete (x : list Q) (prominence : Q) (p : nat) :
  local_maximum x p → prominence <= peak_prominence x p →
  p ∈ find_peaks x prominence.
Proof.
  intros (l & r & Hl & Hr & Hlen & Hmid & Hflat & Hlt & Hrt) Hprom.
  unfold find_peaks. apply list_elem_of_filter. split.
  { by apply Is_true_true, Qle_bool_iff. }
  apply list_elem_of_fmap. exists (p, l, r). split; [done|].
  apply local_maxima_loop_complete; cbn [fst snd plateau_max]; [|lia|lia].
  assert (Hpl : sample x l == sample x p) by (apply Hflat; lia).
  split; [lia|]. split; [lia|]. split; [lia|]. split; [done|].
  split; [by rewrite Hpl|]. split; [|by rewrite Hpl].
  intros k Hk. rewrite Hpl. by apply Hflat.
Qed.

(** *** The prominence passes compute the topographic prominence *)

Lemma left_min_loop_unfold (x : list Q) (xp : Q) (i : nat) (lm : Q) :
  left_min_loop x xp i lm =
  if Qle_bool (sample x i) xp then
    let lm' := if Qltb (sample x i) lm then sample x i else lm in
    match i with
    | O => lm'
    | S i' => left_min_loop x xp i' lm'
    end
  else lm.
Proof. by destruct i. Qed.

Lemma left_min_loop_spec (x : list Q) (p i : nat) (lm : Q) :
  (i ≤ p)%nat → lm <= sample x p →
  (∀ k, (i < k ≤ p)%nat → sample x k <= sample x p ∧ lm <= sample x k) →
  (lm == sample x p ∨ ∃ k, (i < k ≤ p)%nat ∧ sample x k == lm) →
  let res := left_min_loop x (sample x p) i lm in
  ∃ a, (a ≤ i + 1)%nat ∧
       (a = 0%nat ∨ sample x p < sample x (a - 1)) ∧
       (∀ k, (a ≤ k ≤ p)%nat → sample x k <= sample x p ∧ res <= sample x k) ∧
       (res == sample x p ∨ ∃ k, (a ≤ k ≤ p)%nat ∧ sample x k == res).
Proof.
  revert lm. induction i as [|i IH]; intros lm Hi Hlm Hall Hex;
    rewrite left_min_loop_unfold; cbv zeta.
  - destruct (Qle_bool (sample x 0) (sample x p)) eqn:E.
    + apply Qle_bool_iff in E. exists 0%nat. split; [lia|]. split; [by left|].
      destruct (Qltb (sample x 0) lm) eqn:E2.
      * apply Qltb_lt in E2. split.
        -- intros k Hk. destruct (decide (k = 0%nat)) as [->|Hne]; [split; lra|].
           destruct (Hall k) as [? ?]; [lia|]. split; lra.
        -- right. exists 0%nat. split; [lia|reflexivity].
      * apply Qltb_ge in E2. split.
        -- intros k Hk. destruct (decide (k = 0%nat)) as [->|Hne]; [split; lra|].
           apply Hall. lia.
        -- destruct Hex as [?|(k & ? & ?)]; [by left|]. right. exists k. split; [lia|done].
    + apply Qle_bool_false in E. exists 1%nat. split; [lia|]. split; [by right|].
      split; [intros k Hk; apply Hall; lia|].
      destruct Hex as [?|(k & ? & ?)]; [by left|]. right. exists k. split; [lia|done].
  - destruct (Qle_bool (sample x (S i)) (sample x p)) eqn:E.
    + apply Qle_bool_iff in E.
      set (lm' := if Qltb (sample x (S i)) lm then sample x (S i) else lm).
      assert (Hlm' : lm' <= lm ∧ lm' <= sample x (S i) ∧
                     (lm' == lm ∨ lm' == sample x (S i))).
      { unfold lm'. destruct (Qltb (sample x (S i)) lm) eqn:E2.
        - apply Qltb_lt in E2. repeat split; [lra|lra|by right].
        - apply Qltb_ge in E2. repeat split; [lra|lra|by left]. }
      destruct Hlm' as (H1 & H2 & H3).
      destruct (IH lm') as (a & Ha & Hedge & Hrun & Hmin).
      * lia.
      * lra.
      * intros k Hk. destruct (decide (k = S i)) as [->|Hne]; [split; lra|].
        destruct (Hall k) as [? ?]; [lia|]. split; lra.
      * destruct H3 as [H3|H3].
        -- destruct Hex as [?|(k & ? & ?)]; [left; lra|].
           right. exists k. split; [lia|lra].
        -- right. exists (S i). split; [lia|lra].
      * exists a. split; [lia|]. done.
    + apply Qle_bool_false in E. exists (S (S i)). split; [lia|].
      split; [right; by replace (S (S i) - 1)%nat with (S i) by lia|].
      split; [intros k Hk; apply Hall; lia|].
      destruct Hex as [?|(k & ? & ?)]; [by left|]. right. exists k. split; [lia|done].
Qed.

Lemma right_min_loop_spec (x : list Q) (p i_max fuel i : nat) (rm : Q) :
  fuel = (i_max + 1 - i)%nat → (p ≤ i ≤ i_max + 1)%nat → rm <= sample x p →
  (∀ k, (p ≤ k < i)%nat → sample x k <= sample x p ∧ rm <= sample x k) →
  (rm == sample x p ∨ ∃ k, (p ≤ k < i)%nat ∧ sample x k == rm) →
  let res := right_min_loop x (sample x p) i_max fuel i rm in
  ∃ b, (i ≤ b ≤ i_max + 1)%nat ∧
       (b = (i_max + 1)%nat ∨ sample x p < sample x b) ∧
       (∀ k, (p ≤ k < b)%nat → sample x k <= sample x p ∧ res <= sample x k) ∧
       (res == sample x p ∨ ∃ k, (p ≤ k < b)%nat ∧ sample x k == res).
Proof.
  revert i rm. induction fuel as [|fuel IH]; intros i rm Hf Hi Hrm Hall Hex; simpl.
  - exists i. split; [lia|]. split; [left; lia|]. done.
  - destruct (i <=? i_max)%nat eqn:E0; simpl; [|apply Nat.leb_gt in E0; lia].
    apply Nat.leb_le in E0.
    destruct (Qle_bool (sample x i) (sample x p)) eqn:E.
    + apply Qle_bool_iff in E.
      set (rm' := if Qltb (sample x i) rm then sample x i else rm).
      assert (Hrm' : rm' <= rm ∧ rm' <= sample x i ∧
                     (rm' == rm ∨ rm' == sample x i)).
      { unfold rm'. destruct (Qltb (sample x i) rm) eqn:E2.
        - apply Qltb_lt in E2. repeat split; [lra|lra|by right].
        - apply Qltb_ge in E2. repeat split; [lra|lra|by left]. }
      destruct Hrm' as (H1 & H2 & H3).
      destruct (IH (S i) rm') as (b & Hb & Hedge & Hrun & Hmin).
      * lia.
      * lia.
      * lra.
      * intros k Hk. destruct (decide (k = i)) as [->|Hne]; [split; lra|].
        destruct (Hall k) as [? ?]; [lia|]. split; lra.
      * destruct H3 as [H3|H3].
        -- destruct Hex as [?|(k & ? & ?)]; [left; lra|].
           right. exists k. split; [lia|lra].
        -- right. exists i. split; [lia|lra].
      * exists b. split; [lia|]. done.
    + apply Qle_bool_false in E. exists i. split; [lia|]. split; [by right|]. done.
Qed.

Lemma py_max_cases (a b : Q) :
  (a <= b ∧ py_max a b == b) ∨ (b <= a ∧ py_max a b == a).
Proof.
  unfold py_max. destruct (Qltb a b) eqn:E.
  - apply Qltb_lt in E. left. split; [lra|reflexivity].
  - apply Qltb_ge in E. right. split; [lra|reflexivity].
Qed.

Lemma peak_prominence_spec (x : list Q) (p : nat) :
  (p < length x)%nat → topographic_prominence x p (peak_prominence x p).
Proof.
  intros Hp. unfold peak_prominence. cbv zeta.
  destruct (left_min_loop_spec x p p (sample x p)) as (a & Ha & Hae & Harun & Hamin);
    [lia|lra|intros; lia|by left|].
  destruct (right_min_loop_spec x p (length x - 1) (length x - 1 + 1 - p) p (sample x p))
    as (b & Hb & Hbe & Hbrun & Hbmin); [done|lia|lra|intros; lia|by left|].
  set (lm := left_min_loop x (sample x p) p (sample x p)) in *.
  set (rm := right_min_loop x (sample x p) (length x - 1) (length x - 1 + 1 - p) p (sample x p)) in *.
  assert (Ha' : (a ≤ p)%nat).
  { destruct Hae as [->|Hae]; [lia|].
    destruct (decide (a = p + 1)%nat) as [->|]; [|lia].
    replace (p + 1 - 1)%nat with p in Hae by lia. lra. }
  assert (Hb' : (p < b)%nat).
  { destruct Hbe as [->|Hbe]; [lia|].
    destruct (decide (b = p)) as [->|]; [lra|lia]. }
  exists a, (b - 1)%nat, lm, rm.
  split; [lia|]. split; [lia|]. split.
  { intros k Hk. destruct (decide (k ≤ p)%nat).
    - apply Harun. lia.
    - apply Hbrun. lia. }
  split; [done|]. split.
  { destruct Hbe as [->|Hbe]; [left; lia|right].
    by replace (b - 1 + 1)%nat with b by lia. }
  split.
  { split; [intros k Hk; by apply Harun|].
    destruct Hamin as [Heq|(k & ? & ?)]; [|by exists k].
    exists p. split; [lia|]. by symmetry. }
  split.
  { split; [intros k Hk; apply Hbrun; lia|].
    destruct Hbmin as [Heq|(k & ? & ?)]; [|exists k; split; [lia|done]].
    exists p. split; [lia|]. by symmetry. }
  destruct (py_max_cases lm rm) as [[? Hm]|[? Hm]]; [left|right];
    (split; [done|]); rewrite Hm; reflexivity.
Qed.

(** ** Array access *)

Lemma lookup_sample (a : list Q) (i : nat) :
  (i < length a)%nat → a !! i = Some (sample a i).
Proof.
  intros Hi. unfold sample. rewrite nth_lookup.
  by destruct (lookup_lt_is_Some_2 a i Hi) as [x ->].
Qed.

Lemma sample_inverted (tr : list Q) (k : nat) :
  (k < length tr)%nat → sample ((λ t, 1 - t) <$> tr) k = 1 - sample tr k.
Proof.
  intros Hk. unfold sample. rewrite !nth_lookup, list_lookup_fmap.
  by destruct (lookup_lt_is_Some_2 tr k Hk) as [x ->].
Qed.

Lemma take_idx_Some {A} (a : list A) (idx : list nat) (d : A) :
  Forall (λ i, (i < length a)%nat) idx →
  take_idx a idx = Some ((λ i, nth i a d) <$> idx).
Proof.
  unfold take_idx. induction 1 as [|i idx Hi _ IH]; [done|].
  rewrite fmap_cons. cbn [mapM]. rewrite IH.
  destruct (lookup_lt_is_Some_2 a i Hi) as [x Hx].
  rewrite Hx. simpl. by rewrite (nth_lookup_Some _ _ d x Hx).
Qed.

Lemma mapM_total {A B} (f : A → option B) (g : A → B) (l : list A) :
  Forall (λ x, f x = Some (g x)) l → mapM f l = Some (g <$> l).
Proof.
  induction 1 as [|x l Hx _ IH]; [done|].
  cbn [mapM]. by rewrite Hx, IH.
Qed.

(** ** The auto branch *)

Section AutoBranch.
Context (wn tr : list Q) (peak_idx : list nat) (n : Z).
Hypothesis same_length : length wn = length tr.
Hypothesis in_range : Forall (λ p, (p < length tr)%nat) peak_idx.
Hypothesis increasing : StronglySorted lt peak_idx.

Lemma auto_selected_eq : auto_selected tr peak_idx n = Some (selected_at tr peak_idx n).
Proof using in_range.
  unfold auto_selected, auto_selected_with. rewrite (take_idx_Some tr peak_idx 0 in_range). simpl.
  rewrite <- list_fmap_compose.
  apply take_idx_Some.
  eapply Forall_impl; [apply auto_order_bound|]. intros j Hj.
  unfold depths_at in Hj. by rewrite length_fmap in Hj.
Qed.

Lemma selected_length :
  length (selected_at tr peak_idx n) = (Z.to_nat n `min` length peak_idx)%nat.
Proof using Type.
  unfold selected_at, depths_at. by rewrite length_fmap, auto_order_length, length_fmap.
Qed.

Lemma selected_detected : Forall (λ p, p ∈ peak_idx) (selected_at tr peak_idx n).
Proof using Type.
  unfold selected_at. apply Forall_fmap.
  eapply Forall_impl; [apply auto_order_bound|]. intros j Hj. simpl.
  unfold depths_at in Hj. rewrite length_fmap in Hj.
  destruct (lookup_lt_is_Some_2 peak_idx j Hj) as [p Hp].
  rewrite (nth_lookup_Some _ _ 0%nat p Hp). by eapply list_elem_of_lookup_2.
Qed.

Lemma selected_sorted : StronglySorted (deeper_or_later tr) (selected_at tr peak_idx n).
Proof using increasing.
  unfold selected_at. eapply StronglySorted_fmap; [|apply auto_order_sorted].
  intros i j (x & y & Hi & Hj & Hlt). unfold depths_at in Hi, Hj.
  rewrite list_lookup_fmap in Hi, Hj.
  destruct (peak_idx !! i) as [p|] eqn:Ep; [|done].
  destruct (peak_idx !! j) as [q|] eqn:Eq; [|done].
  simpl in Hi, Hj. injection Hi as <-. injection Hj as <-.
  rewrite (nth_lookup_Some _ _ 0%nat p Ep), (nth_lookup_Some _ _ 0%nat q Eq).
  destruct Hlt as [Hlt|[Heq Hlt]]; [by left|right].
  split; [done|]. by eapply (StronglySorted_lookup_inv lt peak_idx j i).
Qed.

Lemma annotate_auto_eq (name : string) :
  annotate_auto name wn tr peak_idx n =
  Some (if (0 <? length peak_idx)%nat && (0 <? n)%Z
        then auto_row_at name wn tr <$> (selected_at tr peak_idx n) else []).
Proof using same_length in_range.
  unfold annotate_auto.
  destruct ((0 <? length peak_idx)%nat && (0 <? n)%Z); [|done].
  rewrite auto_selected_eq. simpl.
  apply mapM_total. eapply Forall_impl; [apply selected_detected|].
  intros p Hp. rewrite Forall_forall in in_range. specialize (in_range p Hp).
  unfold auto_row. rewrite (lookup_sample wn), (lookup_sample tr) by lia. done.
Qed.

End AutoBranch.

(** ** [argmin] and the guess branch *)

Lemma argmin_from_spec (rest : list Q) (bi : nat) (b : Q) (i : nat) :
  (bi < i)%nat →
  let k := argmin_from bi b i rest in
  (k = bi ∧ Forall (λ w, b <= w) rest) ∨
  (∃ v, (i ≤ k)%nat ∧ rest !! (k - i)%nat = Some v ∧ v < b ∧
        Forall (λ w, v <= w) rest ∧
        ∀ j w, (j < k - i)%nat → rest !! j = Some w → v < w).
Proof.
  revert bi b i. induction rest as [|y rest IH]; intros bi b i Hbi; simpl.
  - left. by split.
  - destruct (Qltb y b) eqn:E.
    + apply Qltb_lt in E. right.
      destruct (IH i y (S i)) as [[Hk Hall]|(v & Hk & Hv & Hlt & Hall & Hfirst)]; [lia|..].
      * exists y. rewrite Hk. replace (i - i)%nat with 0%nat by lia.
        split; [lia|]. split; [done|]. split; [done|].
        split; [constructor; [lra|done]|]. intros; lia.
      * exists v. split; [lia|].
        replace (argmin_from i y (S i) rest - i)%nat
          with (S (argmin_from i y (S i) rest - S i)) by lia.
        split; [done|]. split; [lra|].
        split; [constructor; [lra|done]|].
        intros [|j] w Hj Hw; simpl in Hw.
        -- injection Hw as <-. done.
        -- apply (Hfirst j); [lia|done].
    + apply Qltb_ge in E.
      destruct (IH bi b (S i)) as [[Hk Hall]|(v & Hk & Hv & Hlt & Hall & Hfirst)]; [lia|..].
      * left. split; [done|]. by constructor.
      * right. exists v. split; [lia|].
        replace (argmin_from bi b (S i) rest - i)%nat
          with (S (argmin_from bi b (S i) rest - S i)) by lia.
        split; [done|]. split; [done|].
        split; [constructor; [lra|done]|].
        intros [|j] w Hj Hw; simpl in Hw.
        -- injection Hw as <-. lra.
        -- apply (Hfirst j); [lia|done].
Qed.

(** [argmin] returns the first position of a smallest element. *)
Lemma argmin_spec (a : list Q) :
  a ≠ [] →
  ∃ k v, argmin a = Some k ∧ a !! k = Some v ∧
         Forall (λ w, v <= w) a ∧
         ∀ j w, (j < k)%nat → a !! j = Some w → v < w.
Proof.
  destruct a as [|y rest]; [done|]. intros _. simpl.
  destruct (argmin_from_spec rest 0 y 1) as [[Hk Hall]|(v & Hk & Hv & Hlt & Hall & Hfirst)];
    [lia|..].
  - exists 0%nat, y. rewrite Hk. split; [done|]. split; [done|].
    split; [constructor; [lra|done]|]. intros; lia.
  - exists (argmin_from 0 y 1 rest), v. split; [done|].
    destruct (argmin_from 0 y 1 rest) as [|k] eqn:Ek; [lia|].
    simpl. replace (S k - 1)%nat with k in * by lia.
    split; [done|]. split; [constructor; [lra|done]|].
    intros [|j] w Hj Hw; simpl in Hw.
    + injection Hw as <-. done.
    + apply (Hfirst j); [lia|done].
Qed.

Lemma annotate_guess_none (name : string) (wn tr : list Q) (g : Q) :
  annotate_guess name wn tr [] g = Some [].
Proof. done. Qed.

Lemma annotate_guess_eq (name : string) (wn tr : list Q) (peak_idx : list nat) (g : Q) :
  length wn = length tr →
  Forall (λ p, (p < length tr)%nat) peak_idx →
  peak_idx ≠ [] →
  ∃ p, nearest_minimum wn peak_idx g p ∧
       annotate_guess name wn tr peak_idx g = Some [guess_row_at name wn tr g p].
Proof.
  intros Hlen Hrange Hne. unfold annotate_guess.
  destruct peak_idx as [|p0 rest] eqn:Epk; [done|]. rewrite <- Epk in *.
  replace (length peak_idx =? 0)%nat with false by (by rewrite Epk).
  assert (Hrange' : Forall (λ p, (p < length wn)%nat) peak_idx) by (by rewrite Hlen).
  rewrite (take_idx_Some wn peak_idx 0 Hrange'). simpl.
  unfold _nearest_index.
  set (dist := (λ xi, Qabs (xi - g)) <$> ((λ i, nth i wn 0) <$> peak_idx)).
  destruct (argmin_spec dist) as (k & v & -> & Hk & Hmin & _).
  { unfold dist. rewrite Epk. done. }
  simpl. unfold dist in Hk. rewrite !list_lookup_fmap in Hk.
  destruct (peak_idx !! k) as [p|] eqn:Ep; [|done].
  assert (Hv : Qabs (sample wn p - g) = v) by (by apply (inj Some)).
  clear Hk.
  assert (Hp : p ∈ peak_idx) by (by eapply list_elem_of_lookup_2).
  rewrite Forall_forall in Hrange. pose proof (Hrange p Hp) as Hpr.
  change (Some p ≫= ?f) with (f p). cbv beta.
  rewrite (lookup_sample wn), (lookup_sample tr) by lia.
  exists p. split; [|done]. split; [done|].
  intros q Hq. apply list_elem_of_lookup_1 in Hq as [j Hj].
  rewrite Forall_lookup in Hmin. rewrite Hv.
  apply (Hmin j). unfold dist. rewrite !list_lookup_fmap, Hj. done.
Qed.

Lemma mapM_concat_singletons {A B} (f : A → option (list B)) (P : A → B → Prop) (l : list A) :
  (∀ x, x ∈ l → ∃ y, P x y ∧ f x = Some [y]) →
  ∃ ys, @concat _ <$> mapM f l = Some ys ∧ Forall2 P l ys.
Proof.
  induction l as [|x l IH]; intros H.
  - exists []. by split.
  - destruct (H x) as (y & Hy & Hfx); [by left|].
    destruct IH as (ys & Hys & Hall); [intros; apply H; by right|].
    exists (y :: ys). split; [|by constructor].
    cbn [mapM]. rewrite Hfx. simpl.
    destruct (mapM f l) as [k|]; [|done]. simpl in *. by injection Hys as ->.
Qed.

Lemma mapM_concat_empties {A B} (f : A → option (list B)) (l : list A) :
  (∀ x, x ∈ l → f x = Some []) → @concat B <$> mapM f l = Some [].
Proof.
  induction l as [|x l IH]; intros H; [done|].
  cbn [mapM]. rewrite (H x) by (by left). simpl.
  specialize (IH (λ y Hy, H y (list_elem_of_further _ _ _ Hy))).
  destruct (mapM f l) as [k|]; [|done]. simpl in *. by injection IH as ->.
Qed.

(** ** One curve *)

Lemma find_minima_bound (wn tr : list Q) (tau : Q) :
  Forall (λ p, (p < length tr)%nat) (_find_minima wn tr tau).
Proof.
  unfold _find_minima. eapply Forall_impl; [apply find_peaks_bound|].
  intros p Hp. by rewrite length_fmap in Hp.
Qed.

Lemma find_minima_sorted (wn tr : list Q) (tau : Q) :
  StronglySorted lt (_find_minima wn tr tau).
Proof. apply find_peaks_sorted. Qed.

Lemma curve_columns_length (df : Curve) :
  length (wavenumber df) = length (transmittance df).
Proof. unfold wavenumber, transmittance. by rewrite !length_fmap. Qed.

Lemma detected_before_lt (peak_idx : list nat) (q p : nat) :
  StronglySorted lt peak_idx → q ∈ peak_idx → p ∈ peak_idx → (q < p)%nat →
  detected_before peak_idx q p.
Proof.
  intros Hs Hq Hp Hlt.
  apply list_elem_of_lookup_1 in Hq as [i Hi].
  apply list_elem_of_lookup_1 in Hp as [j Hj].
  exists i, j. split; [|done].
  destruct (decide (i < j)%nat) as [|Hge]; [done|].
  destruct (decide (i = j)) as [->|Hne]; [rewrite Hi in Hj; injection Hj; lia|].
  pose proof (StronglySorted_lookup_inv lt peak_idx j i p q Hs ltac:(lia) Hj Hi). lia.
Qed.

Lemma monotonic_no_maximum (tr : list Q) (p : nat) :
  monotonic tr → ¬ local_maximum ((λ t, 1 - t) <$> tr) p.
Proof.
  intros Hmono (l & r & Hl & Hr & Hlen & _ & _ & Hleft & Hright).
  rewrite length_fmap in Hlen.
  rewrite !sample_inverted in Hleft, Hright by lia.
  assert (Hord : ∀ i j, (i < j < length tr)%nat →
            tr !! i = Some (sample tr i) ∧ tr !! j = Some (sample tr j)).
  { intros i j Hij. split; apply lookup_sample; lia. }
  destruct Hmono as [Hup|Hdown].
  - destruct (Hord (l - 1)%nat p) as [Hi Hj]; [lia|].
    pose proof (StronglySorted_lookup_inv Qle tr (l - 1) p _ _ Hup ltac:(lia) Hi Hj). lra.
  - destruct (Hord p (r + 1)%nat) as [Hi Hj]; [lia|].
    pose proof (StronglySorted_lookup_inv (flip Qle) tr p (r + 1) _ _ Hdown ltac:(lia) Hi Hj) as H.
    unfold flip in H. lra.
Qed.

(** C9: the minima detector returns strictly increasing sample indices;
    each is a local maximum of the inverted signal [1 - transmittance]
    whose topographic prominence is at least the threshold; on a monotonic
    or flat curve it returns nothing; and the empty result is an ordinary
    value on which both annotation branches produce no row and no error. *)
Theorem find_minima_increasing_prominent (wn tr : list Q) (tau : Q) :
  let inverted := (λ t, 1 - t) <$> tr in
  let peaks := _find_minima wn tr tau in
  StronglySorted lt peaks ∧
  Forall (λ p, local_maximum inverted p ∧
               ∃ v, topographic_prominence inverted p v ∧ tau <= v) peaks ∧
  (monotonic tr → peaks = []) ∧
  (∀ name g n, annotate_guess name wn tr [] g = Some [] ∧
               annotate_auto name wn tr [] n = Some []).
Proof.
  cbv zeta. split; [apply find_minima_sorted|].
  assert (Hsound := find_peaks_sound ((λ t, 1 - t) <$> tr) tau).
  fold (_find_minima wn tr tau) in Hsound.
  split; [|split].
  - eapply Forall_impl; [exact Hsound|]. intros p [Hmax Hprom]. split; [done|].
    exists (peak_prominence ((λ t, 1 - t) <$> tr) p). split; [|done].
    apply peak_prominence_spec. by apply local_maximum_bound.
  - intros Hmono. destruct (_find_minima wn tr tau) as [|p peaks]; [done|].
    apply Forall_cons in Hsound as [[Hmax _] _].
    by destruct (monotonic_no_maximum tr p).
  - done.
Qed.

(** A falling curve with a flat stretch: nothing is detected. *)
Lemma find_minima_on_falling_curve :
  monotonic [0.9; 0.8; 0.8; 0.5] ∧
  _find_minima [4000; 3500; 3000; 2500] [0.9; 0.8; 0.8; 0.5] 0.001 = [].
Proof.
  assert (Hm : monotonic [0.9; 0.8; 0.8; 0.5]).
  { right. repeat constructor; unfold flip, Qle; simpl; lia. }
  split; [exact Hm|].
  exact (proj1 (proj2 (proj2
    (find_minima_increasing_prominent [4000; 3500; 3000; 2500] [0.9; 0.8; 0.8; 0.5] 0.001)))
    Hm).
Defined.

(** C3: in auto mode a curve gets [min(PEAKS_PER_CURVE, number of minima)]
    annotations, listed by non-increasing depth [1 - transmittance]; with
    [PEAKS_PER_CURVE <= 0] or without minima it gets none. *)
Theorem auto_mode_count_and_order (cfg : Config) (name : string) (df : Curve) :
  in_guess_mode cfg = false →
  let peaks := _find_minima (wavenumber df) (transmittance df) (PEAK_PROMINENCE cfg) in
  ∃ anns,
    annotate_curve cfg name df = Some anns ∧
    ((0 <= PEAKS_PER_CURVE cfg)%Z →
       Z.of_nat (length anns) = Z.min (PEAKS_PER_CURVE cfg) (Z.of_nat (length peaks))) ∧
    StronglySorted (λ a b, 1 - a_transmittance b <= 1 - a_transmittance a) anns ∧
    ((PEAKS_PER_CURVE cfg <= 0)%Z ∨ peaks = [] → anns = []).
Proof.
  intros Hmode. cbv zeta.
  set (wn := wavenumber df). set (tr := transmittance df).
  set (peaks := _find_minima wn tr (PEAK_PROMINENCE cfg)).
  set (n := PEAKS_PER_CURVE cfg).
  assert (Hrun : annotate_curve cfg name df = annotate_auto name wn tr peaks n).
  { unfold annotate_curve, in_guess_mode in *.
    destruct (TARGET_GUESSES cfg) as [[|g gs]|]; done. }
  rewrite Hrun.
  rewrite (annotate_auto_eq wn tr peaks n (curve_columns_length df)
             (find_minima_bound wn tr _) name).
  eexists. split; [done|].
  pose proof (selected_length tr peaks n) as Hlen.
  pose proof (selected_sorted tr peaks n (find_minima_sorted wn tr _)) as Hsort.
  cbv zeta in Hlen, Hsort.
  destruct (0 <? length peaks)%nat eqn:E1; simpl.
  - destruct (0 <? n)%Z eqn:E2; simpl.
    + apply Nat.ltb_lt in E1. apply Z.ltb_lt in E2.
      split; [intros _; rewrite length_fmap, Hlen; lia|].
      split.
      * eapply StronglySorted_fmap; [|exact Hsort].
        intros p q [H|[H _]]; simpl; lra.
      * intros [H|H]; [lia|]. rewrite H in E1. simpl in E1. lia.
    + apply Z.ltb_ge in E2. split; [simpl; lia|]. split; [constructor|done].
  - apply Nat.ltb_ge in E1. split; [simpl; lia|]. split; [constructor|done].
Qed.

(** With one peak per curve the twin curve gets one annotation. *)
Lemma auto_mode_count_on_twin_curve :
  ∃ anns,
    annotate_curve (twin_config 1) "b.csv" twin_curve = Some anns ∧
    length anns = 1%nat.
Proof.
  assert (Hmode : in_guess_mode (twin_config 1) = false) by reflexivity.
  destruct (auto_mode_count_and_order (twin_config 1) "b.csv" twin_curve Hmode)
    as (anns & Hrun & Hlen & _ & _).
  exists anns. split; [exact Hrun|].
  assert (Hpos : (0 <= PEAKS_PER_CURVE (twin_config 1))%Z) by (simpl; lia).
  specialize (Hlen Hpos).
  replace (_find_minima _ _ _) with [1%nat; 3%nat] in Hlen by (by vm_compute).
  simpl in Hlen. lia.
Defined.

(** ** The auto branch under any ascending argsort *)

#[local] Instance lex_lt_reversed_trans : Transitive lex_lt_reversed.
Proof.
  intros [i x] [j y] [k z]; unfold lex_lt_reversed; simpl.
  intros [H1|[H1 H1']] [H2|[H2 H2']].
  - left. lra.
  - left. lra.
  - left. lra.
  - right. split; [lra|lia].
Qed.

Lemma argsort_ties_reversed_Permutation (a : list Q) :
  argsort_ties_reversed a ≡ₚ seq 0 (length a).
Proof.
  unfold argsort_ties_reversed. rewrite stable_sort_Permutation. by rewrite fst_imap_pair.
Qed.

Lemma argsort_ties_reversed_sorted (a : list Q) :
  StronglySorted
    (λ i j, ∃ x y, a !! i = Some x ∧ a !! j = Some y ∧ (x < y ∨ (x == y ∧ (j < i)%nat)))
    (argsort_ties_reversed a).
Proof.
  unfold argsort_ties_reversed.
  set (le := λ u v : nat * Q, Qltb u.2 v.2).
  assert (Hs : StronglySorted lex_lt_reversed (stable_sort le (imap pair a))).
  { apply stable_sort_StronglySorted; [apply _|].
    apply StronglySorted_lookup. intros i j [i' x] [j' y] Hij Hi Hj.
    rewrite list_lookup_imap in Hi, Hj.
    destruct (a !! i) eqn:Ei; [|done]. destruct (a !! j) eqn:Ej; [|done].
    simpl in Hi, Hj. injection Hi as <- <-. injection Hj as <- <-.
    unfold placed, le, lex_lt_reversed; simpl.
    destruct (Qltb q q0) eqn:E.
    - apply Qltb_lt in E. by left.
    - apply Qltb_ge in E. destruct (Qlt_le_dec q0 q); [by left|].
      right. split; [lra|done]. }
  assert (Hp : Forall (λ u, a !! u.1 = Some u.2) (stable_sort le (imap pair a))).
  { rewrite stable_sort_Permutation. apply Forall_lookup. intros i [i' x] Hi.
    rewrite list_lookup_imap in Hi. destruct (a !! i) eqn:Ei; [|done].
    simpl in Hi. by injection Hi as <- <-. }
  eapply StronglySorted_fmap; [|exact (StronglySorted_with _ _ _ Hs Hp)].
  intros [i x] [j y] (Hi & Hj & Hlt); simpl in *. by exists x, y.
Qed.

Lemma lookup_sample_eq (a : list Q) (i : nat) (x : Q) : a !! i = Some x → sample a i = x.
Proof. intros Hi. unfold sample. by apply nth_lookup_Some. Qed.

Lemma argsort_ascending : ascending_argsort argsort.
Proof.
  intros a. split; [apply argsort_Permutation|].
  eapply StronglySorted_impl; [|apply argsort_sorted].
  intros i j (x & y & Hi & Hj & H).
  rewrite (lookup_sample_eq a i x Hi), (lookup_sample_eq a j y Hj).
  destruct H as [H|[H _]]; lra.
Qed.

Lemma argsort_ties_reversed_ascending : ascending_argsort argsort_ties_reversed.
Proof.
  intros a. split; [apply argsort_ties_reversed_Permutation|].
  eapply StronglySorted_impl; [|apply argsort_ties_reversed_sorted].
  intros i j (x & y & Hi & Hj & H).
  rewrite (lookup_sample_eq a i x Hi), (lookup_sample_eq a j y Hj).
  destruct H as [H|[H _]]; lra.
Qed.

Lemma reverse_stands_before (l : list nat) :
  StronglySorted (λ x y, stands_before l y x) (reverse l).
Proof.
  apply StronglySorted_lookup. intros i j x y Hij Hi Hj.
  assert (Hjl : (j < length l)%nat).
  { apply lookup_lt_Some in Hj. by rewrite length_reverse in Hj. }
  rewrite reverse_lookup in Hi, Hj by lia.
  exists (length l - S j)%nat, (length l - S i)%nat. split; [lia|done].
Qed.

Section AnyArgsort.
Context (np_argsort : list Q → list nat) (ascending : ascending_argsort np_argsort).
Context (tr : list Q) (peak_idx : list nat) (n : Z).
Hypothesis in_range : Forall (λ p, (p < length tr)%nat) peak_idx.

Lemma auto_order_with_bound (d : list Q) :
  Forall (λ i, (i < length d)%nat) (auto_order_with np_argsort d n).
Proof using ascending.
  unfold auto_order_with. apply Forall_take.
  rewrite reverse_Permutation, (proj1 (ascending d)).
  apply Forall_seq. intros; lia.
Qed.

Lemma auto_selected_with_eq :
  auto_selected_with np_argsort tr peak_idx n =
  Some ((λ j, nth j peak_idx 0%nat) <$> auto_order_with np_argsort (depths_at tr peak_idx) n).
Proof using ascending in_range.
  unfold auto_selected_with. rewrite (take_idx_Some tr peak_idx 0 in_range). simpl.
  rewrite <- list_fmap_compose.
  apply take_idx_Some.
  eapply Forall_impl; [apply auto_order_with_bound|]. intros j Hj.
  unfold depths_at in Hj. by rewrite length_fmap in Hj.
Qed.

Lemma depth_at_position (j p : nat) :
  peak_idx !! j = Some p → sample (depths_at tr peak_idx) j = 1 - sample tr p.
Proof using Type.
  intros Hp. apply lookup_sample_eq. unfold depths_at.
  by rewrite list_lookup_fmap, Hp.
Qed.

(** Deeper minima first, and the selection runs through the result of the
    argsort backwards. *)
Lemma selected_with_sorted :
  StronglySorted
    (λ p q, 1 - sample tr q <= 1 - sample tr p ∧
            sorted_before peak_idx (np_argsort (depths_at tr peak_idx)) q p)
    ((λ j, nth j peak_idx 0%nat) <$> auto_order_with np_argsort (depths_at tr peak_idx) n).
Proof using ascending.
  set (d := depths_at tr peak_idx).
  assert (Hs : StronglySorted
                 (λ i j, sample d j <= sample d i ∧ stands_before (np_argsort d) j i)
                 (auto_order_with np_argsort d n)).
  { unfold auto_order_with. apply StronglySorted_take.
    apply StronglySorted_lookup. intros k l i j Hkl Hk Hl. split.
    - pose proof (StronglySorted_reverse _ _ (proj2 (ascending d))) as Hr.
      exact (StronglySorted_lookup_inv _ _ k l i j Hr Hkl Hk Hl).
    - exact (StronglySorted_lookup_inv _ _ k l i j
               (reverse_stands_before (np_argsort d)) Hkl Hk Hl). }
  eapply StronglySorted_fmap;
    [|exact (StronglySorted_with _ _ _ Hs (auto_order_with_bound d))].
  intros i j (Hi & Hj & Hle & Hbefore). cbv beta in Hi, Hj.
  unfold d, depths_at in Hi, Hj. rewrite length_fmap in Hi, Hj.
  destruct (lookup_lt_is_Some_2 peak_idx i Hi) as [p Hp].
  destruct (lookup_lt_is_Some_2 peak_idx j Hj) as [q Hq].
  rewrite (nth_lookup_Some _ _ 0%nat p Hp), (nth_lookup_Some _ _ 0%nat q Hq).
  split.
  - by rewrite <- (depth_at_position i p Hp), <- (depth_at_position j q Hq).
  - by exists j, i.
Qed.

End AnyArgsort.

(** With equal depths left in the reverse of index order, the selection
    takes minima of equal depth in detection order. *)
Lemma selected_ties_reversed_sorted (tr : list Q) (peak_idx : list nat) (n : Z) :
  StronglySorted lt peak_idx →
  StronglySorted (deeper_or_earlier tr)
    ((λ j, nth j peak_idx 0%nat)
       <$> auto_order_with argsort_ties_reversed (depths_at tr peak_idx) n).
Proof.
  intros Hinc. set (d := depths_at tr peak_idx).
  assert (Hs : StronglySorted
                 (λ i j, ∃ x y, d !! i = Some x ∧ d !! j = Some y ∧
                                (y < x ∨ (y == x ∧ (i < j)%nat)))
                 (auto_order_with argsort_ties_reversed d n)).
  { unfold auto_order_with. apply StronglySorted_take.
    eapply StronglySorted_impl;
      [|apply StronglySorted_reverse, argsort_ties_reversed_sorted].
    intros i j (y & x & Hj & Hi & H). by exists x, y. }
  eapply StronglySorted_fmap; [|exact Hs].
  intros i j (x & y & Hi & Hj & Hlt). unfold d, depths_at in Hi, Hj.
  rewrite list_lookup_fmap in Hi, Hj.
  destruct (peak_idx !! i) as [p|] eqn:Ep; [|done].
  destruct (peak_idx !! j) as [q|] eqn:Eq; [|done].
  simpl in Hi, Hj. injection Hi as <-. injection Hj as <-.
  rewrite (nth_lookup_Some _ _ 0%nat p Ep), (nth_lookup_Some _ _ 0%nat q Eq).
  destruct Hlt as [Hlt|[Heq Hlt]]; [by left|right].
  split; [done|]. by eapply (StronglySorted_lookup_inv lt peak_idx i j).
Qed.

Lemma selected_with_detected (np_argsort : list Q → list nat) (tr : list Q)
    (peak_idx : list nat) (n : Z) :
  ascending_argsort np_argsort →
  Forall (λ p, p ∈ peak_idx)
    ((λ j, nth j peak_idx 0%nat) <$> auto_order_with np_argsort (depths_at tr peak_idx) n).
Proof.
  intros Hasc. apply Forall_fmap.
  eapply Forall_impl; [apply (auto_order_with_bound np_argsort Hasc n)|]. intros j Hj. simpl.
  unfold depths_at in Hj. rewrite length_fmap in Hj.
  destruct (lookup_lt_is_Some_2 peak_idx j Hj) as [p Hp].
  rewrite (nth_lookup_Some _ _ 0%nat p Hp). by eapply list_elem_of_lookup_2.
Qed.

(** C1 (as amended): in auto mode the order among minima of equal depth is
    the one [np.argsort] leaves, read backwards, and detection order is not
    kept in general.  Under every ascending argsort the selection exists,
    a deeper minimum comes before a shallower one, and of two selected
    minima the one selected first is the one the argsort returned last.
    The argsort that leaves equal depths in index order (the one the model
    runs) selects minima of equal depth last-detected first; the argsort
    that leaves them in the reverse of index order is as much an ascending
    argsort and selects them first-detected first. *)
Theorem auto_mode_ties_follow_argsort (cfg : Config) (name : string) (df : Curve) :
  in_guess_mode cfg = false →
  let wn := wavenumber df in
  let tr := transmittance df in
  let peaks := _find_minima wn tr (PEAK_PROMINENCE cfg) in
  let n := PEAKS_PER_CURVE cfg in
  (∀ np_argsort, ascending_argsort np_argsort →
     ∃ selected,
       auto_selected_with np_argsort tr peaks n = Some selected ∧
       StronglySorted
         (λ p q, 1 - sample tr q <= 1 - sample tr p ∧
                 sorted_before peaks (np_argsort (depths_at tr peaks)) q p)
         selected) ∧
  (ascending_argsort argsort ∧
   ∃ selected,
     auto_selected_with argsort tr peaks n = Some selected ∧
     annotate_curve cfg name df =
       Some (if (0 <? length peaks)%nat && (0 <? n)%Z
             then auto_row_at name wn tr <$> selected else []) ∧
     StronglySorted (λ p q, same_depth tr p q → detected_before peaks q p) selected) ∧
  (ascending_argsort argsort_ties_reversed ∧
   ∃ selected,
     auto_selected_with argsort_ties_reversed tr peaks n = Some selected ∧
     StronglySorted (λ p q, same_depth tr p q → detected_before peaks p q) selected).
Proof.
  intros Hmode. cbv zeta.
  set (wn := wavenumber df). set (tr := transmittance df).
  set (peaks := _find_minima wn tr (PEAK_PROMINENCE cfg)).
  set (n := PEAKS_PER_CURVE cfg).
  pose proof (find_minima_bound wn tr (PEAK_PROMINENCE cfg)) as Hrange.
  pose proof (find_minima_sorted wn tr (PEAK_PROMINENCE cfg)) as Hinc.
  fold peaks in Hrange, Hinc.
  split; [|split].
  - intros np_argsort Hasc. eexists.
    split; [apply (auto_selected_with_eq np_argsort Hasc tr peaks n Hrange)|].
    apply (selected_with_sorted np_argsort Hasc).
  - split; [apply argsort_ascending|].
    eexists. split; [apply (auto_selected_eq tr peaks n Hrange)|]. split.
    + rewrite <- (annotate_auto_eq wn tr peaks n (curve_columns_length df) Hrange name).
      unfold annotate_curve, in_guess_mode in *.
      destruct (TARGET_GUESSES cfg) as [[|g gs]|]; done.
    + pose proof (selected_sorted tr peaks n Hinc) as Hsort.
      pose proof (selected_detected tr peaks n) as Hdet.
      cbv zeta in Hsort, Hdet.
      eapply StronglySorted_impl;
        [|exact (StronglySorted_with _ _ _ Hsort Hdet)].
      intros p q (Hp & Hq & Hrank) Hsame. unfold same_depth in Hsame.
      destruct Hrank as [Hlt|[_ Hlt]]; [lra|].
      by apply detected_before_lt.
  - split; [apply argsort_ties_reversed_ascending|].
    eexists.
    split; [apply (auto_selected_with_eq _ argsort_ties_reversed_ascending tr peaks n Hrange)|].
    pose proof (selected_ties_reversed_sorted tr peaks n Hinc) as Hsort.
    pose proof (selected_with_detected _ tr peaks n argsort_ties_reversed_ascending) as Hdet.
    eapply StronglySorted_impl;
      [|exact (StronglySorted_with _ _ _ Hsort Hdet)].
    intros p q (Hp & Hq & Hrank) Hsame. unfold same_depth in Hsame.
    destruct Hrank as [Hlt|[_ Hlt]]; [lra|].
    by apply detected_before_lt.
Qed.

(** The two selections on the twin curve, with two peaks per curve: the
    minima at samples 1 and 3 are equally deep, and either may come first. *)
Lemma auto_mode_ties_on_twin_curve :
  let tr := transmittance twin_curve in
  let peaks := _find_minima (wavenumber twin_curve) tr 0.01 in
  (auto_selected_with argsort tr peaks 2 = Some [3%nat; 1%nat] ∧
   StronglySorted (λ p q, same_depth tr p q → detected_before peaks q p) [3%nat; 1%nat]) ∧
  (auto_selected_with argsort_ties_reversed tr peaks 2 = Some [1%nat; 3%nat] ∧
   StronglySorted (λ p q, same_depth tr p q → detected_before peaks p q) [1%nat; 3%nat]).
Proof.
  assert (Hmode : in_guess_mode (twin_config 2) = false) by reflexivity.
  destruct (auto_mode_ties_follow_argsort (twin_config 2) "b.csv" twin_curve Hmode)
    as (_ & (_ & s1 & Hs1 & _ & Hsort1) & (_ & s2 & Hs2 & Hsort2)).
  assert (E1 : auto_selected_with argsort (transmittance twin_curve)
                 (_find_minima (wavenumber twin_curve) (transmittance twin_curve) 0.01) 2
               = Some [3%nat; 1%nat]) by (by vm_compute).
  assert (E2 : auto_selected_with argsort_ties_reversed (transmittance twin_curve)
                 (_find_minima (wavenumber twin_curve) (transmittance twin_curve) 0.01) 2
               = Some [1%nat; 3%nat]) by (by vm_compute).
  change (PEAKS_PER_CURVE (twin_config 2)) with 2%Z in Hs1, Hs2.
  change (PEAK_PROMINENCE (twin_config 2)) with 0.01 in Hs1, Hs2, Hsort1, Hsort2.
  rewrite E1 in Hs1. rewrite E2 in Hs2.
  injection Hs1 as <-. injection Hs2 as <-.
  cbv zeta. split; split; [exact E1|exact Hsort1|exact E2|exact Hsort2].
Defined.

(** C1 as stated fails: on the curve with two equally deep minima the
    selection is the later minimum (sample 3) before the earlier one
    (sample 1), so the tie does not follow the detection order. *)
Lemma auto_mode_ties_not_in_detection_order :
  _find_minima (wavenumber twin_curve) (transmittance twin_curve) 0.01 = [1%nat; 3%nat] ∧
  same_depth (transmittance twin_curve) 1 3 ∧
  auto_selected (transmittance twin_curve) [1%nat; 3%nat] 2 = Some [3%nat; 1%nat] ∧
  annotate_curve (twin_config 1) "b.csv" twin_curve
    = Some [auto_row_at "b.csv" (wavenumber twin_curve) (transmittance twin_curve) 3] ∧
  ¬ StronglySorted
      (λ p q, same_depth (transmittance twin_curve) p q →
              detected_before [1%nat; 3%nat] p q)
      [3%nat; 1%nat].
Proof.
  split; [by vm_compute|]. split; [by vm_compute|]. split; [by vm_compute|].
  split; [by vm_compute|].
  intros Hs. apply StronglySorted_inv in Hs as [_ Hall].
  apply Forall_cons in Hall as [H31 _].
  destruct H31 as (i & j & Hij & Hi & Hj); [by vm_compute|].
  destruct j as [|[|[|j]]]; simpl in Hj; try discriminate. lia.
Qed.

(** C2: in guess mode, for a curve with at least one detected minimum
    every configured guess yields one annotation, in the order of the
    guesses, and its peak is a detected minimum to which no other detected
    minimum of the curve is strictly closer; a curve without detected
    minima yields no annotation and no error. *)
Theorem guess_mode_selects_nearest (cfg : Config) (name : string) (df : Curve)
    (guesses : list Q) :
  TARGET_GUESSES cfg = Some guesses → guesses ≠ [] →
  let wn := wavenumber df in
  let tr := transmittance df in
  let peaks := _find_minima wn tr (PEAK_PROMINENCE cfg) in
  ∃ anns,
    annotate_curve cfg name df = Some anns ∧
    (peaks = [] → anns = []) ∧
    (peaks ≠ [] →
     Forall2 (λ g a, ∃ p, nearest_minimum wn peaks g p ∧ a = guess_row_at name wn tr g p)
             guesses anns).
Proof.
  intros Hcfg Hne. cbv zeta.
  set (wn := wavenumber df). set (tr := transmittance df).
  set (peaks := _find_minima wn tr (PEAK_PROMINENCE cfg)).
  assert (Hrun : annotate_curve cfg name df =
                 @concat _ <$> mapM (annotate_guess name wn tr peaks) guesses).
  { unfold annotate_curve. rewrite Hcfg. by destruct guesses. }
  rewrite Hrun.
  destruct (decide (peaks = [])) as [Hnil|Hpeaks].
  - exists []. rewrite Hnil. split; [|done].
    apply mapM_concat_empties. intros g _. apply annotate_guess_none.
  - destruct (mapM_concat_singletons (annotate_guess name wn tr peaks)
                (λ g a, ∃ p, nearest_minimum wn peaks g p ∧ a = guess_row_at name wn tr g p)
                guesses) as (anns & Hanns & Hall).
    { intros g _.
      destruct (annotate_guess_eq name wn tr peaks g (curve_columns_length df)
                  (find_minima_bound wn tr _) Hpeaks) as (p & Hnear & Heq).
      exists (guess_row_at name wn tr g p). split; [by exists p|done]. }
    exists anns. split; [done|]. split; [done|]. by intros _.
Qed.

(** Guesses 3400 and 1650 on the twin curve: one row each. *)
Lemma guess_mode_on_twin_curve :
  ∃ anns,
    annotate_curve (guess_config [3400; 1650]) "b.csv" twin_curve = Some anns ∧
    Forall2 (λ g a, ∃ p,
               nearest_minimum (wavenumber twin_curve)
                 (_find_minima (wavenumber twin_curve) (transmittance twin_curve) 0.01) g p ∧
               a = guess_row_at "b.csv" (wavenumber twin_curve) (transmittance twin_curve) g p)
            [3400; 1650] anns.
Proof.
  assert (Hcfg : TARGET_GUESSES (guess_config [3400; 1650]) = Some [3400; 1650])
    by reflexivity.
  assert (Hne : [3400; 1650] ≠ @nil Q) by discriminate.
  destruct (guess_mode_selects_nearest (guess_config [3400; 1650]) "b.csv" twin_curve
              [3400; 1650] Hcfg Hne) as (anns & Hrun & _ & Hall).
  exists anns. split; [exact Hrun|]. apply Hall. by vm_compute.
Defined.

(** ** Running the monad *)

Lemma bind_run {A B} (m : M A) (k : A → M B) (log : list Event) :
  @mbind M _ A B k m log =
  match m log with
  | (log', inr a) => k a log'
  | (log', inl e) => (log', inl e)
  end.
Proof. done. Qed.

Lemma emit_run (ev : Event) (log : list Event) : emit ev log = (log ++ [ev], inr ()).
Proof. done. Qed.

Lemma ret_run {A} (a : A) (log : list Event) : @mret M _ A a log = (log, inr a).
Proof. done. Qed.

(** ** The CSV loader *)

Lemma dropna_valid_rows (to_numeric : string → option Q) (c0 c1 : list string) :
  dropna (coerce to_numeric c0) (coerce to_numeric c1) = valid_rows to_numeric (zip c0 c1).
Proof.
  unfold dropna, valid_rows, coerce, parse_cell.
  revert c1. induction c0 as [|a c0 IH]; intros [|b c1]; simpl; [done..|].
  rewrite IH.
  destruct (to_numeric (replace_comma a)), (to_numeric (replace_comma b)); done.
Qed.

Lemma clean_rows (to_numeric : string → option Q) (df : Frame) :
  _clean to_numeric df =
  match first_two_columns df with
  | Some rows => inr (valid_rows to_numeric rows)
  | None => inl ValueError
  end.
Proof.
  destruct df as [|c0 [|c1 rest]]; simpl; [done..|].
  unfold _clean. simpl. by rewrite dropna_valid_rows.
Qed.

Lemma semicolon_attempt_run (to_numeric : string → option Q) (w : World) (path : string)
    (log : list Event) :
  (df ← do_read_csv w path Semicolon; lift_sum (_clean to_numeric df)) log =
  (log ++ [EvReadCsv path Semicolon],
   match read_csv w path Semicolon with
   | inl e => inl e
   | inr df =>
       match first_two_columns df with
       | Some rows => inr (valid_rows to_numeric rows)
       | None => inl ValueError
       end
   end).
Proof.
  unfold do_read_csv. rewrite !bind_run, emit_run.
  destruct (read_csv w path Semicolon) as [e|df]; [done|].
  cbn [lift_sum]. rewrite ret_run, clean_rows.
  by destruct (first_two_columns df).
Qed.

Lemma read_csv_any_run (to_numeric : string → option Q) (w : World) (path : string)
    (log : list Event) :
  _read_csv_any to_numeric w path log =
  (log ++ load_events w path, load_result to_numeric w path).
Proof.
  unfold _read_csv_any, try_except, load_events, load_result, attempt_ok.
  unfold do_read_csv at 1. rewrite !bind_run, emit_run.
  destruct (read_csv w path Comma) as [e|df]; cbn [lift_sum].
  - unfold raise. rewrite semicolon_attempt_run. by rewrite <- app_assoc.
  - rewrite ret_run.
    destruct (Nat.ltb_spec (length df) 2) as [Hlt|Hge].
    + replace (2 <=? length df)%nat with false by (symmetry; apply Nat.leb_gt; lia).
      unfold raise. rewrite semicolon_attempt_run. by rewrite <- app_assoc.
    + replace (2 <=? length df)%nat with true by (symmetry; apply Nat.leb_le; lia).
      rewrite clean_rows. destruct df as [|c0 [|c1 rest]]; simpl in Hge; [lia..|done].
Qed.

(** *** Decimal commas *)

Lemma replace_comma_decimal_points (s : string) : decimal_points s (replace_comma s).
Proof.
  induction s as [|c s IH]; simpl; [constructor|].
  destruct (Ascii.eqb_spec c ","%char) as [->|Hne]; by constructor.
Qed.

Lemma decimal_points_replace_comma (s t : string) :
  decimal_points s t → t = replace_comma s.
Proof.
  induction 1 as [|s t _ IH|c s t Hc _ IH]; simpl; [done|by rewrite IH|].
  destruct (Ascii.eqb_spec c ","%char) as [->|_]; [done|by rewrite IH].
Qed.

Lemma cell_value_parse_cell (to_numeric : string → option Q) (s : string) (v : option Q) :
  cell_value to_numeric s v ↔ parse_cell to_numeric s = v.
Proof.
  unfold cell_value, parse_cell. split.
  - intros (t & Ht & Hv). by rewrite <- (decimal_points_replace_comma s t Ht).
  - intros Hv. exists (replace_comma s). split; [apply replace_comma_decimal_points|done].
Qed.

Lemma valid_rows_cleaned (to_numeric : string → option Q) (rows : list (string * string)) :
  cleaned to_numeric rows (valid_rows to_numeric rows).
Proof.
  induction rows as [|[a b] rows IH]; [constructor|].
  unfold valid_rows.
  change (omap ?f ((a, b) :: rows))
    with (match f (a, b) with Some r => r :: omap f rows | None => omap f rows end).
  cbn [fst snd].
  destruct (parse_cell to_numeric a) as [x|] eqn:Ea.
  - destruct (parse_cell to_numeric b) as [y|] eqn:Eb.
    + apply cleaned_keep; [by apply cell_value_parse_cell..|exact IH].
    + apply cleaned_drop; [right; by apply cell_value_parse_cell|exact IH].
  - apply cleaned_drop; [left; by apply cell_value_parse_cell|exact IH].
Qed.

Lemma cleaned_valid_rows (to_numeric : string → option Q) (rows : list (string * string))
    (curve : Curve) :
  cleaned to_numeric rows curve → curve = valid_rows to_numeric rows.
Proof.
  induction 1 as [|a b x y rows curve Ha Hb _ IH|a b rows curve Hab _ IH]; [done|..];
    unfold valid_rows;
    change (omap ?f ((a, b) :: rows))
      with (match f (a, b) with Some r => r :: omap f rows | None => omap f rows end);
    cbn [fst snd].
  - apply cell_value_parse_cell in Ha, Hb. rewrite Ha, Hb. simpl. by rewrite IH.
  - destruct Hab as [Ha|Hb].
    + apply cell_value_parse_cell in Ha. rewrite Ha. simpl. by rewrite IH.
    + apply cell_value_parse_cell in Hb. rewrite Hb.
      destruct (parse_cell to_numeric a); simpl; by rewrite IH.
Qed.

Lemma load_result_cleaned (to_numeric : string → option Q) (w : World) (path : string) :
  match (if attempt_ok w path Comma then read_csv w path Comma
         else read_csv w path Semicolon) with
  | inl e => load_result to_numeric w path = inl e
  | inr df =>
      match first_two_columns df with
      | Some rows =>
          ∃ curve, load_result to_numeric w path = inr curve ∧
                   cleaned to_numeric rows curve
      | None => load_result to_numeric w path = inl ValueError
      end
  end.
Proof.
  unfold load_result.
  destruct (if attempt_ok w path Comma then _ else _) as [e|df]; [done|].
  destruct (first_two_columns df) as [rows|]; [|done].
  eexists. split; [done|apply valid_rows_cleaned].
Qed.

(** C4: the loader first parses with the comma; it parses again with the
    semicolon exactly when the first attempt fails or gives fewer than two
    columns; from the frame it ends up with it keeps the first two
    columns, reads every cell with its decimal commas turned into points,
    treats a cell that does not parse as missing and drops the rows with
    a missing value. *)
Theorem csv_loader_attempts_and_cleaning (to_numeric : string → option Q)
    (w : World) (path : string) (log : list Event) :
  let first := read_csv w path Comma in
  let retry := match first with
               | inr df => (length df <? 2)%nat
               | inl _ => true
               end in
  ∃ outcome,
    _read_csv_any to_numeric w path log =
      (log ++ EvReadCsv path Comma :: (if retry then [EvReadCsv path Semicolon] else []),
       outcome) ∧
    match (if retry then read_csv w path Semicolon else first) with
    | inl e => outcome = inl e
    | inr df =>
        match first_two_columns df with
        | Some rows => ∃ curve, outcome = inr curve ∧ cleaned to_numeric rows curve
        | None => outcome = inl ValueError
        end
    end.
Proof.
  cbv zeta. rewrite read_csv_any_run. exists (load_result to_numeric w path).
  pose proof (load_result_cleaned to_numeric w path) as Hout.
  unfold load_events. unfold attempt_ok in *.
  destruct (read_csv w path Comma) as [e|df]; [by split|].
  destruct (Nat.ltb_spec (length df) 2) as [Hlt|Hge].
  - replace (2 <=? length df)%nat with false in * by (symmetry; apply Nat.leb_gt; lia).
    by split.
  - replace (2 <=? length df)%nat with true in * by (symmetry; apply Nat.leb_le; lia).
    by split.
Qed.

(** A file with semicolons and decimal commas: the comma attempt gives one
    column, the semicolon attempt is read, and the cells ["0,95"], ["0,40"]
    and ["0,92"] are read as 0.95, 0.40 and 0.92. *)
Lemma csv_loader_on_decimal_commas :
  _read_csv_any dec_float decimal_world "data/q.csv" [] =
    ([EvReadCsv "data/q.csv" Comma; EvReadCsv "data/q.csv" Semicolon],
     inr [(4000, 0.95); (3500, 0.40); (3000, 0.92)]).
Proof.
  destruct (csv_loader_attempts_and_cleaning dec_float decimal_world "data/q.csv" [])
    as (outcome & Hrun & Hout).
  assert (Hrows : ∃ curve, outcome = inr curve ∧
                    cleaned dec_float
                      [("4000", "0,95"); ("3500", "0,40"); ("3000", "0,92")] curve)
    by exact Hout.
  destruct Hrows as (curve & -> & Hcurve).
  apply cleaned_valid_rows in Hcurve. subst curve.
  rewrite Hrun. f_equal.
Defined.

Lemma load_result_fails (to_numeric : string → option Q) (w : World) (path : string) :
  (∃ e, load_result to_numeric w path = inl e) ↔ fails_both w path.
Proof.
  unfold load_result, fails_both, attempt_ok.
  destruct (read_csv w path Comma) as [e|[|c0 [|c1 df]]]; simpl;
    destruct (read_csv w path Semicolon) as [e'|[|d0 [|d1 df']]]; simpl;
    split; try (intros [? ?]; done); try (intros [? ?]; split; done);
    try (intros _; by eexists).
Qed.

Lemma load_curve_run (to_numeric : string → option Q) (w : World) (path : string)
    (log : list Event) :
  load_curve to_numeric w path log =
  (log ++ load_events w path,
   match load_result to_numeric w path with
   | inl e => inl e
   | inr df => inr (basename path, sort_values_desc df)
   end).
Proof.
  unfold load_curve. rewrite bind_run, read_csv_any_run.
  by destruct (load_result to_numeric w path).
Qed.

Lemma for_each_load_run (to_numeric : string → option Q) (w : World)
    (files : list string) (log : list Event) :
  for_each (load_curve to_numeric w) files log =
  (log ++ load_all_events to_numeric w files, load_all_result to_numeric w files).
Proof.
  revert log. induction files as [|p rest IH]; intros log;
    cbn [for_each load_all_events load_all_result].
  - by rewrite app_nil_r.
  - rewrite bind_run, load_curve_run.
    destruct (load_result to_numeric w p) as [e|df].
    + by rewrite app_nil_r.
    + rewrite bind_run, IH, <- app_assoc.
      by destruct (load_all_result to_numeric w rest).
Qed.

Lemma load_all_fails (to_numeric : string → option Q) (w : World) (files : list string) :
  (∃ e, load_all_result to_numeric w files = inl e) ↔
  ∃ p, p ∈ files ∧ fails_both w p.
Proof.
  induction files as [|p rest IH]; simpl.
  - split; [intros [? ?]; done|]. intros (p & Hp & _). by apply elem_of_nil in Hp.
  - destruct (load_result to_numeric w p) as [e|df] eqn:E.
    + split; [|by eexists]. intros _. exists p. split; [by left|].
      apply (load_result_fails to_numeric). by eexists.
    + assert (Hok : ¬ fails_both w p).
      { intros H. apply (load_result_fails to_numeric) in H as [e He]. congruence. }
      destruct (load_all_result to_numeric w rest) as [e|curves].
      * split; [|by eexists]. intros _.
        destruct (proj1 IH) as (q & Hq & Hf); [by eexists|].
        exists q. split; [by right|done].
      * split; [intros [? ?]; done|]. intros (q & Hq & Hf).
        apply elem_of_cons in Hq as [->|Hq]; [done|].
        destruct (proj2 IH) as [e He]; [by exists q|done].
Qed.

Lemma load_all_events_reads (to_numeric : string → option Q) (w : World)
    (files : list string) :
  Forall (λ ev, is_output ev = false) (load_all_events to_numeric w files).
Proof.
  induction files as [|p rest IH]; simpl; [constructor|].
  constructor; [done|]. apply Forall_app. split.
  - by destruct (attempt_ok w p Comma); repeat constructor.
  - by destruct (load_result to_numeric w p); [constructor|].
Qed.

Lemma load_all_curves (to_numeric : string → option Q) (w : World)
    (files : list string) (curves : list (string * Curve)) :
  load_all_result to_numeric w files = inr curves →
  Forall2 (λ p c, ∃ df, load_result to_numeric w p = inr df ∧
                        c = (basename p, sort_values_desc df)) files curves.
Proof.
  revert curves. induction files as [|p rest IH]; intros curves; simpl.
  - intros [= <-]. constructor.
  - destruct (load_result to_numeric w p) as [e|df] eqn:E; [done|].
    destruct (load_all_result to_numeric w rest) as [e|cs]; [done|].
    intros [= <-]. constructor; [by exists df|by apply IH].
Qed.

(** ** The plotting loop *)

Lemma annotate_curve_total (cfg : Config) (name : string) (df : Curve) :
  is_Some (annotate_curve cfg name df).
Proof.
  set (wn := wavenumber df). set (tr := transmittance df).
  set (peaks := _find_minima wn tr (PEAK_PROMINENCE cfg)).
  pose proof (find_minima_bound wn tr (PEAK_PROMINENCE cfg)) as Hrange.
  pose proof (curve_columns_length df) as Hlen.
  assert (Hauto : is_Some (annotate_auto name wn tr peaks (PEAKS_PER_CURVE cfg))).
  { rewrite (annotate_auto_eq wn tr peaks _ Hlen Hrange). by eexists. }
  unfold annotate_curve. fold wn tr peaks.
  destruct (TARGET_GUESSES cfg) as [[|g gs]|]; [done| |done].
  apply fmap_is_Some, mapM_is_Some, Forall_forall. intros g' _. simpl.
  destruct (decide (peaks = [])) as [->|Hne]; [by eexists|].
  destruct (annotate_guess_eq name wn tr peaks g' Hlen Hrange Hne) as (p & _ & ->).
  by eexists.
Qed.

Lemma annotate_curve_rows (cfg : Config) (c : string * Curve) :
  annotate_curve cfg c.1 c.2 = Some (curve_rows cfg c).
Proof.
  unfold curve_rows. by destruct (annotate_curve_total cfg c.1 c.2) as [rows ->].
Qed.

Lemma for_each_marks (cfg : Config) (offset : Q) (rows : list Annotation) (log : list Event) :
  ∃ us,
    for_each (λ a,
        _ ← emit (EvMarker (a_peak a) (a_transmittance a + offset));
        emit (EvText (a_peak a) (a_transmittance a + offset + text_lift cfg)))
      rows log
    = (log ++ mark_events cfg offset rows, inr us).
Proof.
  revert log. induction rows as [|a rows IH]; intros log.
  - exists []. cbn [for_each]. rewrite ret_run. by rewrite app_nil_r.
  - destruct (IH ((log ++ [EvMarker (a_peak a) (a_transmittance a + offset)]) ++
                  [EvText (a_peak a) (a_transmittance a + offset + text_lift cfg)]))
      as [us Hus].
    exists (() :: us). cbn [for_each].
    rewrite bind_run, bind_run, !emit_run, bind_run, Hus, ret_run.
    unfold mark_events. cbn [mbind list_bind]. by rewrite <- !app_assoc.
Qed.

Lemma plot_curve_run (cfg : Config) (n i : nat) (c : string * Curve) (log : list Event) :
  plot_curve cfg n i c log = (log ++ curve_events cfg n i c, inr (curve_rows cfg c)).
Proof.
  pose proof (annotate_curve_rows cfg c) as Hrows.
  destruct c as [name df]. cbn [fst snd] in Hrows.
  unfold plot_curve. rewrite bind_run, emit_run, bind_run, Hrows.
  cbn [lift_option]. rewrite ret_run, bind_run.
  destruct (for_each_marks cfg (offset_of cfg n i) (curve_rows cfg (name, df))
              (log ++ [EvPlotCurve name (offset_of cfg n i)
                         ((λ r, (r.1, r.2 + offset_of cfg n i)) <$> df)])) as [us Hus].
  rewrite Hus, ret_run. unfold curve_events. cbn [fst snd]. by rewrite <- app_assoc.
Qed.

Lemma plot_curves_run (cfg : Config) (n i : nat) (curves : list (string * Curve))
    (log : list Event) :
  plot_curves cfg n i curves log =
  (log ++ plot_events cfg n i curves, inr (curves ≫= curve_rows cfg)).
Proof.
  revert i log. induction curves as [|c rest IH]; intros i log; cbn [plot_curves plot_events].
  - rewrite ret_run. by rewrite app_nil_r.
  - rewrite bind_run, plot_curve_run, bind_run, IH, ret_run.
    by rewrite <- app_assoc.
Qed.

Lemma plotted_app (l1 l2 : list Event) : plotted (l1 ++ l2) = plotted l1 ++ plotted l2.
Proof. unfold plotted. apply omap_app. Qed.

Lemma plotted_marks (cfg : Config) (offset : Q) (rows : list Annotation) :
  plotted (mark_events cfg offset rows) = [].
Proof. induction rows as [|a rows IH]; [done|]. simpl. exact IH. Qed.

Lemma plotted_plot_events (cfg : Config) (n i : nat) (curves : list (string * Curve)) :
  plotted (plot_events cfg n i curves) =
  imap (λ k c, (c.1, offset_of cfg n (i + k))) curves.
Proof.
  revert i. induction curves as [|c rest IH]; intros i; [done|].
  simpl. rewrite plotted_app, IH. unfold curve_events.
  change (plotted (?e :: ?l)) with (plotted [e] ++ plotted l).
  rewrite plotted_marks. simpl. rewrite Nat.add_0_r. f_equal.
  apply imap_ext. intros k c' _. simpl. f_equal. f_equal. lia.
Qed.

Lemma plotted_not_plot (l : list Event) :
  Forall (λ ev, match ev with EvPlotCurve _ _ _ => False | _ => True end) l →
  plotted l = [].
Proof.
  induction 1 as [|ev l Hev _ IH]; [done|].
  destruct ev; try done; exact IH.
Qed.

Lemma plot_events_no_output (cfg : Config) (n i : nat) (curves : list (string * Curve)) :
  Forall (λ ev, is_output ev = false) (plot_events cfg n i curves).
Proof.
  revert i. induction curves as [|c rest IH]; intros i; simpl; [constructor|].
  constructor; [done|]. apply Forall_app. split; [|apply IH].
  unfold mark_events. induction (curve_rows cfg c) as [|a rows IHr]; simpl;
    repeat constructor; done.
Qed.

(** ** The whole script *)

Section Run.
Context (py_float to_numeric : string → option Q).

Lemma load_config_run (w : World) (log : list Event) :
  load_config py_float w log = (log, config_result py_float w).
Proof.
  unfold config_result, load_config.
  destruct (String.eqb (strip (getenv w "INPUT_DIR" "")) ""); [done|].
  rewrite !bind_run.
  destruct (py_float (getenv w "OFFSET_STEP" "0.175")); [|done].
  cbn [lift_option]. rewrite !ret_run, !bind_run.
  destruct (py_float (getenv w "PEAK_PROMINENCE" "0.001")); [|done].
  cbn [lift_option]. rewrite !ret_run, !bind_run.
  destruct (py_int (getenv w "PEAKS_PER_CURVE" "5")); done.
Qed.

Lemma main_run (w : World) (log : list Event) :
  main py_float to_numeric w log =
  match config_result py_float w with
  | inl e => (log, inl e)
  | inr cfg =>
      let files := sorted_by_key (glob w (INPUT_DIR cfg)) in
      match files with
      | [] => (log ++ [EvMakedirs], inl FileNotFoundError)
      | _ =>
          match load_all_result to_numeric w files with
          | inl e => (log ++ EvMakedirs :: load_all_events to_numeric w files, inl e)
          | inr curves =>
              let rows := curves ≫= curve_rows cfg in
              (log ++ EvMakedirs :: load_all_events to_numeric w files
                   ++ plot_events cfg (length curves) 1 curves
                   ++ EvSavefig :: match rows with [] => [] | _ => [EvToCsv rows] end,
               inr ())
          end
      end
  end.
Proof.
  unfold main. rewrite bind_run, load_config_run.
  destruct (config_result py_float w) as [e|cfg]; [done|].
  rewrite bind_run, emit_run. cbv zeta.
  destruct (sorted_by_key (glob w (INPUT_DIR cfg))) as [|p files] eqn:Efiles; [done|].
  rewrite bind_run, for_each_load_run.
  destruct (load_all_result to_numeric w (p :: files)) as [e|curves].
  { by rewrite <- app_assoc. }
  rewrite bind_run, plot_curves_run, bind_run, emit_run.
  destruct (curves ≫= curve_rows cfg) as [|r rows].
  - rewrite ret_run. f_equal. rewrite <- !app_assoc. simpl. by rewrite <- !app_assoc.
  - rewrite emit_run. f_equal. rewrite <- !app_assoc. simpl. by rewrite <- !app_assoc.
Qed.

End Run.

(** ** The guesses of the configuration *)

Section Guesses.
Context (py_float : string → option Q).

Lemma collect_guesses_from (toks : list string) (acc : list Q) :
  fold_left
    (λ acc tok,
       if String.eqb tok "" then acc
       else match py_float tok with
            | Some v => acc ++ [v]
            | None => acc
            end)
    toks acc
  = acc ++ omap (float_token py_float) toks.
Proof.
  revert acc. induction toks as [|tok toks IH]; intros acc; simpl.
  - by rewrite app_nil_r.
  - rewrite IH. unfold float_token at 2.
    destruct (String.eqb tok ""); [done|].
    destruct (py_float tok); [|done]. by rewrite <- app_assoc.
Qed.

Lemma collect_guesses_omap (toks : list string) :
  collect_guesses py_float toks = omap (float_token py_float) toks.
Proof. apply (collect_guesses_from toks []). Qed.

Lemma re_split_go_delims (prev : bool) (s : string) :
  all_delims s = true →
  Forall (λ tok, tok = EmptyString) (re_split_go prev EmptyString s).
Proof.
  revert prev. induction s as [|c s IH]; intros prev Hs; simpl.
  - by repeat constructor.
  - simpl in Hs. apply andb_true_iff in Hs as [Hc Hs]. rewrite Hc.
    destruct prev; [by apply IH|]. constructor; [done|by apply IH].
Qed.

Lemma lstrip_delims (s : string) : all_delims s = true → all_delims (lstrip s) = true.
Proof.
  induction s as [|c s IH]; [done|]. simpl. intros Hs.
  destruct (is_space c); [|done].
  apply andb_true_iff in Hs as [_ Hs]. by apply IH.
Qed.

Lemma rstrip_delims (s : string) : all_delims s = true → all_delims (rstrip s) = true.
Proof.
  induction s as [|c s IH]; [done|]. simpl. intros Hs.
  apply andb_true_iff in Hs as [Hc Hs]. specialize (IH Hs).
  destruct (rstrip s) as [|c' r].
  - destruct (is_space c); [done|]. simpl. by rewrite Hc.
  - simpl in *. by rewrite Hc, IH.
Qed.

Lemma parse_guesses_omap (s : string) :
  parse_guesses py_float s =
  match omap (float_token py_float) (re_split s) with
  | [] => None
  | gs => Some gs
  end.
Proof.
  unfold parse_guesses. rewrite collect_guesses_omap.
  destruct s as [|c s]; [done|]. done.
Qed.

Lemma parse_guesses_delims (v : string) :
  all_delims v = true → parse_guesses py_float (strip v) = None.
Proof.
  intros Hv. rewrite parse_guesses_omap.
  assert (Htoks : Forall (λ tok, tok = EmptyString) (re_split (strip v))).
  { apply re_split_go_delims, rstrip_delims, lstrip_delims, Hv. }
  induction Htoks as [|tok toks -> _ IH]; [done|]. exact IH.
Qed.

Lemma config_result_eq (w : World) :
  config_result py_float w =
  if String.eqb (strip (getenv w "INPUT_DIR" "")) "" then inl RuntimeError
  else
    match py_float (getenv w "OFFSET_STEP" "0.175"),
          py_float (getenv w "PEAK_PROMINENCE" "0.001"),
          py_int (getenv w "PEAKS_PER_CURVE" "5") with
    | Some offset_step, Some peak_prominence, Some peaks_per_curve =>
        inr {| INPUT_DIR := strip (getenv w "INPUT_DIR" "");
               OFFSET_STEP := offset_step;
               PEAK_PROMINENCE := peak_prominence;
               PEAKS_PER_CURVE := peaks_per_curve;
               TARGET_GUESSES :=
                 parse_guesses py_float (strip (getenv w "TARGET_GUESSES" "")) |}
    | _, _, _ => inl ValueError
    end.
Proof.
  unfold config_result, load_config.
  destruct (String.eqb (strip (getenv w "INPUT_DIR" "")) ""); [done|].
  rewrite bind_run.
  destruct (py_float (getenv w "OFFSET_STEP" "0.175")); [|done].
  cbn [lift_option]. rewrite ret_run, bind_run.
  destruct (py_float (getenv w "PEAK_PROMINENCE" "0.001")); [|done].
  cbn [lift_option]. rewrite ret_run, bind_run.
  destruct (py_int (getenv w "PEAKS_PER_CURVE" "5")); done.
Qed.

Lemma getenv_set_guesses (w : World) (v key dflt : string) :
  key ≠ "TARGET_GUESSES" →
  getenv (with_environ w (<["TARGET_GUESSES" := v]> (environ w))) key dflt =
  getenv w key dflt.
Proof. intros Hne. unfold getenv. simpl. by rewrite lookup_insert_ne. Qed.

Lemma getenv_unset_guesses (w : World) (key dflt : string) :
  key ≠ "TARGET_GUESSES" →
  getenv (with_environ w (delete "TARGET_GUESSES" (environ w))) key dflt =
  getenv w key dflt.
Proof. intros Hne. unfold getenv. simpl. by rewrite lookup_delete_ne. Qed.

Lemma config_result_set_guesses (w : World) (v : string) :
  config_result py_float (with_environ w (<["TARGET_GUESSES" := v]> (environ w))) =
  match config_result py_float (with_environ w (delete "TARGET_GUESSES" (environ w))) with
  | inl e => inl e
  | inr cfg => inr (with_guesses cfg (parse_guesses py_float (strip v)))
  end.
Proof.
  rewrite !config_result_eq.
  rewrite !getenv_set_guesses, !getenv_unset_guesses by done.
  destruct (String.eqb (strip (getenv w "INPUT_DIR" "")) ""); [done|].
  destruct (py_float (getenv w "OFFSET_STEP" "0.175")); [|done].
  destruct (py_float (getenv w "PEAK_PROMINENCE" "0.001")); [|done].
  destruct (py_int (getenv w "PEAKS_PER_CURVE" "5")); [|done].
  unfold with_guesses. simpl. do 2 f_equal.
  unfold getenv. simpl. by rewrite lookup_insert_eq.
Qed.

Lemma config_result_unset_guesses (w : World) (cfg : Config) :
  config_result py_float (with_environ w (delete "TARGET_GUESSES" (environ w))) = inr cfg →
  TARGET_GUESSES cfg = None.
Proof.
  rewrite config_result_eq.
  destruct (String.eqb _ ""); [done|].
  destruct (py_float _); [|done]. destruct (py_float _); [|done].
  destruct (py_int _); [|done]. intros [= <-]. simpl.
  unfold getenv. simpl. by rewrite lookup_delete_eq.
Qed.

End Guesses.

Lemma load_all_result_environ (to_numeric : string → option Q) (w : World)
    (env : gmap string string) (files : list string) :
  load_all_result to_numeric (with_environ w env) files = load_all_result to_numeric w files.
Proof.
  induction files as [|p rest IH]; [done|]. simpl. rewrite IH. done.
Qed.

Lemma load_all_events_environ (to_numeric : string → option Q) (w : World)
    (env : gmap string string) (files : list string) :
  load_all_events to_numeric (with_environ w env) files = load_all_events to_numeric w files.
Proof.
  induction files as [|p rest IH]; [done|]. simpl. rewrite IH. done.
Qed.

(** C6: a token of [TARGET_GUESSES] that does not parse as a float is
    dropped (the guesses are the values of the tokens that parse, in
    order) and the string never makes the configuration fail; when no
    guess is left, and so when the string is empty or made of separators
    only, the run is the run with [TARGET_GUESSES] unset, which is in auto
    mode. *)
Theorem guesses_dropped_or_auto (py_float to_numeric : string → option Q)
    (w : World) (v : string) :
  let set := with_environ w (<["TARGET_GUESSES" := v]> (environ w)) in
  let unset := with_environ w (delete "TARGET_GUESSES" (environ w)) in
  parse_guesses py_float (strip v) =
    match omap (float_token py_float) (re_split (strip v)) with
    | [] => None
    | gs => Some gs
    end ∧
  config_result py_float set =
    match config_result py_float unset with
    | inl e => inl e
    | inr cfg => inr (with_guesses cfg (parse_guesses py_float (strip v)))
    end ∧
  (∀ cfg, config_result py_float unset = inr cfg → in_guess_mode cfg = false) ∧
  (all_delims v = true → parse_guesses py_float (strip v) = None) ∧
  (parse_guesses py_float (strip v) = None →
   run py_float to_numeric set = run py_float to_numeric unset).
Proof.
  cbv zeta. split; [apply parse_guesses_omap|].
  split; [apply config_result_set_guesses|].
  split.
  { intros cfg Hcfg. unfold in_guess_mode.
    by rewrite (config_result_unset_guesses py_float w cfg Hcfg). }
  split; [apply parse_guesses_delims|].
  intros Hnone. unfold run. rewrite !main_run, config_result_set_guesses, Hnone.
  destruct (config_result py_float (with_environ w (delete "TARGET_GUESSES" (environ w))))
    as [e|cfg] eqn:Ecfg; [done|].
  apply config_result_unset_guesses in Ecfg.
  replace (with_guesses cfg None) with cfg.
  2: { destruct cfg; simpl in *. by rewrite Ecfg. }
  cbv zeta. change (glob (with_environ w ?e)) with (glob w).
  by rewrite !load_all_result_environ, !load_all_events_environ.
Qed.

(** [TARGET_GUESSES=", ;"] on the sample folder runs as if unset. *)
Lemma guesses_of_separators_only :
  all_delims ", ;" = true ∧
  run dec_float dec_float
    (with_environ (sample_world {[ "INPUT_DIR" := "data" ]})
       (<["TARGET_GUESSES" := ", ;"]> {[ "INPUT_DIR" := "data" ]})) =
  run dec_float dec_float
    (with_environ (sample_world {[ "INPUT_DIR" := "data" ]})
       (delete "TARGET_GUESSES" {[ "INPUT_DIR" := "data" ]})).
Proof.
  assert (Hd : all_delims ", ;" = true) by reflexivity.
  split; [exact Hd|].
  destruct (guesses_dropped_or_auto dec_float dec_float
              (sample_world {[ "INPUT_DIR" := "data" ]}) ", ;")
    as (_ & _ & _ & Hnone & Hrun).
  exact (Hrun (Hnone Hd)).
Defined.

(** ** When the script halts *)

Lemma sorted_by_key_Permutation (paths : list string) : sorted_by_key paths ≡ₚ paths.
Proof. apply stable_sort_Permutation. Qed.

Lemma config_result_fails (py_float : string → option Q) (w : World) :
  (∃ e, config_result py_float w = inl e) ↔
  strip (getenv w "INPUT_DIR" "") = "" ∨
  py_float (getenv w "OFFSET_STEP" "0.175") = None ∨
  py_float (getenv w "PEAK_PROMINENCE" "0.001") = None ∨
  py_int (getenv w "PEAKS_PER_CURVE" "5") = None.
Proof.
  rewrite config_result_eq.
  destruct (String.eqb_spec (strip (getenv w "INPUT_DIR" "")) "") as [->|Hdir].
  { split; [by left|by eexists]. }
  destruct (py_float (getenv w "OFFSET_STEP" "0.175")) as [a|];
    [|split; [by right; left|by eexists]].
  destruct (py_float (getenv w "PEAK_PROMINENCE" "0.001")) as [b|];
    [|split; [by right; right; left|by eexists]].
  destruct (py_int (getenv w "PEAKS_PER_CURVE" "5")) as [c|];
    [|split; [by right; right; right|by eexists]].
  split; [intros [? ?]; done|]. intros [?|[?|[?|?]]]; done.
Qed.

Lemma config_result_input_dir (py_float : string → option Q) (w : World) (cfg : Config) :
  config_result py_float w = inr cfg → INPUT_DIR cfg = strip (getenv w "INPUT_DIR" "").
Proof.
  rewrite config_result_eq.
  destruct (String.eqb _ ""); [done|].
  destruct (py_float _); [|done]. destruct (py_float _); [|done].
  destruct (py_int _); [|done]. by intros [= <-].
Qed.

(** C5 (as amended): the run halts with an exception exactly when the
    input directory is unset or blank, or one of [OFFSET_STEP],
    [PEAK_PROMINENCE], [PEAKS_PER_CURVE] does not parse as a number, or no
    CSV file is found under the directory, or some file fails under both
    separators (no parse, or fewer than two columns); a file that fails
    halts the run, and a run that halts has written neither the figure nor
    the summary. *)
Theorem run_halts_exactly_when (py_float to_numeric : string → option Q) (w : World) :
  let input_dir := strip (getenv w "INPUT_DIR" "") in
  let halted := ∃ e, (run py_float to_numeric w).2 = inl e in
  (halted ↔
     input_dir = "" ∨
     py_float (getenv w "OFFSET_STEP" "0.175") = None ∨
     py_float (getenv w "PEAK_PROMINENCE" "0.001") = None ∨
     py_int (getenv w "PEAKS_PER_CURVE" "5") = None ∨
     glob w input_dir = [] ∨
     (∃ p, p ∈ glob w input_dir ∧ fails_both w p)) ∧
  (halted → Forall (λ ev, is_output ev = false) (run py_float to_numeric w).1).
Proof.
  cbv zeta. unfold run. rewrite main_run.
  pose proof (config_result_fails py_float w) as Hcfg.
  destruct (config_result py_float w) as [e|cfg] eqn:Ecfg.
  { split; [|by constructor]. split; [|by eexists].
    intros _. destruct (proj1 Hcfg) as [?|[?|[?|?]]]; [by eexists|tauto..]. }
  rewrite <- (config_result_input_dir py_float w cfg Ecfg) in Hcfg |- *.
  assert (Hok : ¬ (INPUT_DIR cfg = "" ∨
                   py_float (getenv w "OFFSET_STEP" "0.175") = None ∨
                   py_float (getenv w "PEAK_PROMINENCE" "0.001") = None ∨
                   py_int (getenv w "PEAKS_PER_CURVE" "5") = None)).
  { intros H. apply Hcfg in H as [? ?]. done. }
  cbv zeta.
  pose proof (sorted_by_key_Permutation (glob w (INPUT_DIR cfg))) as Hperm.
  destruct (sorted_by_key (glob w (INPUT_DIR cfg))) as [|p files] eqn:Efiles.
  { apply Permutation_nil in Hperm. split.
    - split; [intros _|by eexists]. tauto.
    - intros _. by repeat constructor. }
  pose proof (load_all_fails to_numeric w (p :: files)) as Hload.
  destruct (load_all_result to_numeric w (p :: files)) as [e|curves].
  - split.
    + split; [intros _|by eexists]. do 5 right.
      destruct (proj1 Hload) as (q & Hq & Hf); [by eexists|].
      exists q. split; [by rewrite <- Hperm|done].
    + intros _. cbn [fst]. constructor; [done|]. apply load_all_events_reads.
  - split; [|by intros [? ?]]. split; [by intros [? ?]|].
    intros [H|[H|[H|[H|[H|(q & Hq & Hf)]]]]]; try tauto.
    + rewrite H in Hperm. by apply Permutation_nil_r in Hperm.
    + destruct (proj2 Hload) as [e He]; [|done].
      exists q. split; [by rewrite Hperm|done].
Qed.

(** C5 as stated fails: with the directory set, files found and every
    file loading, an unparseable [PEAKS_PER_CURVE] still halts the run. *)
Lemma run_halts_on_malformed_number :
  strip (getenv (sample_world {[ "INPUT_DIR" := "data"; "PEAKS_PER_CURVE" := "five" ]})
           "INPUT_DIR" "") = "data" ∧
  glob (sample_world {[ "INPUT_DIR" := "data"; "PEAKS_PER_CURVE" := "five" ]}) "data"
    = ["data/sub/B.csv"; "data/empty.csv"; "data/a.csv"] ∧
  Forall (λ p, ∃ df, load_result dec_float
                 (sample_world {[ "INPUT_DIR" := "data"; "PEAKS_PER_CURVE" := "five" ]}) p
               = inr df)
         ["data/sub/B.csv"; "data/empty.csv"; "data/a.csv"] ∧
  run dec_float dec_float
    (sample_world {[ "INPUT_DIR" := "data"; "PEAKS_PER_CURVE" := "five" ]})
  = ([], inl ValueError).
Proof.
  split; [by vm_compute|]. split; [done|].
  split; [|by vm_compute].
  repeat constructor; eexists; vm_compute; reflexivity.
Qed.

(** A directory without CSV files halts the run. *)
Lemma run_halts_without_files :
  ∃ e, (run dec_float dec_float
          (sample_world {[ "INPUT_DIR" := "elsewhere" ]})).2 = inl e.
Proof.
  apply (run_halts_exactly_when dec_float dec_float
           (sample_world {[ "INPUT_DIR" := "elsewhere" ]})).
  do 4 right. left. by vm_compute.
Defined.

(** ** Order of the curves and of their samples *)

Lemma ascii_compare_N (a b : ascii) :
  Ascii.compare a b = N.compare (N_of_ascii a) (N_of_ascii b).
Proof. done. Qed.

Lemma string_compare_trans (c : comparison) (s1 s2 s3 : string) :
  String.compare s1 s2 = c → String.compare s2 s3 = c → String.compare s1 s3 = c.
Proof.
  revert s2 s3. induction s1 as [|a s1 IH]; intros [|b s2] [|d s3]; simpl; try congruence.
  rewrite !ascii_compare_N.
  destruct (N.compare_spec (N_of_ascii a) (N_of_ascii b)) as [Hab|Hab|Hab];
    destruct (N.compare_spec (N_of_ascii b) (N_of_ascii d)) as [Hbd|Hbd|Hbd];
    intros H1 H2; subst; try congruence.
  - rewrite Hab, Hbd, N.compare_refl. by eapply IH.
  - rewrite Hab. by apply N.compare_lt_iff in Hbd as ->.
  - rewrite Hab. by apply N.compare_gt_iff in Hbd as ->.
  - rewrite <- Hbd. by apply N.compare_lt_iff in Hab as ->.
  - assert (H : (N_of_ascii a < N_of_ascii d)%N) by lia.
    by apply N.compare_lt_iff in H as ->.
  - rewrite <- Hbd. by apply N.compare_gt_iff in Hab as ->.
  - assert (H : (N_of_ascii d < N_of_ascii a)%N) by lia.
    by apply N.compare_gt_iff in H as ->.
Qed.

Lemma string_leb_trans (s1 s2 s3 : string) :
  String.leb s1 s2 = true → String.leb s2 s3 = true → String.leb s1 s3 = true.
Proof.
  unfold String.leb.
  destruct (String.compare s1 s2) eqn:E12; [| |done];
    destruct (String.compare s2 s3) eqn:E23; try done; intros _ _.
  - by rewrite (string_compare_trans Eq s1 s2 s3).
  - apply String.compare_eq_iff in E12 as ->. by rewrite E23.
  - apply String.compare_eq_iff in E23 as <-. by rewrite E12.
  - by rewrite (string_compare_trans Lt s1 s2 s3).
Qed.

Lemma sorted_by_key_sorted (paths : list string) :
  StronglySorted (λ a b, String.leb (sort_key a) (sort_key b) = true) (sorted_by_key paths).
Proof.
  apply (stable_sort_sorted (λ a b, String.leb (sort_key a) (sort_key b))).
  - intros x y H. destruct (String.leb_total (sort_key x) (sort_key y)); congruence.
  - intros x y z. apply string_leb_trans.
Qed.

Lemma sort_values_desc_sorted (df : Curve) :
  StronglySorted (λ r s, s.1 <= r.1) (sort_values_desc df).
Proof.
  eapply StronglySorted_impl;
    [|apply (stable_sort_sorted (λ r s : Q * Q, Qle_bool s.1 r.1))].
  - intros r s. apply Qle_bool_iff.
  - intros r s H. apply Qle_bool_false in H. apply Qle_bool_iff. lra.
  - intros r s t H1 H2. apply Qle_bool_iff in H1, H2. apply Qle_bool_iff. lra.
Qed.

Lemma StronglySorted_Forall2 {A B} (R : relation A) (R' : relation B) (P : A → B → Prop)
    (l : list A) (k : list B) :
  (∀ x y x' y', P x x' → P y y' → R x y → R' x' y') →
  Forall2 P l k → StronglySorted R l → StronglySorted R' k.
Proof.
  intros HR HP. induction HP as [|x x' l k Hx HP IH]; intros Hs; [constructor|].
  apply StronglySorted_inv in Hs as [Hs Hall]. constructor; [by apply IH|].
  clear IH Hs. induction HP as [|y y' l k Hy HP IH]; [constructor|].
  apply Forall_cons in Hall as [Hxy Hall]. constructor; [by eapply HR|by apply IH].
Qed.

Lemma loaded_curves_sorted (to_numeric : string → option Q) (w : World)
    (paths : list string) (curves : list (string * Curve)) :
  load_all_result to_numeric w (sorted_by_key paths) = inr curves →
  StronglySorted (λ a b, String.leb (lower a.1) (lower b.1) = true) curves ∧
  Forall (λ c, StronglySorted (λ r s, s.1 <= r.1) c.2) curves.
Proof.
  intros Hload. apply load_all_curves in Hload. split.
  - eapply StronglySorted_Forall2; [|exact Hload|apply sorted_by_key_sorted].
    intros p q c d (? & _ & ->) (? & _ & ->) H. exact H.
  - clear -Hload. induction Hload as [|p c ps cs (df & _ & ->) _ IH]; constructor; [|done].
    apply sort_values_desc_sorted.
Qed.

Lemma plotted_load_all_events (to_numeric : string → option Q) (w : World)
    (files : list string) :
  plotted (load_all_events to_numeric w files) = [].
Proof.
  apply plotted_not_plot. induction files as [|p rest IH]; simpl; [constructor|].
  constructor; [done|]. apply Forall_app. split.
  - by destruct (attempt_ok w p Comma); repeat constructor.
  - by destruct (load_result to_numeric w p); [constructor|].
Qed.

Lemma run_success (py_float to_numeric : string → option Q) (w : World)
    (log : list Event) :
  run py_float to_numeric w = (log, inr ()) →
  ∃ cfg curves,
    config_result py_float w = inr cfg ∧
    load_all_result to_numeric w (sorted_by_key (glob w (INPUT_DIR cfg))) = inr curves ∧
    curves ≠ [] ∧
    log = EvMakedirs :: load_all_events to_numeric w (sorted_by_key (glob w (INPUT_DIR cfg)))
            ++ plot_events cfg (length curves) 1 curves
            ++ EvSavefig :: match curves ≫= curve_rows cfg with
                            | [] => []
                            | _ => [EvToCsv (curves ≫= curve_rows cfg)]
                            end.
Proof.
  unfold run. rewrite main_run.
  destruct (config_result py_float w) as [e|cfg]; [done|]. cbv zeta.
  destruct (sorted_by_key (glob w (INPUT_DIR cfg))) as [|p files] eqn:Efiles; [done|].
  destruct (load_all_result to_numeric w (p :: files)) as [e|curves] eqn:Eload; [done|].
  intros [= <-]. exists cfg, curves. rewrite Efiles.
  split; [done|]. split; [done|]. split; [|done].
  intros ->. apply load_all_curves in Eload. by apply Forall2_nil_inv_r in Eload.
Qed.

(** X22: after a run that ends normally the curves are in the order of
    their lower-cased file names, each with its samples by non-increasing
    wavenumber, and curve [i] of [n] (counted from 1) is plotted with the
    offset [(n - i) * OFFSET_STEP]. *)
Theorem stacking_offsets (py_float to_numeric : string → option Q) (w : World)
    (log : list Event) :
  run py_float to_numeric w = (log, inr ()) →
  ∃ cfg curves,
    config_result py_float w = inr cfg ∧
    load_all_result to_numeric w (sorted_by_key (glob w (INPUT_DIR cfg))) = inr curves ∧
    StronglySorted (λ a b, String.leb (lower a.1) (lower b.1) = true) curves ∧
    Forall (λ c, StronglySorted (λ r s, s.1 <= r.1) c.2) curves ∧
    let n := Z.of_nat (length curves) in
    plotted log =
      imap (λ k c, (c.1, inject_Z (n - Z.of_nat (k + 1)) * OFFSET_STEP cfg)) curves.
Proof.
  intros Hrun. apply run_success in Hrun as (cfg & curves & Hcfg & Hload & _ & ->).
  exists cfg, curves. split; [done|]. split; [done|].
  destruct (loaded_curves_sorted to_numeric w _ curves Hload) as [Hnames Hrows].
  split; [done|]. split; [done|]. cbv zeta.
  change (plotted (?e :: ?l)) with (plotted [e] ++ plotted l).
  rewrite !plotted_app, plotted_load_all_events, plotted_plot_events.
  replace (plotted (EvSavefig :: _)) with (@nil (string * Q))
    by (by destruct (curves ≫= curve_rows cfg)).
  simpl. rewrite app_nil_r. apply imap_ext. intros k c _. simpl.
  unfold offset_of. do 3 f_equal. lia.
Qed.

(** The offsets plotted for the sample folder. *)
Lemma stacking_offsets_on_sample_world :
  ∃ (cfg : Config) (curves : list (string * Curve)),
    config_result dec_float (sample_world {[ "INPUT_DIR" := "data" ]}) = inr cfg ∧
    plotted (run dec_float dec_float (sample_world {[ "INPUT_DIR" := "data" ]})).1 =
      imap (λ k c, (c.1, inject_Z (Z.of_nat (length curves) - Z.of_nat (k + 1))
                         * OFFSET_STEP cfg)) curves.
Proof.
  destruct (stacking_offsets dec_float dec_float (sample_world {[ "INPUT_DIR" := "data" ]})
              (run dec_float dec_float (sample_world {[ "INPUT_DIR" := "data" ]})).1)
    as (cfg & curves & Hcfg & _ & _ & _ & Hplot).
  { by vm_compute. }
  exists cfg, curves. split; [exact Hcfg|exact Hplot].
Defined.

(** C7, where the code departs from it: the comment at the offset reads
    "vertical stacking: first curve highest", and [OFFSET_STEP] is taken
    from the environment as it is.  With [OFFSET_STEP=-0.1] and the three
    files of the sample folder the run ends normally, the curves are
    plotted in file-name order with the offsets [(n - i) * OFFSET_STEP],
    that is -0.2, -0.1 and 0, and the first curve is the lowest, not the
    highest. *)
Theorem first_curve_lowest_for_negative_step :
  let w := sample_world {[ "INPUT_DIR" := "data"; "OFFSET_STEP" := "-0.1" ]} in
  (run dec_float dec_float w).2 = inr () ∧
  ∃ o1 o2 o3,
    plotted (run dec_float dec_float w).1
      = [("a.csv", o1); ("B.csv", o2); ("empty.csv", o3)] ∧
    o1 == inject_Z (3 - 1) * -0.1 ∧ o2 == inject_Z (3 - 2) * -0.1 ∧
    o3 == inject_Z (3 - 3) * -0.1 ∧
    o1 == -0.2 ∧ o2 == -0.1 ∧ o3 == 0 ∧
    o1 < o2 ∧ o2 < o3.
Proof.
  cbv zeta. split; [by vm_compute|].
  eexists _, _, _. split; [by vm_compute|].
  repeat split; by vm_compute.
Qed.

(** ** A file without a numeric row *)

Lemma curve_rows_empty (cfg : Config) (name : string) :
  annotate_curve cfg name [] = Some [].
Proof.
  change (annotate_curve cfg name []) with
    (match TARGET_GUESSES cfg with
     | Some (g :: gs) => @concat _ <$> mapM (annotate_guess name [] [] []) (g :: gs)
     | _ => annotate_auto name [] [] [] (PEAKS_PER_CURVE cfg)
     end).
  destruct (TARGET_GUESSES cfg) as [[|g gs]|]; [done| |done].
  apply mapM_concat_empties. intros g' _. apply annotate_guess_none.
Qed.

Lemma bind_rows_with_rows (cfg : Config) (curves : list (string * Curve)) :
  curves ≫= curve_rows cfg = List.filter has_rows curves ≫= curve_rows cfg.
Proof.
  induction curves as [|[name df] curves IH]; [done|].
  cbn [List.filter]. unfold has_rows at 1. cbn [snd].
  destruct df as [|r df].
  - cbn [mbind list_bind]. unfold curve_rows at 1. cbn [fst snd].
    rewrite curve_rows_empty. exact IH.
  - cbn [mbind list_bind]. by rewrite IH.
Qed.

Lemma summary_rows_app (l1 l2 : list Event) :
  summary_rows (l1 ++ l2) = summary_rows l1 ++ summary_rows l2.
Proof. unfold summary_rows. apply bind_app. Qed.

Lemma summary_rows_no_output (l : list Event) :
  Forall (λ ev, is_output ev = false) l → summary_rows l = [].
Proof.
  induction 1 as [|ev l Hev _ IH]; [done|].
  destruct ev; try done; exact IH.
Qed.

(** C10: when every file parses into at least two columns under one of
    the separators, the run ends normally even if some file has no valid
    numeric row: such a file is loaded as an empty curve, on which minima
    detection finds nothing and annotation gives no row; every curve is
    plotted and the summary holds the rows of the curves that have
    samples. *)
Theorem empty_curve_does_not_halt (py_float to_numeric : string → option Q)
    (w : World) (cfg : Config) :
  config_result py_float w = inr cfg →
  let files := sorted_by_key (glob w (INPUT_DIR cfg)) in
  files ≠ [] →
  (∀ p, p ∈ files → ¬ fails_both w p) →
  ∃ curves log,
    Forall2 (λ p c, ∃ df, load_result to_numeric w p = inr df ∧
                          c = (basename p, sort_values_desc df)) files curves ∧
    run py_float to_numeric w = (log, inr ()) ∧
    plotted log = imap (λ k c, (c.1, offset_of cfg (length curves) (S k))) curves ∧
    summary_rows log = List.filter has_rows curves ≫= curve_rows cfg ∧
    (∀ name, sort_values_desc [] = [] ∧
             _find_minima [] [] (PEAK_PROMINENCE cfg) = [] ∧
             annotate_curve cfg name [] = Some []).
Proof.
  intros Hcfg files Hne Hok. subst files.
  destruct (load_all_result to_numeric w (sorted_by_key (glob w (INPUT_DIR cfg))))
    as [e|curves] eqn:Eload.
  { destruct (proj1 (load_all_fails to_numeric w
                       (sorted_by_key (glob w (INPUT_DIR cfg)))))
      as (p & Hp & Hf); [by eexists|].
    by destruct (Hok p Hp). }
  exists curves.
  exists (EvMakedirs :: load_all_events to_numeric w (sorted_by_key (glob w (INPUT_DIR cfg)))
            ++ plot_events cfg (length curves) 1 curves
            ++ EvSavefig :: match curves ≫= curve_rows cfg with
                            | [] => []
                            | _ => [EvToCsv (curves ≫= curve_rows cfg)]
                            end).
  split; [by apply load_all_curves|].
  split.
  { unfold run. rewrite main_run, Hcfg. cbv zeta. rewrite Eload.
    destruct (sorted_by_key (glob w (INPUT_DIR cfg))); [done|reflexivity]. }
  split; [|split].
  - simpl. rewrite !plotted_app, plotted_load_all_events, plotted_plot_events.
    replace (plotted (EvSavefig :: _)) with (@nil (string * Q))
      by (by destruct (curves ≫= curve_rows cfg)).
    simpl. by rewrite app_nil_r.
  - simpl. change (summary_rows (EvMakedirs :: ?l)) with (summary_rows l).
    rewrite !summary_rows_app.
    rewrite (summary_rows_no_output _ (load_all_events_reads to_numeric w _)).
    rewrite (summary_rows_no_output _ (plot_events_no_output cfg _ _ _)).
    rewrite <- bind_rows_with_rows. simpl.
    destruct (curves ≫= curve_rows cfg) as [|r rows]; [done|].
    unfold summary_rows. simpl. by rewrite app_nil_r.
  - intros name. split; [done|]. split; [done|]. apply curve_rows_empty.
Qed.

(** The sample folder holds [empty.csv], which has no numeric row. *)
Lemma empty_file_in_sample_world :
  load_result dec_float (sample_world {[ "INPUT_DIR" := "data" ]}) "data/empty.csv" = inr [] ∧
  ∃ curves log,
    run dec_float dec_float (sample_world {[ "INPUT_DIR" := "data" ]}) = (log, inr ()) ∧
    curves.*1 = ["a.csv"; "B.csv"; "empty.csv"] ∧
    summary_rows log = List.filter has_rows curves ≫= curve_rows default_config.
Proof.
  split; [by vm_compute|].
  assert (Hcfg : config_result dec_float (sample_world {[ "INPUT_DIR" := "data" ]})
                 = inr default_config) by (by vm_compute).
  destruct (empty_curve_does_not_halt dec_float dec_float
              (sample_world {[ "INPUT_DIR" := "data" ]}) default_config Hcfg)
    as (curves & log & Hload & Hrun & _ & Hrows & _).
  { by vm_compute. }
  { intros p Hp [H1 H2]. vm_compute in Hp.
    repeat (apply elem_of_cons in Hp as [->|Hp]; [by vm_compute in H2; vm_compute in H1|]).
    by apply elem_of_nil in Hp. }
  exists curves, log. split; [exact Hrun|]. split; [|exact Hrows].
  clear -Hload.
  assert (Hfiles : sorted_by_key
                     (glob (sample_world {[ "INPUT_DIR" := "data" ]}) (INPUT_DIR default_config))
                   = ["data/a.csv"; "data/sub/B.csv"; "data/empty.csv"]) by (by vm_compute).
  rewrite Hfiles in Hload.
  repeat match goal with
         | H : Forall2 _ (_ :: _) _ |- _ =>
             apply Forall2_cons_inv_l in H as (? & ? & (? & _ & ->) & H & ->)
         | H : Forall2 _ [] _ |- _ => apply Forall2_nil_inv_l in H as ->
         end.
  reflexivity.
Defined.

(** * Further properties of the script *)

(** ** The auto branch: which minima are selected *)

Lemma full_order_sorted (d : list Q) :
  StronglySorted (ranked_before d) (reverse (argsort d)).
Proof.
  eapply StronglySorted_impl; [|apply StronglySorted_reverse, argsort_sorted].
  intros i j (y & x & Hj & Hi & H). by exists x, y.
Qed.

Lemma full_order_Permutation (d : list Q) : reverse (argsort d) ≡ₚ seq 0 (length d).
Proof. by rewrite reverse_Permutation, argsort_Permutation. Qed.

Lemma auto_order_NoDup (d : list Q) (n : Z) : NoDup (auto_order d n).
Proof.
  unfold auto_order, auto_order_with. eapply sublist_NoDup; [|apply sublist_take].
  rewrite full_order_Permutation. apply NoDup_seq.
Qed.

Lemma StronglySorted_lt_NoDup (l : list nat) : StronglySorted lt l → NoDup l.
Proof.
  induction 1 as [|x l _ IH Hx]; constructor; [|done].
  intros Hin. rewrite Forall_forall in Hx. specialize (Hx x Hin). lia.
Qed.

Lemma nth_inj_NoDup (l : list nat) (i j : nat) :
  NoDup l → (i < length l)%nat → (j < length l)%nat →
  nth i l 0%nat = nth j l 0%nat → i = j.
Proof.
  intros Hnd Hi Hj Heq.
  destruct (lookup_lt_is_Some_2 l i Hi) as [x Hx].
  destruct (lookup_lt_is_Some_2 l j Hj) as [y Hy].
  rewrite (nth_lookup_Some _ _ _ _ Hx), (nth_lookup_Some _ _ _ _ Hy) in Heq. subst y.
  by eapply NoDup_lookup.
Qed.

Lemma selected_NoDup (tr : list Q) (peak_idx : list nat) (n : Z) :
  StronglySorted lt peak_idx → NoDup (selected_at tr peak_idx n).
Proof.
  intros Hs. unfold selected_at. apply NoDup_fmap_2_strong; [|apply auto_order_NoDup].
  pose proof (auto_order_bound (depths_at tr peak_idx) n) as Hb.
  rewrite Forall_forall in Hb. unfold depths_at in Hb. rewrite length_fmap in Hb.
  intros i j Hi Hj. apply nth_inj_NoDup; [by apply StronglySorted_lt_NoDup|by apply Hb..].
Qed.

Lemma nth_seq_self (l : list nat) :
  (λ j, nth j l 0%nat) <$> seq 0 (length l) = l.
Proof.
  apply list_eq. intros i. rewrite list_lookup_fmap.
  destruct (decide (i < length l)%nat) as [Hi|Hi].
  - rewrite lookup_seq_lt by done. simpl.
    destruct (lookup_lt_is_Some_2 l i Hi) as [x Hx].
    by rewrite Hx, (nth_lookup_Some _ _ _ _ Hx).
  - rewrite lookup_seq_ge by lia. by rewrite lookup_ge_None_2 by lia.
Qed.

Lemma selected_all (tr : list Q) (peak_idx : list nat) (n : Z) :
  (Z.of_nat (length peak_idx) <= n)%Z → selected_at tr peak_idx n ≡ₚ peak_idx.
Proof.
  intros Hn. unfold selected_at, auto_order, auto_order_with.
  rewrite take_ge by (rewrite length_reverse, argsort_length; unfold depths_at;
                      rewrite length_fmap; lia).
  rewrite full_order_Permutation. unfold depths_at. rewrite length_fmap.
  by rewrite nth_seq_self.
Qed.

Lemma selected_deepest (tr : list Q) (peak_idx : list nat) (n : Z) (p q : nat) :
  p ∈ selected_at tr peak_idx n → q ∈ peak_idx → q ∉ selected_at tr peak_idx n →
  sample tr p <= sample tr q.
Proof.
  unfold selected_at, auto_order, auto_order_with. set (d := depths_at tr peak_idx).
  set (k := Z.to_nat n). intros Hp Hq Hnq.
  apply list_elem_of_fmap in Hp as (i & -> & Hi).
  apply list_elem_of_lookup_1 in Hq as [j Hj].
  assert (Hjd : j ∈ drop k (reverse (argsort d))).
  { assert (Hin : j ∈ reverse (argsort d)).
    { rewrite full_order_Permutation. apply elem_of_seq.
      unfold d, depths_at. rewrite length_fmap.
      apply lookup_lt_Some in Hj. lia. }
    rewrite <- (take_drop k (reverse (argsort d))) in Hin.
    apply elem_of_app in Hin as [Hin|Hin]; [|done].
    destruct Hnq. apply list_elem_of_fmap. exists j.
    split; [by rewrite (nth_lookup_Some _ _ _ _ Hj)|done]. }
  pose proof (full_order_sorted d) as Hs.
  rewrite <- (take_drop k (reverse (argsort d))) in Hs.
  destruct (StronglySorted_app_1_elem_of _ _ _ _ _ Hs Hi Hjd) as (x & y & Hx & Hy & Hxy).
  unfold d, depths_at in Hx, Hy. rewrite list_lookup_fmap in Hx, Hy.
  rewrite Hj in Hy. simpl in Hy. injection Hy as <-.
  destruct (peak_idx !! i) as [p|] eqn:Ep; [|done]. simpl in Hx. injection Hx as <-.
  rewrite (nth_lookup_Some _ _ _ _ Ep). destruct Hxy as [H|[H _]]; lra.
Qed.

(** X1: the minima the auto branch annotates are the deepest ones: every
    selected minimum has a transmittance no larger than that of any
    detected minimum that is left out. *)
Theorem auto_mode_selects_deepest (wn tr : list Q) (tau : Q) (n : Z) :
  let peaks := _find_minima wn tr tau in
  ∃ selected,
    auto_selected tr peaks n = Some selected ∧
    (∀ p, p ∈ selected → p ∈ peaks) ∧
    (∀ p q, p ∈ selected → q ∈ peaks → q ∉ selected → sample tr p <= sample tr q).
Proof.
  cbv zeta. set (peaks := _find_minima wn tr tau).
  exists (selected_at tr peaks n).
  split; [apply auto_selected_eq, find_minima_bound|].
  split.
  - pose proof (selected_detected tr peaks n) as H. by rewrite Forall_forall in H.
  - intros p q. apply selected_deepest.
Qed.

(** X2: the auto branch never annotates a minimum twice, and when
    [PEAKS_PER_CURVE] is at least the number of detected minima it
    annotates every one of them. *)
Theorem auto_mode_selection_distinct (wn tr : list Q) (tau : Q) (n : Z) :
  let peaks := _find_minima wn tr tau in
  ∃ selected,
    auto_selected tr peaks n = Some selected ∧
    NoDup selected ∧
    ((Z.of_nat (length peaks) <= n)%Z → selected ≡ₚ peaks).
Proof.
  cbv zeta. set (peaks := _find_minima wn tr tau).
  exists (selected_at tr peaks n).
  split; [apply auto_selected_eq, find_minima_bound|].
  split; [apply selected_NoDup, find_minima_sorted|apply selected_all].
Qed.

(** ** The guess branch: ties *)

Lemma annotate_guess_first (name : string) (wn tr : list Q) (peak_idx : list nat) (g : Q) :
  length wn = length tr →
  Forall (λ p, (p < length tr)%nat) peak_idx →
  peak_idx ≠ [] →
  ∃ k p, peak_idx !! k = Some p ∧
         annotate_guess name wn tr peak_idx g = Some [guess_row_at name wn tr g p] ∧
         ∀ j q, (j < k)%nat → peak_idx !! j = Some q →
                Qabs (sample wn p - g) < Qabs (sample wn q - g).
Proof.
  intros Hlen Hrange Hne. unfold annotate_guess.
  destruct peak_idx as [|p0 rest] eqn:Epk; [done|]. rewrite <- Epk in *.
  replace (length peak_idx =? 0)%nat with false by (by rewrite Epk).
  assert (Hrange' : Forall (λ p, (p < length wn)%nat) peak_idx) by (by rewrite Hlen).
  rewrite (take_idx_Some wn peak_idx 0 Hrange').
  change (Some ?x ≫= ?f) with (f x). cbv beta.
  unfold _nearest_index.
  set (dist := (λ xi, Qabs (xi - g)) <$> ((λ i, nth i wn 0) <$> peak_idx)).
  destruct (argmin_spec dist) as (k & v & -> & Hk & _ & Hfirst).
  { unfold dist. rewrite Epk. done. }
  change (Some ?x ≫= ?f) with (f x). cbv beta. unfold dist in Hk. rewrite !list_lookup_fmap in Hk.
  destruct (peak_idx !! k) as [p|] eqn:Ep; [|done].
  assert (Hv : Qabs (sample wn p - g) = v) by (by apply (inj Some)).
  clear Hk.
  assert (Hp : p ∈ peak_idx) by (by eapply list_elem_of_lookup_2).
  rewrite Forall_forall in Hrange. pose proof (Hrange p Hp) as Hpr.
  change (Some p ≫= ?f) with (f p). cbv beta.
  rewrite (lookup_sample wn), (lookup_sample tr) by lia.
  exists k, p. split; [done|]. split; [done|].
  intros j q Hj Hq. rewrite Hv. apply (Hfirst j); [done|].
  unfold dist. rewrite !list_lookup_fmap, Hq. done.
Qed.

(** X3: in guess mode, when several detected minima are equally near to
    a guess, the one detected first is annotated: every minimum detected
    before the annotated one is strictly farther from the guess. *)
Theorem guess_mode_ties_first_detected (name : string) (df : Curve) (tau g : Q) :
  let wn := wavenumber df in
  let tr := transmittance df in
  let peaks := _find_minima wn tr tau in
  peaks ≠ [] →
  ∃ p, annotate_guess name wn tr peaks g = Some [guess_row_at name wn tr g p] ∧
       p ∈ peaks ∧
       ∀ q, detected_before peaks q p →
            Qabs (sample wn p - g) < Qabs (sample wn q - g).
Proof.
  cbv zeta. set (wn := wavenumber df). set (tr := transmittance df).
  set (peaks := _find_minima wn tr tau). intros Hne.
  destruct (annotate_guess_first name wn tr peaks g (curve_columns_length df)
              (find_minima_bound wn tr tau) Hne) as (k & p & Hk & Hrun & Hfirst).
  exists p. split; [done|]. split; [by eapply list_elem_of_lookup_2|].
  intros q (i & j & Hij & Hi & Hj).
  assert (j = k) as ->.
  { eapply NoDup_lookup; [|exact Hj|exact Hk].
    apply StronglySorted_lt_NoDup, find_minima_sorted. }
  by apply (Hfirst i).
Qed.

(** A guess half-way between the two minima of the twin curve. *)
Lemma guess_between_twin_minima :
  ∃ p, annotate_guess "b.csv" (wavenumber twin_curve) (transmittance twin_curve)
         (_find_minima (wavenumber twin_curve) (transmittance twin_curve) 0.01) 3000
       = Some [guess_row_at "b.csv" (wavenumber twin_curve) (transmittance twin_curve) 3000 p] ∧
       ∀ q, detected_before
              (_find_minima (wavenumber twin_curve) (transmittance twin_curve) 0.01) q p →
            Qabs (sample (wavenumber twin_curve) p - 3000)
            < Qabs (sample (wavenumber twin_curve) q - 3000).
Proof.
  destruct (guess_mode_ties_first_detected "b.csv" twin_curve 0.01 3000)
    as (p & Hrun & _ & Hfirst).
  { by vm_compute. }
  exists p. split; [exact Hrun|exact Hfirst].
Defined.

(** ** Annotations point at samples of their curve *)

Lemma sample_pair_in (df : Curve) (p : nat) :
  (p < length df)%nat →
  (sample (wavenumber df) p, sample (transmittance df) p) ∈ df.
Proof.
  intros Hp. destruct (lookup_lt_is_Some_2 df p Hp) as [[w t] Hwt].
  unfold sample, wavenumber, transmittance.
  rewrite (nth_lookup_Some (fst <$> df) p 0 w), (nth_lookup_Some (snd <$> df) p 0 t).
  - by eapply list_elem_of_lookup_2.
  - by rewrite list_lookup_fmap, Hwt.
  - by rewrite list_lookup_fmap, Hwt.
Qed.

Lemma Forall2_Forall_r {A B} (P : A → B → Prop) (Q : B → Prop) (l : list A) (k : list B) :
  (∀ x y, P x y → Q y) → Forall2 P l k → Forall Q k.
Proof. intros HPQ. induction 1; constructor; eauto. Qed.

Lemma annotation_rows_of_curve (cfg : Config) (name : string) (df : Curve) :
  ∃ rows,
    annotate_curve cfg name df = Some rows ∧
    Forall (λ a, a_file a = name ∧
                 a_mode a = (if in_guess_mode cfg then guess_mode else auto_mode) ∧
                 (a_peak a, a_transmittance a) ∈ df) rows.
Proof.
  set (wn := wavenumber df). set (tr := transmittance df).
  set (peaks := _find_minima wn tr (PEAK_PROMINENCE cfg)).
  pose proof (find_minima_bound wn tr (PEAK_PROMINENCE cfg)) as Hrange.
  pose proof (curve_columns_length df) as Hlen. fold wn tr peaks in Hrange, Hlen.
  assert (Hin : ∀ p, p ∈ peaks → (sample wn p, sample tr p) ∈ df).
  { intros p Hp. apply sample_pair_in. rewrite Forall_forall in Hrange.
    specialize (Hrange p Hp). unfold tr, transmittance in Hrange.
    by rewrite length_fmap in Hrange. }
  assert (Hauto : in_guess_mode cfg = false →
            annotate_curve cfg name df = annotate_auto name wn tr peaks (PEAKS_PER_CURVE cfg)).
  { unfold annotate_curve, in_guess_mode. by destruct (TARGET_GUESSES cfg) as [[|? ?]|]. }
  destruct (in_guess_mode cfg) eqn:Emode.
  - unfold in_guess_mode in Emode.
    destruct (TARGET_GUESSES cfg) as [[|g0 gs]|] eqn:Eg; try done.
    assert (Hrun : annotate_curve cfg name df =
                   @concat _ <$> mapM (annotate_guess name wn tr peaks) (g0 :: gs)).
    { unfold annotate_curve. by rewrite Eg. }
    rewrite Hrun.
    destruct (decide (peaks = [])) as [Hnil|Hne].
    + exists []. split; [|constructor]. rewrite Hnil.
      apply mapM_concat_empties. intros g _. apply annotate_guess_none.
    + destruct (mapM_concat_singletons (annotate_guess name wn tr peaks)
                  (λ g a, ∃ p, p ∈ peaks ∧ a = guess_row_at name wn tr g p)
                  (g0 :: gs)) as (rows & Hrows & Hall).
      { intros g _.
        destruct (annotate_guess_eq name wn tr peaks g Hlen Hrange Hne)
          as (p & [Hp _] & Heq).
        exists (guess_row_at name wn tr g p). split; [by exists p|done]. }
      exists rows. split; [done|].
      eapply Forall2_Forall_r; [|exact Hall].
      intros g a (p & Hp & ->). simpl. split; [done|]. split; [done|]. by apply Hin.
  - rewrite (Hauto eq_refl), (annotate_auto_eq wn tr peaks _ Hlen Hrange).
    eexists. split; [done|].
    destruct ((0 <? length peaks)%nat && (0 <? PEAKS_PER_CURVE cfg)%Z); [|constructor].
    apply Forall_fmap. eapply Forall_impl; [apply selected_detected|].
    intros p Hp. simpl. split; [done|]. split; [done|]. by apply Hin.
Qed.

(** X4: annotating a curve never raises, and each row it gives carries
    the curve's file name, the mode of the run, and a wavenumber and
    transmittance that are together one sample of the curve. *)
Theorem annotations_are_samples (cfg : Config) (name : string) (df : Curve) :
  ∃ rows,
    annotate_curve cfg name df = Some rows ∧
    Forall (λ a, a_file a = name ∧
                 a_mode a = (if in_guess_mode cfg then guess_mode else auto_mode) ∧
                 (a_peak a, a_transmittance a) ∈ df) rows.
Proof.
  destruct (annotation_rows_of_curve cfg name df) as (rows & Hrun & Hrows).
  exists rows. split; [exact Hrun|].
  eapply Forall_impl; [exact Hrows|]. intros a (Hfile & Hmode & Hin).
  split; [exact Hfile|]. split; [exact Hmode|exact Hin].
Qed.

(** ** Where minima can be *)

Lemma annotate_curve_no_minima (cfg : Config) (name : string) (df : Curve) :
  _find_minima (wavenumber df) (transmittance df) (PEAK_PROMINENCE cfg) = [] →
  annotate_curve cfg name df = Some [].
Proof.
  intros Hnil. unfold annotate_curve. rewrite Hnil.
  destruct (TARGET_GUESSES cfg) as [[|g gs]|]; [done| |done].
  apply mapM_concat_empties. intros g' _. apply annotate_guess_none.
Qed.

Lemma find_minima_interior (wn tr : list Q) (tau : Q) :
  Forall (λ p, (0 < p ∧ p + 1 < length tr)%nat) (_find_minima wn tr tau).
Proof.
  eapply Forall_impl; [apply find_peaks_sound|].
  intros p [(l & r & Hl & Hr & Hlen & _) _]. rewrite length_fmap in Hlen. lia.
Qed.

(** X5: a detected minimum is never the first or the last sample of its
    curve, so a curve with fewer than three samples gets no annotation in
    either mode. *)
Theorem minima_are_interior (cfg : Config) (name : string) (df : Curve) :
  Forall (λ p, (0 < p ∧ p + 1 < length df)%nat)
         (_find_minima (wavenumber df) (transmittance df) (PEAK_PROMINENCE cfg)) ∧
  ((length df < 3)%nat → annotate_curve cfg name df = Some []).
Proof.
  pose proof (find_minima_interior (wavenumber df) (transmittance df) (PEAK_PROMINENCE cfg))
    as Hint.
  unfold transmittance in Hint at 1. rewrite length_fmap in Hint.
  split; [done|]. intros Hshort. apply annotate_curve_no_minima.
  destruct (_find_minima _ _ _) as [|p peaks]; [done|].
  apply Forall_cons in Hint as [Hp _]. lia.
Qed.

(** ** What the detector finds, and the threshold *)

Lemma lowest_between_unique (x : list Q) (a b : nat) (m m' : Q) :
  lowest_between x a b m → lowest_between x a b m' → m == m'.
Proof.
  intros [Hlow (k & Hk & Hm)] [Hlow' (k' & Hk' & Hm')].
  pose proof (Hlow k' Hk'). pose proof (Hlow' k Hk). lra.
Qed.

Lemma topographic_prominence_unique (x : list Q) (p : nat) (v v' : Q) :
  topographic_prominence x p v → topographic_prominence x p v' → v == v'.
Proof.
  intros (a & b & lm & rm & Hab & Hb & Hrun & Ha_edge & Hb_edge & Hlm & Hrm & Hv)
         (a' & b' & lm' & rm' & Hab' & Hb' & Hrun' & Ha_edge' & Hb_edge' & Hlm' & Hrm' & Hv').
  assert (a = a') as <-.
  { destruct (Nat.lt_trichotomy a a') as [Hlt|[->|Hgt]]; [|done|].
    - destruct Ha_edge' as [->|Hedge]; [lia|].
      pose proof (Hrun (a' - 1)%nat ltac:(lia)). lra.
    - destruct Ha_edge as [->|Hedge]; [lia|].
      pose proof (Hrun' (a - 1)%nat ltac:(lia)). lra. }
  assert (b = b') as <-.
  { destruct (Nat.lt_trichotomy b b') as [Hlt|[->|Hgt]]; [|done|].
    - destruct Hb_edge as [Hend|Hedge]; [lia|].
      pose proof (Hrun' (b + 1)%nat ltac:(lia)). lra.
    - destruct Hb_edge' as [Hend|Hedge]; [lia|].
      pose proof (Hrun (b' + 1)%nat ltac:(lia)). lra. }
  pose proof (lowest_between_unique x a p lm lm' Hlm Hlm').
  pose proof (lowest_between_unique x p b rm rm' Hrm Hrm').
  destruct Hv as [[? ->]|[? ->]], Hv' as [[? ->]|[? ->]]; lra.
Qed.

Lemma local_maximum_prominent (x : list Q) (p : nat) (v : Q) :
  local_maximum x p → topographic_prominence x p v → 0 < v.
Proof.
  intros (l & r & Hl & Hr & Hlen & _ & Hflat & Hleft & Hright)
         (a & b & lm & rm & Hab & Hb & Hrun & Ha_edge & Hb_edge & Hlm & Hrm & Hv).
  assert (Ha : (a ≤ l - 1)%nat).
  { destruct (decide (a ≤ l - 1)%nat) as [|Hn]; [done|]. exfalso.
    destruct Ha_edge as [->|Hedge]; [lia|].
    destruct (decide (a - 1 = l - 1)%nat) as [Heq|Hne].
    - rewrite Heq in Hedge. lra.
    - pose proof (Hflat (a - 1)%nat ltac:(lia)). lra. }
  assert (Hb' : (r + 1 ≤ b)%nat).
  { destruct (decide (r + 1 ≤ b)%nat) as [|Hn]; [done|]. exfalso.
    destruct Hb_edge as [Hend|Hedge]; [lia|].
    destruct (decide (b + 1 = r + 1)%nat) as [Heq|Hne].
    - rewrite Heq in Hedge. lra.
    - pose proof (Hflat (b + 1)%nat ltac:(lia)). lra. }
  destruct Hlm as [Hlm _]. destruct Hrm as [Hrm _].
  pose proof (Hlm (l - 1)%nat ltac:(lia)). pose proof (Hrm (r + 1)%nat ltac:(lia)).
  destruct Hv as [[? ->]|[? ->]]; lra.
Qed.

(** X6: the detector finds exactly the local maxima of the inverted
    signal whose topographic prominence reaches the threshold: none of
    them is missed. *)
Theorem find_minima_exactly (wn tr : list Q) (tau : Q) (p : nat) :
  let inverted := (λ t, 1 - t) <$> tr in
  p ∈ _find_minima wn tr tau ↔
  local_maximum inverted p ∧ ∃ v, topographic_prominence inverted p v ∧ tau <= v.
Proof.
  cbv zeta. set (inverted := (λ t, 1 - t) <$> tr). split.
  - intros Hp. pose proof (find_peaks_sound inverted tau) as Hsound.
    rewrite Forall_forall in Hsound. destruct (Hsound p Hp) as [Hmax Hprom].
    split; [done|]. exists (peak_prominence inverted p). split; [|done].
    apply peak_prominence_spec. by apply local_maximum_bound.
  - intros (Hmax & v & Hv & Hle). apply find_peaks_complete; [done|].
    pose proof (peak_prominence_spec inverted p (local_maximum_bound _ _ Hmax)) as Hspec.
    pose proof (topographic_prominence_unique inverted p _ _ Hv Hspec) as Heq.
    eapply Qle_trans; [exact Hle|]. rewrite Heq. apply Qle_refl.
Qed.

Lemma filter_weaker_sublist {A} (P1 P2 : A → Prop)
    `{!∀ a, Decision (P1 a)} `{!∀ a, Decision (P2 a)} (l : list A) :
  (∀ a, P2 a → P1 a) → filter P2 l `sublist_of` filter P1 l.
Proof.
  intros Himp. induction l as [|a l IH]; [constructor|].
  rewrite !filter_cons. destruct (decide (P2 a)) as [H2|H2].
  - rewrite decide_True by auto. by apply sublist_skip.
  - destruct (decide (P1 a)); [by apply sublist_cons|done].
Qed.

(** X7: raising [PEAK_PROMINENCE] never adds a minimum: the minima found
    with a larger threshold are among those found with a smaller one, in
    the same order. *)
Theorem find_minima_threshold_monotone (wn tr : list Q) (tau1 tau2 : Q) :
  tau1 <= tau2 →
  _find_minima wn tr tau2 `sublist_of` _find_minima wn tr tau1.
Proof.
  intros Hle. unfold _find_minima, find_peaks. apply filter_weaker_sublist.
  intros p Hp. apply Is_true_true, Qle_bool_iff in Hp.
  apply Is_true_true, Qle_bool_iff. lra.
Qed.

(** The twin curve under two thresholds. *)
Lemma twin_curve_thresholds :
  _find_minima (wavenumber twin_curve) (transmittance twin_curve) 0.6
    `sublist_of` _find_minima (wavenumber twin_curve) (transmittance twin_curve) 0.01.
Proof.
  apply (find_minima_threshold_monotone (wavenumber twin_curve) (transmittance twin_curve)
           0.01 0.6).
  unfold Qle. simpl. lia.
Defined.

(** X8: a local maximum of the inverted signal always has a strictly
    positive prominence, so a threshold that is zero or negative filters
    nothing: the detector then returns every local maximum. *)
Theorem nonpositive_threshold_keeps_all (wn tr : list Q) (tau : Q) (p : nat) :
  let inverted := (λ t, 1 - t) <$> tr in
  (local_maximum inverted p → 0 < peak_prominence inverted p) ∧
  (tau <= 0 → (p ∈ _find_minima wn tr tau ↔ local_maximum inverted p)).
Proof.
  cbv zeta. set (inverted := (λ t, 1 - t) <$> tr).
  assert (Hpos : local_maximum inverted p → 0 < peak_prominence inverted p).
  { intros Hmax. apply (local_maximum_prominent inverted p); [done|].
    apply peak_prominence_spec. by apply local_maximum_bound. }
  split; [done|]. intros Htau. split.
  - intros Hp. pose proof (find_peaks_sound inverted tau) as Hsound.
    rewrite Forall_forall in Hsound. by destruct (Hsound p Hp).
  - intros Hmax. apply find_peaks_complete; [done|].
    eapply Qle_trans; [exact Htau|]. apply Qlt_le_weak, Hpos, Hmax.
Qed.

(** ** How a run fails *)

(** X9: a blank or unset [INPUT_DIR] raises [RuntimeError] before any
    other setting is looked at, and a numeric setting that does not parse
    raises [ValueError]; in both cases nothing has been created, read or
    plotted. *)
Theorem configuration_errors_come_first (py_float to_numeric : string → option Q)
    (w : World) :
  (strip (getenv w "INPUT_DIR" "") = "" →
   run py_float to_numeric w = ([], inl RuntimeError)) ∧
  (strip (getenv w "INPUT_DIR" "") ≠ "" →
   py_float (getenv w "OFFSET_STEP" "0.175") = None ∨
   py_float (getenv w "PEAK_PROMINENCE" "0.001") = None ∨
   py_int (getenv w "PEAKS_PER_CURVE" "5") = None →
   run py_float to_numeric w = ([], inl ValueError)).
Proof.
  unfold run. rewrite main_run, config_result_eq.
  destruct (String.eqb_spec (strip (getenv w "INPUT_DIR" "")) "") as [Hdir|Hdir].
  { split; [done|]. intros H. by destruct H. }
  split; [done|]. intros _.
  destruct (py_float (getenv w "OFFSET_STEP" "0.175")); [|done].
  destruct (py_float (getenv w "PEAK_PROMINENCE" "0.001")); [|done].
  destruct (py_int (getenv w "PEAKS_PER_CURVE" "5")); [|done].
  intros [?|[?|?]]; done.
Qed.

(** X10: when the configuration is read but no CSV file is found, the run
    raises [FileNotFoundError] after it has created the output directory
    and before it reads or plots anything. *)
Theorem no_files_found (py_float to_numeric : string → option Q) (w : World)
    (cfg : Config) :
  config_result py_float w = inr cfg →
  glob w (INPUT_DIR cfg) = [] →
  run py_float to_numeric w = ([EvMakedirs], inl FileNotFoundError).
Proof.
  intros Hcfg Hglob. unfold run. rewrite main_run, Hcfg. cbv zeta. by rewrite Hglob.
Qed.

(** A directory that holds no CSV file. *)
Lemma no_files_in_other_directory :
  run dec_float dec_float (sample_world {[ "INPUT_DIR" := "elsewhere" ]})
  = ([EvMakedirs], inl FileNotFoundError).
Proof.
  apply (no_files_found dec_float dec_float (sample_world {[ "INPUT_DIR" := "elsewhere" ]})
           {| INPUT_DIR := "elsewhere"; OFFSET_STEP := 0.175; PEAK_PROMINENCE := 0.001;
              PEAKS_PER_CURVE := 5; TARGET_GUESSES := None |}).
  - by vm_compute.
  - by vm_compute.
Defined.

Lemma load_all_until_failure (to_numeric : string → option Q) (w : World)
    (pre post : list string) (p : string) :
  (∀ q, q ∈ pre → ¬ fails_both w q) → fails_both w p →
  load_all_result to_numeric w (pre ++ p :: post) = inl (semicolon_failure w p) ∧
  load_all_events to_numeric w (pre ++ p :: post)
  = (pre ≫= load_events w) ++ load_events w p.
Proof.
  intros Hpre Hp. induction pre as [|q pre IH]; simpl.
  - assert (Hres : load_result to_numeric w p = inl (semicolon_failure w p)).
    { destruct Hp as [Hc Hs]. unfold load_result, semicolon_failure. rewrite Hc.
      unfold attempt_ok in Hs.
      destruct (read_csv w p Semicolon) as [e|[|c0 [|c1 df]]]; done. }
    rewrite Hres. by rewrite app_nil_r.
  - destruct (load_result to_numeric w q) as [e|df] eqn:Eq.
    { destruct (Hpre q); [by left|]. apply (load_result_fails to_numeric). by eexists. }
    destruct IH as [-> ->]; [intros q' Hq'; apply Hpre; by right|].
    split; [done|]. by rewrite <- app_assoc.
Qed.

(** X11: the files are read in file-name order and the first one that
    fails under both separators ends the run with the exception of its
    semicolon attempt: the files after it are not read and nothing is
    plotted or written. *)
Theorem first_failing_file_stops_run (py_float to_numeric : string → option Q)
    (w : World) (cfg : Config) (pre post : list string) (p : string) :
  config_result py_float w = inr cfg →
  sorted_by_key (glob w (INPUT_DIR cfg)) = pre ++ p :: post →
  (∀ q, q ∈ pre → ¬ fails_both w q) →
  fails_both w p →
  run py_float to_numeric w =
  (EvMakedirs :: (pre ≫= load_events w) ++ load_events w p,
   inl (semicolon_failure w p)).
Proof.
  intros Hcfg Hfiles Hpre Hp. unfold run. rewrite main_run, Hcfg. cbv zeta.
  rewrite Hfiles.
  destruct (load_all_until_failure to_numeric w pre post p Hpre Hp) as [-> ->].
  by destruct pre.
Qed.

(** In the broken folder [a.csv] is read, [bad.csv] fails, [z.csv] is
    never read. *)
Lemma broken_folder_stops_at_bad_file :
  run dec_float dec_float broken_world =
  ([EvMakedirs; EvReadCsv "data/a.csv" Comma;
    EvReadCsv "data/bad.csv" Comma; EvReadCsv "data/bad.csv" Semicolon],
   inl FileNotFoundError).
Proof.
  assert (Hcfg : config_result dec_float broken_world = inr default_config)
    by (by vm_compute).
  rewrite (first_failing_file_stops_run dec_float dec_float broken_world default_config
             ["data/a.csv"] ["data/z.csv"] "data/bad.csv" Hcfg).
  - by vm_compute.
  - by vm_compute.
  - intros q Hq. apply list_elem_of_singleton in Hq as ->. intros [H _]. by vm_compute in H.
  - split; by vm_compute.
Defined.

(** ** Which curves are plotted *)

Lemma loaded_names (to_numeric : string → option Q) (w : World)
    (files : list string) (curves : list (string * Curve)) :
  load_all_result to_numeric w files = inr curves → curves.*1 = basename <$> files.
Proof.
  intros Hload. apply load_all_curves in Hload.
  induction Hload as [|p c files curves (df & _ & ->) _ IH]; [done|].
  rewrite !fmap_cons. cbn [fst]. by rewrite IH.
Qed.

Lemma fst_imap_offsets (cfg : Config) (n : Z) (curves : list (string * Curve)) :
  (imap (λ k c, (c.1, inject_Z (n - Z.of_nat (k + 1)) * OFFSET_STEP cfg)) curves).*1
  = curves.*1.
Proof.
  apply list_eq. intros i. rewrite !list_lookup_fmap, list_lookup_imap.
  by destruct (curves !! i).
Qed.

Lemma run_plotted (py_float to_numeric : string → option Q) (w : World)
    (log : list Event) :
  run py_float to_numeric w = (log, inr ()) →
  ∃ cfg curves,
    config_result py_float w = inr cfg ∧
    load_all_result to_numeric w (sorted_by_key (glob w (INPUT_DIR cfg))) = inr curves ∧
    plotted log =
      imap (λ k c, (c.1, inject_Z (Z.of_nat (length curves) - Z.of_nat (k + 1))
                         * OFFSET_STEP cfg)) curves.
Proof.
  intros Hrun. apply run_success in Hrun as (cfg & curves & Hcfg & Hload & _ & ->).
  exists cfg, curves. split; [done|]. split; [done|].
  change (plotted (?e :: ?l)) with (plotted [e] ++ plotted l).
  rewrite !plotted_app, plotted_load_all_events, plotted_plot_events.
  replace (plotted (EvSavefig :: _)) with (@nil (string * Q))
    by (by destruct (curves ≫= curve_rows cfg)).
  simpl. rewrite app_nil_r. apply imap_ext. intros k c _. simpl.
  unfold offset_of. do 3 f_equal. lia.
Qed.

(** X12: in a run that ends normally every discovered CSV file is plotted
    exactly once: the names of the plotted curves are, up to order, the
    base names of the files found under the input directory. *)
Theorem every_file_plotted_once (py_float to_numeric : string → option Q) (w : World)
    (log : list Event) :
  run py_float to_numeric w = (log, inr ()) →
  (plotted log).*1 ≡ₚ basename <$> glob w (strip (getenv w "INPUT_DIR" "")).
Proof.
  intros Hrun. apply run_plotted in Hrun as (cfg & curves & Hcfg & Hload & ->).
  rewrite fst_imap_offsets, (loaded_names to_numeric w _ curves Hload).
  rewrite sorted_by_key_Permutation.
  by rewrite (config_result_input_dir py_float w cfg Hcfg).
Qed.

(** The three files of the sample folder. *)
Lemma sample_folder_plotted_once :
  (plotted (run dec_float dec_float (sample_world {[ "INPUT_DIR" := "data" ]})).1).*1
  ≡ₚ basename <$> glob (sample_world {[ "INPUT_DIR" := "data" ]})
                    (strip (getenv (sample_world {[ "INPUT_DIR" := "data" ]}) "INPUT_DIR" "")).
Proof.
  apply (every_file_plotted_once dec_float dec_float (sample_world {[ "INPUT_DIR" := "data" ]})).
  by vm_compute.
Defined.

(** ** Order of files with the same name *)

Lemma filter_none {A} (P : A → Prop) `{!∀ a, Decision (P a)} (l : list A) :
  Forall (λ a, ¬ P a) l → filter P l = [].
Proof.
  induction 1 as [|a l Ha _ IH]; [done|]. rewrite filter_cons. by destruct (decide (P a)).
Qed.

Section StableByKey.
Context {A : Type} (key : A → string).

Lemma string_leb_refl (s : string) : String.leb s s = true.
Proof. by destruct (String.leb_total s s). Qed.

Lemma key_placed (x y : A) :
  placed (λ a b, String.leb (key a) (key b))
         (λ a b, String.leb (key a) (key b) = true) y x.
Proof.
  unfold placed. destruct (String.leb (key y) (key x)) eqn:E; [done|].
  destruct (String.leb_total (key y) (key x)); congruence.
Qed.

Lemma insert_by_key_filter (k : string) (x : A) (l : list A) :
  StronglySorted (λ a b, String.leb (key a) (key b) = true) l →
  filter (λ a, key a = k) (insert_by (λ a b, String.leb (key a) (key b)) x l)
  = filter (λ a, key a = k) l ++ filter (λ a, key a = k) [x].
Proof.
  induction 1 as [|y l Hs IH Hy]; [by rewrite app_nil_l|].
  cbn [insert_by]. destruct (String.leb (key y) (key x)) eqn:E.
  - rewrite !(filter_cons _ y), IH. by destruct (decide (key y = k)).
  - rewrite (filter_cons _ x), (filter_cons _ x [] ), filter_nil.
    destruct (decide (key x = k)) as [Hx|Hx]; [|by rewrite app_nil_r].
    assert (Hnone : filter (λ a, key a = k) (y :: l) = []).
    { apply filter_none, Forall_forall. intros z Hz Hk.
      assert (Hzx : String.leb (key z) (key x) = true)
        by (rewrite Hk, Hx; apply string_leb_refl).
      apply elem_of_cons in Hz as [->|Hz]; [congruence|].
      rewrite Forall_forall in Hy. specialize (Hy z Hz).
      rewrite (string_leb_trans _ _ _ Hy Hzx) in E. done. }
    by rewrite Hnone.
Qed.

Lemma fold_insert_key_filter (k : string) (l acc : list A) :
  StronglySorted (λ a b, String.leb (key a) (key b) = true) acc →
  filter (λ a, key a = k)
    (fold_left (λ acc x, insert_by (λ a b, String.leb (key a) (key b)) x acc) l acc)
  = filter (λ a, key a = k) acc ++ filter (λ a, key a = k) l.
Proof.
  revert acc. induction l as [|x l IH]; intros acc Hacc; simpl.
  - by rewrite filter_nil, app_nil_r.
  - rewrite IH.
    + rewrite insert_by_key_filter by done.
      rewrite <- app_assoc. f_equal. by rewrite <- filter_app.
    + assert (Transitive (λ a b : A, String.leb (key a) (key b) = true))
        by (intros a b c; apply string_leb_trans).
      apply (insert_by_StronglySorted _ (λ a b, String.leb (key a) (key b) = true));
        [|done].
      apply Forall_forall. intros y _. apply key_placed.
Qed.

End StableByKey.

(** X13: sorting the files by lower-cased base name is stable: files
    whose lower-cased base names are equal (the same name in two folders,
    or names that differ in case only) stay in the order the glob found
    them. *)
Theorem same_name_files_keep_glob_order (paths : list string) (k : string) :
  filter (λ p, sort_key p = k) (sorted_by_key paths)
  = filter (λ p, sort_key p = k) paths.
Proof.
  unfold sorted_by_key, stable_sort.
  rewrite (fold_insert_key_filter sort_key k paths []) by constructor.
  by rewrite filter_nil.
Qed.

(** ** Decimal commas and decimal points *)

Lemma coerce_normalized (to_numeric : string → option Q) (c : list string) :
  coerce to_numeric c = to_numeric <$> (replace_comma <$> c).
Proof. unfold coerce. by rewrite <- list_fmap_compose. Qed.

Lemma clean_normalized (to_numeric : string → option Q) (df df' : Frame) :
  normalized_columns df = normalized_columns df' →
  _clean to_numeric df = _clean to_numeric df'.
Proof.
  unfold normalized_columns, _clean.
  destruct df as [|c0 [|c1 rest]], df' as [|d0 [|d1 rest']]; simpl; try done.
  intros [= H0 H1]. by rewrite !coerce_normalized, H0, H1.
Qed.

Lemma load_result_clean (to_numeric : string → option Q) (w : World) (path : string) :
  load_result to_numeric w path =
  match (if attempt_ok w path Comma then read_csv w path Comma
         else read_csv w path Semicolon) with
  | inl e => inl e
  | inr df => _clean to_numeric df
  end.
Proof.
  unfold load_result. destruct (if attempt_ok w path Comma then _ else _); [done|].
  by rewrite clean_rows.
Qed.

(** X14: a file that only parses with the semicolon and writes its
    numbers with decimal commas is loaded as the same curve as a file that
    parses with the comma and holds the same cells with decimal points. *)
Theorem semicolon_file_loads_alike (to_numeric : string → option Q) (w : World)
    (p q : string) (dfp dfq : Frame) :
  attempt_ok w p Comma = true → read_csv w p Comma = inr dfp →
  attempt_ok w q Comma = false → read_csv w q Semicolon = inr dfq →
  normalized_columns dfp = normalized_columns dfq →
  load_result to_numeric w p = load_result to_numeric w q.
Proof.
  intros Hp Hdfp Hq Hdfq Hsame.
  rewrite !load_result_clean, Hp, Hq, Hdfp, Hdfq.
  by apply clean_normalized.
Qed.

(** [p.csv] and [q.csv] of the decimal folder give the same curve. *)
Lemma decimal_folder_loads_alike :
  load_result dec_float decimal_world "data/p.csv"
  = load_result dec_float decimal_world "data/q.csv".
Proof.
  apply (semicolon_file_loads_alike dec_float decimal_world "data/p.csv" "data/q.csv"
           [["4000"; "3500"; "3000"]; ["0.95"; "0.40"; "0.92"]]
           [["4000"; "3500"; "3000"]; ["0,95"; "0,40"; "0,92"]]);
    by vm_compute.
Defined.

(** ** The course of a run that ends normally *)

Lemma load_all_events_are_reads (to_numeric : string → option Q) (w : World)
    (files : list string) :
  Forall (λ ev, is_read ev = true) (load_all_events to_numeric w files).
Proof.
  induction files as [|p rest IH]; simpl; [constructor|].
  constructor; [done|]. apply Forall_app. split.
  - by destruct (attempt_ok w p Comma); repeat constructor.
  - by destruct (load_result to_numeric w p); [constructor|].
Qed.

Lemma plot_events_are_drawings (cfg : Config) (n i : nat) (curves : list (string * Curve)) :
  Forall (λ ev, is_drawing ev = true) (plot_events cfg n i curves).
Proof.
  revert i. induction curves as [|c rest IH]; intros i; simpl; [constructor|].
  constructor; [done|]. apply Forall_app. split; [|apply IH].
  unfold mark_events. induction (curve_rows cfg c) as [|a rows IHr]; simpl;
    repeat constructor; done.
Qed.

(** X15: a run that ends normally goes through its stages in order: it
    creates the output directory, reads files, draws, saves the figure
    once, and writes the summary last; the summary is written only when
    there is at least one row, so an empty summary is never written. *)
Theorem run_stages (py_float to_numeric : string → option Q) (w : World)
    (log : list Event) :
  run py_float to_numeric w = (log, inr ()) →
  ∃ reads drawings rows,
    log = EvMakedirs :: reads ++ drawings ++ EvSavefig ::
            match rows with
            | [] => []
            | _ => [EvToCsv rows]
            end ∧
    Forall (λ ev, is_read ev = true) reads ∧
    Forall (λ ev, is_drawing ev = true) drawings ∧
    rows = summary_rows log.
Proof.
  intros Hrun. apply run_success in Hrun as (cfg & curves & Hcfg & Hload & _ & ->).
  exists (load_all_events to_numeric w (sorted_by_key (glob w (INPUT_DIR cfg)))),
         (plot_events cfg (length curves) 1 curves), (curves ≫= curve_rows cfg).
  split; [done|]. split; [apply load_all_events_are_reads|].
  split; [apply plot_events_are_drawings|].
  change (summary_rows (EvMakedirs :: ?l)) with (summary_rows l).
  rewrite !summary_rows_app.
  rewrite (summary_rows_no_output _ (load_all_events_reads to_numeric w _)).
  rewrite (summary_rows_no_output _ (plot_events_no_output cfg _ _ _)).
  simpl. destruct (curves ≫= curve_rows cfg) as [|r rows]; [done|].
  unfold summary_rows. simpl. by rewrite app_nil_r.
Qed.

(** The stages of the run on the sample folder. *)
Lemma sample_folder_stages :
  ∃ reads drawings rows,
    (run dec_float dec_float (sample_world {[ "INPUT_DIR" := "data" ]})).1
    = EvMakedirs :: reads ++ drawings ++ EvSavefig ::
        match rows with
        | [] => []
        | _ => [EvToCsv rows]
        end ∧
    Forall (λ ev, is_read ev = true) reads ∧
    Forall (λ ev, is_drawing ev = true) drawings.
Proof.
  destruct (run_stages dec_float dec_float (sample_world {[ "INPUT_DIR" := "data" ]})
              (run dec_float dec_float (sample_world {[ "INPUT_DIR" := "data" ]})).1)
    as (reads & drawings & rows & Hlog & Hreads & Hdraw & _).
  { by vm_compute. }
  exists reads, drawings, rows. split; [exact Hlog|]. split; [exact Hreads|exact Hdraw].
Defined.

(** ** Markers and labels *)










(** ** The configuration that is read *)

(** X17: a configuration that is read has a non-blank input directory,
    and its guesses are either absent or a non-empty list, each guess
    being the value of a non-empty token of [TARGET_GUESSES]; so a list
    of guesses that is present always puts the run in guess mode. *)
Theorem configuration_invariants (py_float : string → option Q) (w : World)
    (cfg : Config) :
  config_result py_float w = inr cfg →
  INPUT_DIR cfg ≠ "" ∧
  TARGET_GUESSES cfg ≠ Some [] ∧
  (is_Some (TARGET_GUESSES cfg) ↔ in_guess_mode cfg = true) ∧
  (∀ gs g, TARGET_GUESSES cfg = Some gs → g ∈ gs →
           ∃ tok, tok ∈ re_split (strip (getenv w "TARGET_GUESSES" "")) ∧
                  tok ≠ "" ∧ py_float tok = Some g).
Proof.
  rewrite config_result_eq.
  destruct (String.eqb_spec (strip (getenv w "INPUT_DIR" "")) "") as [|Hdir]; [done|].
  destruct (py_float (getenv w "OFFSET_STEP" "0.175")); [|done].
  destruct (py_float (getenv w "PEAK_PROMINENCE" "0.001")); [|done].
  destruct (py_int (getenv w "PEAKS_PER_CURVE" "5")); [|done].
  intros [= <-]. unfold in_guess_mode. cbn [INPUT_DIR TARGET_GUESSES].
  split; [done|]. rewrite parse_guesses_omap.
  set (toks := re_split (strip (getenv w "TARGET_GUESSES" ""))).
  destruct (omap (float_token py_float) toks) as [|g0 gs0] eqn:Eg.
  - split; [done|]. split; [split; [by intros [? ?]|done]|]. done.
  - split; [done|]. split; [split; [done|by eexists]|].
    intros gs g [= <-] Hg. rewrite <- Eg in Hg.
    apply list_elem_of_omap in Hg as (tok & Htok & Hf).
    exists tok. split; [done|]. unfold float_token in Hf.
    destruct (String.eqb_spec tok ""); [done|]. done.
Qed.

(** Guesses with a malformed token in the sample folder. *)
Lemma sample_folder_with_guesses :
  ∃ cfg,
    config_result dec_float
      (sample_world {[ "INPUT_DIR" := "data"; "TARGET_GUESSES" := "3400, x, 1650" ]})
    = inr cfg ∧
    TARGET_GUESSES cfg = Some [3400; 1650] ∧
    in_guess_mode cfg = true.
Proof.
  assert (Hcfg : config_result dec_float
            (sample_world {[ "INPUT_DIR" := "data"; "TARGET_GUESSES" := "3400, x, 1650" ]})
          = inr (with_guesses default_config (Some [3400; 1650]))) by (by vm_compute).
  destruct (configuration_invariants dec_float _ _ Hcfg) as (_ & _ & Hmode & _).
  eexists. split; [exact Hcfg|]. split; [reflexivity|].
  apply Hmode. by eexists.
Defined.

(** ** The samples of a loaded curve *)

(** X18: sorting by wavenumber keeps the samples: each loaded curve has
    the name of its file and holds exactly the valid rows of the file, as
    many times as they occur, by non-increasing wavenumber. *)
Theorem loaded_curves_keep_samples (to_numeric : string → option Q) (w : World)
    (files : list string) (curves : list (string * Curve)) :
  load_all_result to_numeric w files = inr curves →
  Forall2 (λ p c, c.1 = basename p ∧
                  ∃ df, load_result to_numeric w p = inr df ∧
                        c.2 ≡ₚ df ∧
                        StronglySorted (λ r s, s.1 <= r.1) c.2) files curves.
Proof.
  intros Hload. apply load_all_curves in Hload.
  eapply Forall2_impl; [exact Hload|].
  intros p c (df & Hdf & ->). split; [done|]. exists df. split; [done|].
  split; [apply stable_sort_Permutation|apply sort_values_desc_sorted].
Qed.

(** The curves loaded from the decimal folder. *)
Lemma decimal_folder_curves :
  ∃ curves,
    load_all_result dec_float decimal_world ["data/p.csv"; "data/q.csv"] = inr curves ∧
    Forall2 (λ p c, c.1 = basename p ∧
                    ∃ df, load_result dec_float decimal_world p = inr df ∧
                          c.2 ≡ₚ df ∧
                          StronglySorted (λ r s, s.1 <= r.1) c.2)
            ["data/p.csv"; "data/q.csv"] curves.
Proof.
  destruct (load_all_result dec_float decimal_world ["data/p.csv"; "data/q.csv"])
    as [e|curves] eqn:Eload; [by vm_compute in Eload|].
  exists curves. split; [reflexivity|].
  exact (loaded_curves_keep_samples dec_float decimal_world _ curves Eload).
Defined.

(** ** Cleaning a frame *)

Lemma length_omap_le {A B} (f : A → option B) (l : list A) :
  (length (omap f l) ≤ length l)%nat.
Proof.
  induction l as [|a l IH]; [done|].
  change (omap f (a :: l)) with (match f a with Some y => y :: omap f l | None => omap f l end).
  destruct (f a); cbn [length]; lia.
Qed.

(** X19: cleaning a frame with at least two columns never fails and uses
    the first two columns only: the curve has at most as many samples as
    the frame has rows, and a pair is a sample exactly when some row holds
    two cells that have these values once their decimal commas are
    points. *)
Theorem clean_keeps_parsed_rows (to_numeric : string → option Q)
    (c0 c1 : list string) (rest : Frame) :
  ∃ rows,
    _clean to_numeric (c0 :: c1 :: rest) = inr rows ∧
    _clean to_numeric [c0; c1] = inr rows ∧
    (length rows ≤ length c0)%nat ∧
    ∀ x y, (x, y) ∈ rows ↔
           ∃ i a b, c0 !! i = Some a ∧ c1 !! i = Some b ∧
                    cell_value to_numeric a (Some x) ∧
                    cell_value to_numeric b (Some y).
Proof.
  exists (valid_rows to_numeric (zip c0 c1)).
  split; [by rewrite clean_rows|]. split; [by rewrite clean_rows|]. split.
  - unfold valid_rows. etrans; [apply length_omap_le|].
    rewrite length_zip. lia.
  - intros x y. unfold valid_rows. rewrite list_elem_of_omap. split.
    + intros ([a b] & Hin & Hf). apply list_elem_of_lookup_1 in Hin as [i Hi].
      apply lookup_zip_Some in Hi as [Ha Hb]. exists i, a, b.
      cbn [fst snd] in Hf. rewrite !cell_value_parse_cell.
      destruct (parse_cell to_numeric a) as [x'|]; [|done].
      destruct (parse_cell to_numeric b) as [y'|]; [|done].
      simpl in Hf. by injection Hf as -> ->.
    + intros (i & a & b & Ha & Hb & Hx & Hy). exists (a, b). split.
      * eapply list_elem_of_lookup_2. apply lookup_zip_Some. by split.
      * apply cell_value_parse_cell in Hx, Hy. cbn [fst snd]. by rewrite Hx, Hy.
Qed.

(** A frame of three columns whose second row has no number in its second
    cell: the third column is ignored, the row ["4000"], ["0,95"] is read
    as (4000, 0.95), and the second row is dropped. *)
Lemma clean_on_decimal_comma_frame :
  ∃ rows,
    _clean dec_float [["4000"; "3500"]; ["0,95"; "n/a"]; ["x"; "y"]] = inr rows ∧
    (4000, 0.95) ∈ rows ∧
    (length rows ≤ 2)%nat ∧
    ¬ (∃ y, (3500, y) ∈ rows).
Proof.
  destruct (clean_keeps_parsed_rows dec_float ["4000"; "3500"] ["0,95"; "n/a"] [["x"; "y"]])
    as (rows & Hclean & _ & Hlen & Hrows).
  exists rows. split; [exact Hclean|]. split; [|split; [exact Hlen|]].
  - apply Hrows. exists 0%nat, "4000", "0,95".
    split; [reflexivity|]. split; [reflexivity|]. split.
    + exists "4000". split; [repeat (apply decimal_points_other; [discriminate|]); constructor|].
      reflexivity.
    + exists "0.95". split; [|reflexivity].
      apply decimal_points_other; [discriminate|]. apply decimal_points_comma.
      repeat (apply decimal_points_other; [discriminate|]). constructor.
  - intros (y & Hy).
    apply Hrows in Hy as (i & a & b & Ha & Hb & (ta & Hta & Hva) & (tb & Htb & Hvb)).
    apply decimal_points_replace_comma in Hta, Htb. subst ta tb.
    destruct i as [|[|i]]; simpl in Ha, Hb.
    + injection Ha as <-. vm_compute in Hva. discriminate Hva.
    + injection Hb as <-. vm_compute in Hvb. discriminate Hvb.
    + discriminate Ha.
Defined.

(** ** More peaks per curve *)

(** X20: raising [PEAKS_PER_CURVE] only appends: the minima selected for
    a smaller count are the first ones selected for a larger count. *)
Theorem more_peaks_only_append (wn tr : list Q) (tau : Q) (n m : Z) :
  (n <= m)%Z →
  let peaks := _find_minima wn tr tau in
  ∃ fewer more,
    auto_selected tr peaks n = Some fewer ∧
    auto_selected tr peaks m = Some more ∧
    fewer `prefix_of` more.
Proof.
  intros Hnm. cbv zeta. set (peaks := _find_minima wn tr tau).
  exists (selected_at tr peaks n), (selected_at tr peaks m).
  split; [apply auto_selected_eq, find_minima_bound|].
  split; [apply auto_selected_eq, find_minima_bound|].
  unfold selected_at, auto_order, auto_order_with.
  set (order := reverse (argsort (depths_at tr peaks))).
  replace (take (Z.to_nat n) order) with (take (Z.to_nat n) (take (Z.to_nat m) order))
    by (rewrite take_take; f_equal; lia).
  exists ((λ j, nth j peaks 0%nat) <$> drop (Z.to_nat n) (take (Z.to_nat m) order)).
  by rewrite <- fmap_app, take_drop.
Qed.

(** One and two peaks on the twin curve. *)
Lemma twin_curve_more_peaks :
  ∃ fewer more,
    auto_selected (transmittance twin_curve)
      (_find_minima (wavenumber twin_curve) (transmittance twin_curve) 0.01) 1 = Some fewer ∧
    auto_selected (transmittance twin_curve)
      (_find_minima (wavenumber twin_curve) (transmittance twin_curve) 0.01) 2 = Some more ∧
    fewer `prefix_of` more.
Proof.
  apply (more_peaks_only_append (wavenumber twin_curve) (transmittance twin_curve) 0.01 1 2).
  lia.
Defined.

(** ** Order of the summary *)




